(** * MAC-compare: snapshot collection, consolidation and comparison

    A shallow embedding of [src/workers.py] (classes [CreateEvent] and
    [CompareEvent]) and of [Form.scan_snapshots] / [Form.add_snapshot] from
    [src/ui.py], followed by the properties of the specification that were
    checked against it.

    Conventions of the embedding.
    - A Python [str] is a [string]; each character is read as a code point
      below 256.  On that range [\d] is [0-9], [\s] is the Unicode white
      space listed in [is_space], and [re.IGNORECASE] on an ASCII-letter
      pattern is ASCII case folding.
    - A Python [dict] whose iteration order is observable is an insertion
      ordered association list ([dict]); a dict that is only ever indexed
      is a [gmap].
    - A call that may raise returns a [result]. *)

From Stdlib Require Import ZArith NArith Ascii Sorted.
From stdpp Require Import base option list strings pretty gmap.

Set Default Proof Using "Type".

(* ===================================================================== *)
(** * Python runtime fragments *)
(* ===================================================================== *)

Module Py.

(** The exceptions the modelled code can raise. *)
Inductive exn : Type :=
  | AttributeError            (* [None.group(0)] *)
  | KeyError (key : string)   (* [d[k]] on a missing key *)
  | OtherError (msg : string) (* raised by a collaborator *).

(** [str(exception)] *)
Definition exn_str (e : exn) : string :=
  match e with
  | AttributeError => "'NoneType' object has no attribute 'group'"
  | KeyError key => key
  | OtherError msg => msg
  end.

(** [repr(x)] *)
Class Repr (A : Type) := repr : A → string.
Global Instance repr_string : Repr string := λ s, "'" +:+ s +:+ "'".
Global Instance repr_nat : Repr nat := λ n, pretty n.

Inductive result (A : Type) : Type :=
  | Ok (a : A)
  | Raise (e : exn).
Global Arguments Ok {A} a.
Global Arguments Raise {A} e.

Definition bind {A B} (r : result A) (k : A → result B) : result B :=
  match r with
  | Ok a => k a
  | Raise e => Raise e
  end.

Definition bind_flip {A B} (k : A → result B) (r : result A) : result B :=
  bind r k.

Definition is_ok {A} (r : result A) : bool :=
  match r with Ok _ => true | Raise _ => false end.

(** ** Insertion-ordered dictionaries *)
Section dict.
Context {K V : Type} `{EqDecision K} `{Repr K}.

Definition dict : Type := list (K * V).

(** [d.get(k)] *)
Fixpoint dict_get (d : dict) (k : K) : option V :=
  match d with
  | [] => None
  | (k', v) :: d' => if decide (k' = k) then Some v else dict_get d' k
  end.

(** [d[k]] *)
Definition dict_getitem (d : dict) (k : K) : result V :=
  match dict_get d k with
  | Some v => Ok v
  | None => Raise (KeyError (repr k))
  end.

(** [d[k] = v]: an existing key keeps its position, a new key goes
    last. *)
Fixpoint dict_set (d : dict) (k : K) (v : V) : dict :=
  match d with
  | [] => [(k, v)]
  | (k', v') :: d' =>
      if decide (k' = k) then (k, v) :: d' else (k', v') :: dict_set d' k v
  end.

(** [k in d] *)
Definition dict_contains (d : dict) (k : K) : bool :=
  match dict_get d k with Some _ => true | None => false end.

Definition dict_keys (d : dict) : list K := d.*1.
Definition dict_values (d : dict) : list V := d.*2.
Definition dict_items (d : dict) : list (K * V) := d.

(** What every Python dict satisfies: keys are pairwise distinct. *)
Definition dict_wf (d : dict) : Prop := NoDup (dict_keys d).

(** [{key(x): val(x) for x in xs}] *)
Definition dict_comprehension {X} (key : X → K) (val : X → V)
    (xs : list X) : dict :=
  foldl (λ d x, dict_set d (key x) (val x)) [] xs.
End dict.
Global Arguments dict : clear implicits.

(** The distinct elements of a list, in the order of their first
    occurrence (the keys of [dict.fromkeys(l)]). *)
Definition first_seen {K} `{EqDecision K} (l : list K) : list K :=
  foldl (λ seen k, if decide (k ∈ seen) then seen else seen ++ [k]) [] l.

(** Truth value of a dict: empty is falsy. *)
Definition dict_truthy {K V} (d : dict K V) : bool :=
  match d with [] => false | _ => true end.

End Py.

Export Py.

Global Instance result_ret : MRet Py.result := @Py.Ok.
Global Instance result_bind : MBind Py.result := @Py.bind_flip.

(* ===================================================================== *)
(** * The regular expressions used by the program *)
(* ===================================================================== *)

Module Re.

Definition code (c : ascii) : N := N_of_ascii c.

(** [\d] *)
Definition is_digit (c : ascii) : bool :=
  (48 <=? code c)%N && (code c <=? 57)%N.

(** [\s]: 9-13, 28-32, 133 and 160. *)
Definition is_space (c : ascii) : bool :=
  ((9 <=? code c)%N && (code c <=? 13)%N)
  || ((28 <=? code c)%N && (code c <=? 32)%N)
  || (code c =? 133)%N || (code c =? 160)%N.

(** ASCII case folding. *)
Definition lower (c : ascii) : ascii :=
  if ((65 <=? code c)%N && (code c <=? 90)%N)
  then ascii_of_N (code c + 32) else c.

(** [re.search('^' + lit, s)] for a literal [lit]. *)
Fixpoint starts_with (lit s : string) : bool :=
  match lit, s with
  | EmptyString, _ => true
  | String a lit', String b s' =>
      bool_decide (a = b) && starts_with lit' s'
  | String _ _, EmptyString => false
  end.

(** [re.search('^' + lit, s, re.IGNORECASE)] for a literal [lit] made of
    ASCII letters. *)
Fixpoint starts_with_ignorecase (lit s : string) : bool :=
  match lit, s with
  | EmptyString, _ => true
  | String a lit', String b s' =>
      bool_decide (lower a = lower b) && starts_with_ignorecase lit' s'
  | String _ _, EmptyString => false
  end.

(** Greedy run of a character class: the consumed run and the rest. *)
Fixpoint span (cls : ascii → bool) (s : string) : string * string :=
  match s with
  | EmptyString => (EmptyString, EmptyString)
  | String c s' =>
      if cls c then let '(run, rest) := span cls s' in (String c run, rest)
      else (EmptyString, s)
  end.

(** [re.search] of one or more digits followed by any number of non-space
    characters: [None] when there is no match, otherwise [group(0)].  The
    match starts at the leftmost digit; the digit run is greedy and so is
    the non-space run after it. *)
Fixpoint search_digits_nonspace (s : string) : option string :=
  match s with
  | EmptyString => None
  | String c s' =>
      if is_digit c then
        let '(digits, rest) := span is_digit s in
        let '(tail, _) := span (λ x, negb (is_space x)) rest in
        Some (digits +:+ tail)
      else search_digits_nonspace s'
  end.

(** ** A backtracking matcher for the snapshot file-name pattern *)

(** The pattern atoms in use: a literal character, [.], and a capturing
    group around a greedy [.*]. *)
Inductive atom : Type :=
  | Char (c : ascii)
  | Dot
  | DotStarGroup.

(** [.] matches anything but a line feed. *)
Definition dot (c : ascii) : bool := negb (code c =? 10)%N.

(** Match a pattern at the start of a string, giving the captured groups.
    A greedy group first tries to take one more character and falls back
    to what follows it in the pattern. *)
Fixpoint match_here (p : list atom) : string → option (list string) :=
  match p with
  | [] => λ _, Some []
  | Char c :: p' => λ s,
      match s with
      | String a s' => if bool_decide (a = c) then match_here p' s' else None
      | EmptyString => None
      end
  | Dot :: p' => λ s,
      match s with
      | String a s' => if dot a then match_here p' s' else None
      | EmptyString => None
      end
  | DotStarGroup :: p' =>
      fix star (s : string) : option (list string) :=
        let longer :=
          match s with
          | String a s' =>
              if dot a then
                match star s' with
                | Some (g :: gs) => Some (String a g :: gs)
                | _ => None
                end
              else None
          | EmptyString => None
          end in
        match longer with
        | Some groups => Some groups
        | None =>
            match match_here p' s with
            | Some gs => Some (EmptyString :: gs)
            | None => None
            end
        end
  end.

(** The number of groups of a pattern. *)
Fixpoint group_count (p : list atom) : nat :=
  match p with
  | [] => 0
  | DotStarGroup :: p' => S (group_count p')
  | _ :: p' => group_count p'
  end.

(** [re.search]: the leftmost start position with a match. *)
Fixpoint search (p : list atom) (s : string) : option (list string) :=
  match match_here p s with
  | Some groups => Some groups
  | None =>
      match s with
      | String _ s' => search p s'
      | EmptyString => None
      end
  end.

(** ** String operations *)

Fixpoint map_chars (f : ascii → ascii) (s : string) : string :=
  match s with
  | EmptyString => EmptyString
  | String c s' => String (f c) (map_chars f s')
  end.

Fixpoint filter_chars (keep : ascii → bool) (s : string) : string :=
  match s with
  | EmptyString => EmptyString
  | String c s' =>
      if keep c then String c (filter_chars keep s') else filter_chars keep s'
  end.

(** [s[:n]] *)
Fixpoint take (n : nat) (s : string) : string :=
  match n, s with
  | S n', String c s' => String c (take n' s')
  | _, _ => EmptyString
  end.

(** [s[n:]] *)
Fixpoint drop (n : nat) (s : string) : string :=
  match n, s with
  | S n', String _ s' => drop n' s'
  | _, _ => s
  end.

(** ** Predicates used to state properties *)

Fixpoint all_chars (cls : ascii → bool) (s : string) : bool :=
  match s with
  | EmptyString => true
  | String c s' => cls c && all_chars cls s'
  end.

Definition non_digit (c : ascii) : bool := negb (is_digit c).
Definition non_space (c : ascii) : bool := negb (is_space c).

(** A numeric/slotted identifier such as [1/0/1]: it starts with a digit
    and holds no white space. *)
Definition is_identifier (s : string) : bool :=
  match s with
  | EmptyString => false
  | String d _ => is_digit d && all_chars non_space s
  end.

(** What may follow an identifier: nothing, or white space and more. *)
Definition is_break (s : string) : bool :=
  match s with
  | EmptyString => true
  | String w _ => is_space w
  end.

Definition lower_string (s : string) : string := map_chars lower s.

(** Two literals can both be a prefix of one string only if one is a
    prefix of the other. *)
Fixpoint prefix_compatible (a b : string) : bool :=
  match a, b with
  | String x a', String y b' => bool_decide (x = y) && prefix_compatible a' b'
  | _, _ => true
  end.

(** How often a character occurs in a string, and as a literal in a
    pattern. *)
Fixpoint count_char (c : ascii) (s : string) : nat :=
  match s with
  | EmptyString => 0
  | String a s' => (if bool_decide (a = c) then 1 else 0) + count_char c s'
  end.

Fixpoint count_atom (c : ascii) (p : list atom) : nat :=
  match p with
  | [] => 0
  | Char a :: p' => (if bool_decide (a = c) then 1 else 0) + count_atom c p'
  | _ :: p' => count_atom c p'
  end.

End Re.

(* ===================================================================== *)
(** * Logging and shared records *)
(* ===================================================================== *)

Module logging.
Inductive level : Type := DEBUG | INFO | WARNING | ERROR.

Global Instance level_eq_dec : EqDecision level.
Proof. solve_decision. Defined.
Definition record : Type := level * string.
Definition debug (msg : string) : record := (DEBUG, msg).
Definition info (msg : string) : record := (INFO, msg).
Definition warning (msg : string) : record := (WARNING, msg).
Definition error (msg : string) : record := (ERROR, msg).
End logging.

(** What one device reports about one MAC: the dict built in
    [create_task]. *)
Module Obs.
Record t : Type := {
  Hostname : string;
  IP_Address : string;
  Switch : string;
  Interface : string;
  Speed : string;
  Duplex : string;
  MAC_Address : string;
  Vendor : string;
  Vlan : string
}.
End Obs.

(** A consolidated endpoint: the dict built in [refactor_data] and stored
    in a snapshot. *)
Module Ep.
Record t : Type := {
  MAC_Address : string;
  Vendor : string;
  Hostname : string;
  IP_Address : string;
  Vlan : string;
  Switch : list string;
  Interface : list string;
  Speed : list string;
  Duplex : list string
}.
End Ep.

(* ===================================================================== *)
(** * workers.py: CreateEvent *)
(* ===================================================================== *)

Module CreateEvent.

Definition labels : list string :=
  ["Te"; "Gi"; "Fa"; "Eth"; "Lo"; "Vl"; "Two"; "Twe"].

(** The [for label in labels] loop of [normalize_iface]. *)
Fixpoint normalize_iface_loop (ls : list string) (iface : string)
    : result string :=
  match ls with
  | [] => Ok iface
  | label :: rest =>
      if Re.starts_with_ignorecase label iface then
        match Re.search_digits_nonspace iface with
        | Some port_id => Ok (label +:+ port_id)
        | None => Raise AttributeError
        end
      else normalize_iface_loop rest iface
  end.

Definition normalize_iface (iface : string) : result string :=
  normalize_iface_loop labels iface.

(** The names [normalize_iface] rewrites: those some label matches. *)
Definition recognized (iface : string) : bool :=
  existsb (λ label, Re.starts_with_ignorecase label iface) labels.

(** ** Data *)

(** Parsed command output: rows under a key column, each row a dict from
    column name to text. *)
Definition table : Type := dict string (dict string string).

(** The device session ([netcore.GenericHandler]): its prompt and what
    [sendCommand(cmd, autoParse=True, key)] returns. *)
Record Handler : Type := {
  base_prompt : string;
  sendCommand : string → string → result table
}.

(** A file of the modelled file system. *)
Inductive content : Type :=
  | Text (s : string)
  | OuiJson (oui : gmap string string)
  | SnapshotJson (endpoints : dict nat Ep.t).

Record file : Type := { mtime : Z; body : content }.

(** What the worker reads and writes outside itself.  Times are in
    microseconds. *)
Record world : Type := {
  files : gmap string file;
  now : Z;
  log : list logging.record;
  emitted : list (string * string * string)   (* timestamp, type, name *)
}.

Definition set_log (w : world) (l : list logging.record) : world :=
  {| files := files w; now := now w; log := l; emitted := emitted w |}.

Definition set_files (w : world) (f : gmap string file) : world :=
  {| files := f; now := now w; log := log w; emitted := emitted w |}.

Definition emit (w : world) (s : string * string * string) : world :=
  {| files := files w; now := now w; log := log w;
     emitted := emitted w ++ [s] |}.

Definition logging_info (w : world) (msg : string) : world :=
  set_log w (log w ++ [logging.info msg]).
Definition logging_error (w : world) (msg : string) : world :=
  set_log w (log w ++ [logging.error msg]).

(** Two worlds that differ in their log at most. *)
Definition log_only (w w' : world) : Prop :=
  files w' = files w ∧ now w' = now w ∧ emitted w' = emitted w.

(** The log of the second world is that of the first with more records
    at its end. *)
Definition log_extends (w w' : world) : Prop :=
  ∃ records, log w' = log w ++ records.

(** [self.data['endpoints']] while devices are being collected: device
    to the endpoints seen on it. *)
Abbreviation collected := (gmap string (dict string Obs.t)).

(** ** [refactor_data] *)

Record refactor_state : Type := {
  ep_idx : nat;
  refactored : dict nat Ep.t;
  mac_to_index : dict string nat
}.

Definition refactor_init : refactor_state :=
  {| ep_idx := 0; refactored := []; mac_to_index := [] |}.

(** The four [append] calls on [refactored[idx]]. *)
Definition append_observation (e : Ep.t) (prop : Obs.t) : Ep.t :=
  {| Ep.MAC_Address := Ep.MAC_Address e;
     Ep.Vendor := Ep.Vendor e;
     Ep.Hostname := Ep.Hostname e;
     Ep.IP_Address := Ep.IP_Address e;
     Ep.Vlan := Ep.Vlan e;
     Ep.Switch := Ep.Switch e ++ [Obs.Switch prop];
     Ep.Interface := Ep.Interface e ++ [Obs.Interface prop];
     Ep.Speed := Ep.Speed e ++ [Obs.Speed prop];
     Ep.Duplex := Ep.Duplex e ++ [Obs.Duplex prop] |}.

(** The record built on the first sight of a MAC. *)
Definition first_observation (prop : Obs.t) : Ep.t :=
  {| Ep.MAC_Address := Obs.MAC_Address prop;
     Ep.Vendor := Obs.Vendor prop;
     Ep.Hostname := Obs.Hostname prop;
     Ep.IP_Address := Obs.IP_Address prop;
     Ep.Vlan := Obs.Vlan prop;
     Ep.Switch := [Obs.Switch prop];
     Ep.Interface := [Obs.Interface prop];
     Ep.Speed := [Obs.Speed prop];
     Ep.Duplex := [Obs.Duplex prop] |}.

(** One iteration of the inner loop. *)
Definition refactor_step (st : refactor_state) (mac : string) (prop : Obs.t)
    : result refactor_state :=
  if dict_contains (mac_to_index st) mac then
    idx ← dict_getitem (mac_to_index st) mac;
    e ← dict_getitem (refactored st) idx;
    Ok {| ep_idx := ep_idx st;
          refactored := dict_set (refactored st) idx (append_observation e prop);
          mac_to_index := mac_to_index st |}
  else
    let ep_idx' := S (ep_idx st) in
    Ok {| ep_idx := ep_idx';
          mac_to_index := dict_set (mac_to_index st) mac ep_idx';
          refactored :=
            dict_set (refactored st) ep_idx' (first_observation prop) |}.

(** [for mac, prop in ....items()] *)
Fixpoint refactor_items (items : list (string * Obs.t)) (st : refactor_state)
    : result refactor_state :=
  match items with
  | [] => Ok st
  | (mac, prop) :: rest =>
      st' ← refactor_step st mac prop; refactor_items rest st'
  end.

(** [for device in self.devices], with
    [self.data['endpoints'].get(device, {})]. *)
Fixpoint refactor_devices (data : collected) (devices : list string)
    (st : refactor_state) : result refactor_state :=
  match devices with
  | [] => Ok st
  | device :: rest =>
      st' ← refactor_items (dict_items (default [] (data !! device))) st;
      refactor_devices data rest st'
  end.

(** The loops of [refactor_data], with the local variables they leave. *)
Definition refactor_loop (devices : list string) (data : collected)
    : result refactor_state :=
  refactor_devices data devices refactor_init.

(** [refactor_data]: the new value of [self.data['endpoints']]. *)
Definition refactor_data (devices : list string) (data : collected)
    : result (dict nat Ep.t) :=
  st ← refactor_loop devices data; Ok (refactored st).

(** What [device] reports about [mac], if anything. *)
Definition reported (data : collected) (mac device : string)
    : option Obs.t :=
  dict_get (default [] (data !! device)) mac.

(** The entries of the device list that report [mac], in list order. *)
Definition reporters (data : collected) (devices : list string)
    (mac : string) : list string :=
  filter (λ device, is_Some (reported data mac device)) devices.

(** The collected data is made of Python dicts: no device holds a MAC
    twice. *)
Definition collected_wf (data : collected) : Prop :=
  map_Forall (λ _ eps, dict_wf eps) data.

(** Every item the two loops visit, in the order they visit it. *)
Definition all_items (data : collected) (devices : list string)
    : list (string * Obs.t) :=
  devices ≫= λ device, dict_items (default [] (data !! device)).

(** The observations of [mac] among visited items. *)
Definition sightings (mac : string) (items : list (string * Obs.t))
    : list Obs.t :=
  (filter (λ item, item.1 = mac) items).*2.

(** The endpoint that a non-empty run of observations adds up to. *)
Definition consolidate (props : list Obs.t) : option Ep.t :=
  match props with
  | [] => None
  | first :: _ =>
      Some {| Ep.MAC_Address := Obs.MAC_Address first;
              Ep.Vendor := Obs.Vendor first;
              Ep.Hostname := Obs.Hostname first;
              Ep.IP_Address := Obs.IP_Address first;
              Ep.Vlan := Obs.Vlan first;
              Ep.Switch := Obs.Switch <$> props;
              Ep.Interface := Obs.Interface <$> props;
              Ep.Speed := Obs.Speed <$> props;
              Ep.Duplex := Obs.Duplex <$> props |}
  end.

(** The invariant of the two loops, after the items [seen]: a MAC has an
    index exactly when it was seen, the index is one of [1..ep_idx], the
    record under it adds up the MAC's observations, and no two MACs share
    an index. *)
Definition refactor_inv (seen : list (string * Obs.t))
    (st : refactor_state) : Prop :=
  (∀ mac, sightings mac seen = [] → dict_get (mac_to_index st) mac = None)
  ∧ (∀ mac, sightings mac seen ≠ [] →
       ∃ idx, dict_get (mac_to_index st) mac = Some idx
              ∧ 1 ≤ idx ≤ ep_idx st
              ∧ dict_get (refactored st) idx
                = consolidate (sightings mac seen))
  ∧ (∀ mac1 mac2 idx,
       dict_get (mac_to_index st) mac1 = Some idx →
       dict_get (mac_to_index st) mac2 = Some idx → mac1 = mac2).

(** An item as [create_task] stores it: the observation names the MAC it
    is stored under. *)
Definition keyed (item : string * Obs.t) : Prop :=
  Obs.MAC_Address item.2 = item.1.

(** What the loops of [refactor_data] keep about the numbering, after the
    items [seen]: the MACs are numbered from 1 in the order of their first
    sight, the records are stored under these numbers in that order, and
    (for items that name their MAC) record [i] is the one of MAC [i]. *)
Definition refactor_ids_inv (seen : list (string * Obs.t))
    (st : refactor_state) : Prop :=
  let macs := first_seen seen.*1 in
  mac_to_index st = zip macs (seq 1 (length macs))
  ∧ dict_keys (refactored st) = seq 1 (length macs)
  ∧ ep_idx st = length macs
  ∧ (Forall keyed seen →
     Ep.MAC_Address <$> dict_values (refactored st) = macs).

(** ** Collaborators *)

(** What the worker consumes from outside this repository: the device
    session layer, name resolution, HTTP, the text scanning of the OUI
    registry, the clock format and path handling. *)
Class Platform : Type := {
  (** [netcore.GenericHandler(hostname=device, ...)] with the credentials
      and proxy of the form: a session, or the exception it raised. *)
  GenericHandler : string → result Handler;
  (** [socket.getfqdn] *)
  getfqdn : string → string;
  (** [requests.get(url).text] *)
  requests_get : string → result string;
  (** [str.splitlines] *)
  splitlines : string → list string;
  (** [re.search] of the registry line pattern (a word, [(base 16)], the
      rest), giving groups 1 and 2. *)
  search_oui_line : string → option (string * string);
  (** [strftime('%Y-%m-%d_%H.%M')] *)
  strftime : Z → string;
  (** [os.path.join] *)
  path_join : string → string → string;
  (** [__file__] and its directory *)
  module_file : string;
  module_dir : string;
  (** [self.form.output_dir] *)
  output_dir : string;
  (** [os.path.exists] and [os.mkdir] on a directory, and
      [open(path, 'w')] on a file to create: what the operating system
      answers while the worker runs (the directories are not part of the
      world; a file cannot be created in a directory that does not
      exist). *)
  path_exists : string → bool;
  mkdir : string → result unit;
  open_write : string → result unit
}.

Section worker.
Context `{Platform}.

(** ** [load_mac_vendor] and [get_mac_vendor] *)

Definition vendor_file : string :=
  path_join module_dir "macvendor_registry.json".

Definition oui_url : string := "https://standards-oui.ieee.org/oui/oui.txt".

Definition microseconds_per_day : Z := 86400000000.

(** [(datetime.now() - datetime.fromtimestamp(t)).days] *)
Definition days_since (w : world) (t : Z) : Z :=
  Z.div (now w - t) microseconds_per_day.

(** [os.path.getmtime(path)] *)
Definition getmtime (w : world) (path : string) : result Z :=
  match files w !! path with
  | Some f => Ok (mtime f)
  | None => Raise (OtherError "FileNotFoundError")
  end.

(** The condition of the [if] in [load_mac_vendor]: the cache file is
    missing, or the module's own source file is more than 90 days old. *)
Definition refresh_condition (w : world) : result bool :=
  if bool_decide (files w !! vendor_file = None) then Ok true
  else t ← getmtime w module_file; Ok (bool_decide (90 < days_since w t)%Z).

(** The loop over the lines of the registry text. *)
Definition parse_oui (oui_text : string) : gmap string string :=
  foldl (λ oui_data line,
           match search_oui_line line with
           | Some (prefix, vendor) => <[prefix := vendor]> oui_data
           | None => oui_data
           end) ∅ (splitlines oui_text).

(** [json.load(open(vendor_file))] *)
Definition load_vendor_file (w : world) : result (gmap string string) :=
  match files w !! vendor_file with
  | Some f =>
      match body f with
      | OuiJson oui => Ok oui
      | _ => Raise (OtherError "JSONDecodeError")
      end
  | None => Raise (OtherError "FileNotFoundError")
  end.

(** [load_mac_vendor]: the new [self.oui_data] and the world it leaves. *)
Definition load_mac_vendor (w : world) : result (gmap string string * world) :=
  stale ← refresh_condition w;
  w' ← (if stale : bool then
          let w1 := logging_info w "Fetching latest OUI data from IEEE..." in
          oui_text ← requests_get oui_url;
          Ok (set_files w1
                (<[vendor_file := {| mtime := now w1;
                                     body := OuiJson (parse_oui oui_text) |}]>
                   (files w1)))
        else Ok w);
  oui_data ← load_vendor_file w';
  Ok (oui_data, w').

Definition is_separator (c : ascii) : bool :=
  bool_decide (c = "."%char) || bool_decide (c = "-"%char)
  || bool_decide (c = ":"%char).

(** [str.upper()] on one character: the code points it becomes.  The
    ASCII letters and the Latin-1 letters from 224 to 254 (but 247, the
    division sign) move down by 32; the sharp s becomes two letters; the
    micro sign and the y with diaeresis leave the range of the texts. *)
Definition upper_codes (c : ascii) : list N :=
  let n := Re.code c in
  if ((97 <=? n) && (n <=? 122))%N then [(n - 32)%N]
  else if (n =? 181)%N then [924%N]
  else if (n =? 223)%N then [83%N; 83%N]
  else if ((224 <=? n) && (n <=? 254) && negb (n =? 247))%N
  then [(n - 32)%N]
  else if (n =? 255)%N then [376%N]
  else [n].

(** [s.upper()], as code points. *)
Fixpoint upper_string (s : string) : list N :=
  match s with
  | EmptyString => []
  | String c s' => upper_codes c ++ upper_string s'
  end.

(** [re.sub(r'[.\-:]', '', mac).upper()[:6]] *)
Definition oui_prefix (mac : string) : list N :=
  take 6 (upper_string (Re.filter_chars (λ c, negb (is_separator c)) mac)).

(** The text with the given code points, if all of them are in the range
    of the texts. *)
Definition text_of_codes (codes : list N) : option string :=
  if forallb (λ n, n <? 256)%N codes
  then Some (String.string_of_list_ascii (ascii_of_N <$> codes))
  else None.

(** [self.oui_data.get(normalized, 'Unknown')].  The keys of the registry
    are texts of the range, so a key with a code point outside of it is
    not found. *)
Definition get_mac_vendor (oui_data : gmap string string) (mac : string)
    : string :=
  match text_of_codes (oui_prefix mac) with
  | Some normalized => default "Unknown" (oui_data !! normalized)
  | None => "Unknown"
  end.

(** ** [create_task] *)

(** [re.search(r'^(Te|Gi|Fa|Eth|Two|Twe)', ports)] *)
Definition physical_port (ports : string) : bool :=
  existsb (λ prefix, Re.starts_with prefix ports)
    ["Te"; "Gi"; "Fa"; "Eth"; "Two"; "Twe"].

(** [arp_data[mac]['ip_address'] if arp_data.get(mac) else 'Unknown'] *)
Definition arp_address (arp_data : table) (mac : string) : result (option string) :=
  match dict_get arp_data mac with
  | Some row =>
      if dict_truthy row then
        row' ← dict_getitem arp_data mac;
        ip ← dict_getitem row' "ip_address"; Ok (Some ip)
      else Ok None
  | None => Ok None
  end.

Definition set_speed_duplex (prop : Obs.t) (speed duplex : string) : Obs.t :=
  {| Obs.Hostname := Obs.Hostname prop; Obs.IP_Address := Obs.IP_Address prop;
     Obs.Switch := Obs.Switch prop; Obs.Interface := Obs.Interface prop;
     Obs.Speed := speed; Obs.Duplex := duplex;
     Obs.MAC_Address := Obs.MAC_Address prop; Obs.Vendor := Obs.Vendor prop;
     Obs.Vlan := Obs.Vlan prop |}.

(** The loop over [iface_data.items()]: each interface whose normalized
    name equals the normalized port overwrites Speed and Duplex of the
    row. *)
Fixpoint match_interfaces (ports : string)
    (items : list (string * dict string string)) (prop : Obs.t)
    : result Obs.t :=
  match items with
  | [] => Ok prop
  | (iface, iface_prop) :: rest =>
      a ← normalize_iface iface;
      b ← normalize_iface ports;
      if decide (a = b) then
        speed ← dict_getitem iface_prop "speed";
        duplex ← dict_getitem iface_prop "duplex";
        match_interfaces ports rest (set_speed_duplex prop speed duplex)
      else match_interfaces ports rest prop
  end.

(** The loop over [mac_data.items()].  The row is stored under its MAC
    before the inner loop updates it in place; storing the updated row
    gives the same dict. *)
Fixpoint collect_endpoints (oui_data : gmap string string)
    (handler : Handler) (arp_data iface_data : table)
    (items : list (string * dict string string))
    (endpoint_data : dict string Obs.t) : result (dict string Obs.t) :=
  match items with
  | [] => Ok endpoint_data
  | (mac, mac_prop) :: rest =>
      ports ← dict_getitem mac_prop "ports";
      if negb (physical_port ports) then
        collect_endpoints oui_data handler arp_data iface_data rest
          endpoint_data
      else
        ip ← arp_address arp_data mac;
        let hostname := from_option getfqdn "Unknown" ip in
        let ip_address := default "Unknown" ip in
        let vendor := get_mac_vendor oui_data mac in
        vlan ← dict_getitem mac_prop "vlan_id";
        let prop :=
          {| Obs.Hostname := hostname; Obs.IP_Address := ip_address;
             Obs.Switch := base_prompt handler; Obs.Interface := ports;
             Obs.Speed := ""; Obs.Duplex := "";
             Obs.MAC_Address := mac; Obs.Vendor := vendor;
             Obs.Vlan := vlan |} in
        prop' ← match_interfaces ports (dict_items iface_data) prop;
        collect_endpoints oui_data handler arp_data iface_data rest
          (dict_set endpoint_data mac prop')
  end.

(** The three [sendCommand] calls. *)
Definition query_tables (handler : Handler) : result (table * table * table) :=
  mac_data ← sendCommand handler "show mac address" "mac_address";
  arp_data ← sendCommand handler "show ip arp" "mac_address";
  iface_data ← sendCommand handler "show interface status" "interface";
  Ok (mac_data, arp_data, iface_data).

(** [create_task]: the shared state it leaves, and the exception it ends
    with if any. *)
Definition create_task (oui_data : gmap string string) (device : string)
    (st : collected * world) : (collected * world) * option exn :=
  let '(data, w) := st in
  let w := logging_info w ("Connecting to " +:+ device +:+ "...") in
  match GenericHandler device with
  | Raise _ =>
      (* [except Exception]: log and return *)
      ((data, logging_error w ("Connection failed to " +:+ device)), None)
  | Ok handler =>
      let w := logging_info w ("Connection established to " +:+ device) in
      let w := logging_info w
                 ("Capturing and parsing data for " +:+ device) in
      match query_tables handler with
      | Raise e => ((data, w), Some e)
      | Ok (mac_data, arp_data, iface_data) =>
          let w := logging_info w
                     ("Processing endpoint data for " +:+ device) in
          match collect_endpoints oui_data handler arp_data iface_data
                  (dict_items mac_data) [] with
          | Raise e => ((data, w), Some e)
          | Ok endpoint_data => ((<[device := endpoint_data]> data, w), None)
          end
      end
  end.

(** What the task of a device stores under the device, if it gets that
    far. *)
Definition task_endpoints (oui_data : gmap string string) (device : string)
    : option (dict string Obs.t) :=
  match GenericHandler device with
  | Raise _ => None
  | Ok handler =>
      match query_tables handler with
      | Raise _ => None
      | Ok (mac_data, arp_data, iface_data) =>
          match collect_endpoints oui_data handler arp_data iface_data
                  (dict_items mac_data) [] with
          | Raise _ => None
          | Ok endpoint_data => Some endpoint_data
          end
      end
  end.

(** ** [thread_executor] *)

(** One task of the pool runs to completion; its future keeps the
    exception. *)
Definition run_task (oui_data : gmap string string)
    (acc : (collected * world) * gmap string (option exn)) (device : string)
    : (collected * world) * gmap string (option exn) :=
  let '(st, exc) := create_task oui_data device acc.1 in
  (st, <[device := exc]> acc.2).

(** [thread_executor].  The tasks submitted for [devices] finish in the
    order [schedule] (some arrangement of [devices]); each one is taken as
    one step on the shared state.  The second loop then walks the
    [futures] dict, which is keyed by device in submission order. *)
Definition thread_executor (oui_data : gmap string string)
    (schedule devices : list string) (st : collected * world)
    : collected * world :=
  let '(st', exceptions) := foldl (run_task oui_data) (st, ∅) schedule in
  let futures : dict string (option exn) :=
    dict_comprehension id (λ device, exceptions !! device ≫= id) devices in
  foldl (λ '(data, w) '(device, exception),
           match exception with
           | Some e =>
               (data, logging_error w
                        ("Exception for " +:+ device +:+ ": " +:+ exn_str e))
           | None => (data, w)
           end) st' (dict_items futures).

(** ** [save_snapshot] and [run] *)

Definition snapshot_filename (type name timestamp : string) : string :=
  path_join (path_join output_dir "Snapshots")
    ("[" +:+ type +:+ "]_[" +:+ name +:+ "]_[" +:+ timestamp +:+ "].json").

(** What the operating system answers to the file operations of
    [save_snapshot] at time [t]: the directory is made if it is missing,
    then the file is opened for writing. *)
Definition snapshot_access (type name : string) (t : Z) : result unit :=
  let snapshots_path := path_join output_dir "Snapshots" in
  _ ← (if path_exists snapshots_path then Ok () else mkdir snapshots_path);
  open_write (snapshot_filename type name (strftime t)).

(** The world after the file is written and [add_snapshot_signal] is
    emitted. *)
Definition snapshot_saved (type name : string) (endpoints : dict nat Ep.t)
    (w : world) : world :=
  let timestamp := strftime (now w) in
  let filename := snapshot_filename type name timestamp in
  let w := set_files w (<[filename := {| mtime := now w;
                                        body := SnapshotJson endpoints |}]>
                          (files w)) in
  emit w (timestamp, type, name).

(** [save_snapshot]: make the directory, write the file and emit
    [add_snapshot_signal]; an exception of [os.mkdir] or [open] ends
    it. *)
Definition save_snapshot (type name : string) (endpoints : dict nat Ep.t)
    (w : world) : result world :=
  let w := logging_info w "Saving snapshot to disk..." in
  let snapshots_path := path_join output_dir "Snapshots" in
  _ ← (if path_exists snapshots_path then Ok () else mkdir snapshots_path);
  let timestamp := strftime (now w) in
  let filename :=
    path_join snapshots_path
      ("[" +:+ type +:+ "]_[" +:+ name +:+ "]_[" +:+ timestamp +:+ "].json") in
  _ ← open_write filename;
  let w := set_files w (<[filename := {| mtime := now w;
                                        body := SnapshotJson endpoints |}]>
                          (files w)) in
  Ok (emit w (timestamp, type, name)).

(** [list(filter(None, lines))] *)
Definition nonempty_lines (lines : list string) : list string :=
  filter (λ line, line ≠ "") lines.

(** [run], for the name, type and device lines of the form. *)
Definition run (name type : string) (lines schedule : list string)
    (w : world) : result world :=
  let devices := nonempty_lines lines in
  let w := logging_info w "Snapshot worker started." in
  '(oui_data, w) ← load_mac_vendor w;
  let '(data, w) := thread_executor oui_data schedule devices (∅, w) in
  let w := logging_info w "Refactoring snapshot data..." in
  endpoints ← refactor_data devices data;
  w ← save_snapshot type name endpoints w;
  Ok (logging_info w "Snapshot worker finished.").

(** What the tasks of the listed devices store, each on its own: the
    endpoints of every device whose task gets that far, under the
    device. *)
Definition pool_data (oui_data : gmap string string)
    (devices : list string) : collected :=
  foldr (λ device data,
           match task_endpoints oui_data device with
           | Some endpoint_data => <[device := endpoint_data]> data
           | None => data
           end) ∅ devices.

(** The exception the task of a device ends with, if any: a failed
    command or a failure of the endpoint loop (a failed connection is
    caught). *)
Definition task_exception (oui_data : gmap string string) (device : string)
    : option exn :=
  match GenericHandler device with
  | Raise _ => None
  | Ok handler =>
      match query_tables handler with
      | Raise e => Some e
      | Ok (mac_data, arp_data, iface_data) =>
          match collect_endpoints oui_data handler arp_data iface_data
                  (dict_items mac_data) [] with
          | Raise e => Some e
          | Ok _ => None
          end
      end
  end.

(** A row of the MAC table that the endpoint loop keeps: its port is a
    physical one. *)
Definition physical_row (item : string * dict string string) : bool :=
  match dict_get item.2 "ports" with
  | Some ports => physical_port ports
  | None => false
  end.

(** What the endpoint loop stores for a row of the MAC table with a
    physical port: the observation is under its MAC and names it, the
    prompt of the device, the port and the VLAN of the row, the vendor of
    the MAC, the address of the MAC in the ARP table with its host name
    (or [Unknown] for both), and the Speed and Duplex that the loop over
    the interfaces leaves. *)
Definition collected_item (oui_data : gmap string string)
    (handler : Handler) (arp_data iface_data mac_data : table)
    (item : string * Obs.t) : Prop :=
  keyed item
  ∧ ∃ mac_prop ports vlan ip,
      (item.1, mac_prop) ∈ dict_items mac_data
      ∧ dict_get mac_prop "ports" = Some ports
      ∧ physical_port ports = true
      ∧ dict_get mac_prop "vlan_id" = Some vlan
      ∧ arp_address arp_data item.1 = Ok ip
      ∧ Obs.Switch item.2 = base_prompt handler
      ∧ Obs.Interface item.2 = ports
      ∧ Obs.Vlan item.2 = vlan
      ∧ Obs.Vendor item.2 = get_mac_vendor oui_data item.1
      ∧ Obs.IP_Address item.2 = default "Unknown" ip
      ∧ Obs.Hostname item.2 = from_option getfqdn "Unknown" ip
      ∧ match_interfaces ports (dict_items iface_data)
          (set_speed_duplex item.2 "" "")
        = Ok item.2.

End worker.

End CreateEvent.

(* ===================================================================== *)
(** * workers.py: CompareEvent *)
(* ===================================================================== *)

Module CompareEvent.

(** The keys of [self.cell_format]; [cell_format] gives the style dict
    stored under each. *)
Inductive format : Type := ftNormal | ftBad | ftGood | ftInfo.

Definition cell_format (f : format) : dict string string :=
  match f with
  | ftNormal => [("font_color", "#000000")]
  | ftBad => [("bg_color", "#FFC7CE"); ("font_color", "#9C0006")]
  | ftGood => [("bg_color", "#C6EFCE"); ("font_color", "#006100")]
  | ftInfo => [("bg_color", "#FFEB9C"); ("font_color", "#9C6500")]
  end.

(** What a cell holds: text, or the list of a multi-valued attribute. *)
Inductive cell_value : Type :=
  | Str (s : string)
  | Strs (l : list string).

Global Instance cell_value_eq_dec : EqDecision cell_value.
Proof. solve_decision. Defined.

Record cell : Type := { value : cell_value; cellFormat : format }.

(** One entry of [self.compare_data]. *)
Record row : Type := {
  Address : cell;
  Observation : cell;
  Vendor : cell;
  Pre_Device : cell;
  Pre_Interface : cell;
  Pre_Speed : cell;
  Pre_Duplex : cell;
  Pre_Vlan : cell;
  Pre_IP : cell;
  Pre_Hostname : cell;
  Post_Device : cell;
  Post_Interface : cell;
  Post_Speed : cell;
  Post_Duplex : cell;
  Post_Vlan : cell;
  Post_IP : cell;
  Post_Hostname : cell
}.

Definition normal (v : cell_value) : cell :=
  {| value := v; cellFormat := ftNormal |}.
Definition bad (v : cell_value) : cell :=
  {| value := v; cellFormat := ftBad |}.

(** [get_mac_data], for one snapshot: its endpoints under their MAC. *)
Definition rekey (snapshot_data : dict string Ep.t) : dict string Ep.t :=
  dict_comprehension Ep.MAC_Address id (dict_values snapshot_data).

Definition get_mac_data (pre_snapshot_data post_snapshot_data : dict string Ep.t)
    : dict string Ep.t * dict string Ep.t :=
  (rekey pre_snapshot_data, rekey post_snapshot_data).

(** [match_attribute] *)
Definition match_attribute (pre post : cell_value) : cell :=
  let cell_style := if decide (pre = post) then ftNormal else ftBad in
  {| value := post; cellFormat := cell_style |}.

(** The body of the first loop: the row of a MAC of the pre-snapshot.
    [post] is an endpoint dict, never empty, so [if post] asks whether the
    MAC is in the post-snapshot. *)
Definition pre_row (post_snapshot_data : dict string Ep.t) (mac : string)
    (pre : Ep.t) : row :=
  let post := dict_get post_snapshot_data mac in
  let observation :=
    match post with
    | Some _ => {| value := Str "MAC Learnt"; cellFormat := ftGood |}
    | None => {| value := Str "MAC Not Learnt"; cellFormat := ftBad |}
    end in
  let r :=
    {| Address := normal (Str mac);
       Observation := observation;
       Vendor := normal (Str (Ep.Vendor pre));
       Pre_Device := normal (Strs (Ep.Switch pre));
       Pre_Interface := normal (Strs (Ep.Interface pre));
       Pre_Speed := normal (Strs (Ep.Speed pre));
       Pre_Duplex := normal (Strs (Ep.Duplex pre));
       Pre_Vlan := normal (Str (Ep.Vlan pre));
       Pre_IP := normal (Str (Ep.IP_Address pre));
       Pre_Hostname := normal (Str (Ep.Hostname pre));
       Post_Device := bad (Str "???");
       Post_Interface := bad (Str "???");
       Post_Speed := bad (Str "???");
       Post_Duplex := bad (Str "???");
       Post_Vlan := bad (Str "???");
       Post_IP := bad (Str "???");
       Post_Hostname := bad (Str "???") |} in
  match post with
  | Some post =>
      (* [self.compare_data[mac].update(...)] *)
      {| Address := Address r; Observation := Observation r;
         Vendor := Vendor r;
         Pre_Device := Pre_Device r; Pre_Interface := Pre_Interface r;
         Pre_Speed := Pre_Speed r; Pre_Duplex := Pre_Duplex r;
         Pre_Vlan := Pre_Vlan r; Pre_IP := Pre_IP r;
         Pre_Hostname := Pre_Hostname r;
         Post_Device := normal (Strs (Ep.Switch post));
         Post_Interface := normal (Strs (Ep.Interface post));
         Post_Speed :=
           match_attribute (Strs (Ep.Speed pre)) (Strs (Ep.Speed post));
         Post_Duplex :=
           match_attribute (Strs (Ep.Duplex pre)) (Strs (Ep.Duplex post));
         Post_Vlan := match_attribute (Str (Ep.Vlan pre)) (Str (Ep.Vlan post));
         Post_IP :=
           match_attribute (Str (Ep.IP_Address pre)) (Str (Ep.IP_Address post));
         Post_Hostname :=
           match_attribute (Str (Ep.Hostname pre)) (Str (Ep.Hostname post)) |}
  | None => r
  end.

(** The body of the second loop: the row of a MAC new in the
    post-snapshot. *)
Definition post_row (mac : string) (post : Ep.t) : row :=
  {| Address := normal (Str mac);
     Observation := {| value := Str "New MAC"; cellFormat := ftInfo |};
     Vendor := normal (Str (Ep.Vendor post));
     Pre_Device := normal (Str "???");
     Pre_Interface := normal (Str "???");
     Pre_Speed := normal (Str "???");
     Pre_Duplex := normal (Str "???");
     Pre_Vlan := normal (Str "???");
     Pre_IP := normal (Str "???");
     Pre_Hostname := normal (Str "???");
     Post_Device := normal (Strs (Ep.Switch post));
     Post_Interface := normal (Strs (Ep.Interface post));
     Post_Speed := normal (Strs (Ep.Speed post));
     Post_Duplex := normal (Strs (Ep.Duplex post));
     Post_Vlan := normal (Str (Ep.Vlan post));
     Post_IP := normal (Str (Ep.IP_Address post));
     Post_Hostname := normal (Str (Ep.Hostname post)) |}.

(** [compare_snapshots]: the final [self.compare_data]. *)
Definition compare_snapshots (pre_snapshot_data post_snapshot_data : dict string Ep.t)
    : dict string row :=
  let compare_data :=
    foldl (λ compare_data '(mac, pre),
             dict_set compare_data mac (pre_row post_snapshot_data mac pre))
      [] (dict_items pre_snapshot_data) in
  foldl (λ compare_data '(mac, post),
           if negb (dict_contains pre_snapshot_data mac)
           then dict_set compare_data mac (post_row mac post)
           else compare_data)
    compare_data (dict_items post_snapshot_data).

(** The seven Pre cells and the seven Post cells of a row, in column
    order. *)
Definition pre_cells (r : row) : list cell :=
  [Pre_Device r; Pre_Interface r; Pre_Speed r; Pre_Duplex r; Pre_Vlan r;
   Pre_IP r; Pre_Hostname r].

Definition post_cells (r : row) : list cell :=
  [Post_Device r; Post_Interface r; Post_Speed r; Post_Duplex r; Post_Vlan r;
   Post_IP r; Post_Hostname r].

(** The seven attribute values of an endpoint, in column order. *)
Definition attribute_values (e : Ep.t) : list cell_value :=
  [Strs (Ep.Switch e); Strs (Ep.Interface e); Strs (Ep.Speed e);
   Strs (Ep.Duplex e); Str (Ep.Vlan e); Str (Ep.IP_Address e);
   Str (Ep.Hostname e)].

(** The three lifecycle classes, as the text of the Observation cell. *)
Definition observation_of (in_pre in_post : bool) : cell_value :=
  match in_pre, in_post with
  | true, true => Str "MAC Learnt"
  | true, false => Str "MAC Not Learnt"
  | false, _ => Str "New MAC"
  end.

End CompareEvent.

(* ===================================================================== *)
(** * ui.py: Form *)
(* ===================================================================== *)

Module Form.

(** The slot dict handed to [add_snapshot]. *)
Record snapshot : Type := { timestamp : string; type : string; name : string }.

(** The part of the form the scan touches: the rows of the snapshots
    table (name, type, timestamp), the row counter and the log. *)
Record form : Type := {
  snapshots_table : list (string * string * string);
  snapshots_table_row : nat;
  log : list logging.record
}.

Definition logging_debug (f : form) (msg : string) : form :=
  {| snapshots_table := snapshots_table f;
     snapshots_table_row := snapshots_table_row f;
     log := log f ++ [logging.debug msg] |}.

(** [add_snapshot]: a new last row with the three items. *)
Definition add_snapshot (slot : snapshot) (f : form) : form :=
  logging_debug
    {| snapshots_table_row := S (snapshots_table_row f);
       snapshots_table :=
         snapshots_table f ++ [(name slot, type slot, timestamp slot)];
       log := log f |}
    ("Snapshot added: " +:+ name slot +:+ " - " +:+ type slot +:+ " - "
       +:+ timestamp slot).

(** The file-name pattern: three bracketed groups joined by underscores,
    any character, then [json]. *)
Definition snapshot_pattern : list Re.atom :=
  [Re.Char "["; Re.DotStarGroup; Re.Char "]"; Re.Char "_";
   Re.Char "["; Re.DotStarGroup; Re.Char "]"; Re.Char "_";
   Re.Char "["; Re.DotStarGroup; Re.Char "]";
   Re.Dot; Re.Char "j"; Re.Char "s"; Re.Char "o"; Re.Char "n"]%char.

(** The snapshot a file name stands for, when the pattern matches. *)
Definition snapshot_of_file (file : string) : option snapshot :=
  match Re.search snapshot_pattern file with
  | Some [g1; g2; g3] => Some {| timestamp := g3; type := g1; name := g2 |}
  | _ => None
  end.

(** The [try] block of the loop body. *)
Definition scan_file (file : string) (f : form) : result form :=
  match snapshot_of_file file with
  | Some slot => Ok (add_snapshot slot f)
  | None => Ok f
  end.

(** One iteration: the [try] block and its [except Exception]. *)
Definition scan_step (f : form) (file : string) : form :=
  match scan_file file f with
  | Ok f' => f'
  | Raise e =>
      logging_debug f ("Unable to add snapshot from file: " +:+ file
                         +:+ " " +:+ exn_str e)
  end.

(** [scan_snapshots]: [listing] is [os.listdir(snapshots_path)], or [None]
    when the directory does not exist. *)
Definition scan_snapshots (snapshots_path : string)
    (listing : option (list string)) (f : form) : form :=
  match listing with
  | Some files =>
      foldl scan_step
        (logging_debug f ("Scanning snapshots in: " +:+ snapshots_path)) files
  | None => f
  end.

Definition empty_form : form :=
  {| snapshots_table := []; snapshots_table_row := 0; log := [] |}.

(** The file name of a snapshot, as [save_snapshot] writes it and as
    [view_snapshot_event] and [delete_snapshot_event] look for it. *)
Definition file_name (slot : snapshot) : string :=
  "[" +:+ type slot +:+ "]_[" +:+ name slot +:+ "]_[" +:+ timestamp slot
  +:+ "].json".

(** A text without closing bracket and without line feed. *)
Definition plain (s : string) : bool :=
  Re.all_chars (λ a, Re.dot a && negb (bool_decide (a = "]"%char))) s.

(** ** [get_selected_items] *)

(** A [QTableWidgetItem] of the selection: [item.row()], [item.column()]
    and [item.text()]. *)
Record item : Type := {
  item_row : nat;
  item_column : nat;
  item_text : string
}.

(** An entry of [selected_data], with the keys [name], [type],
    [timestamp] and [row]. *)
Record selected : Type := {
  sel_name : string;
  sel_type : string;
  sel_timestamp : string;
  sel_row : nat
}.

(** The body of the loop over the selected items, on [selected_data] and
    the three texts collected so far. *)
Definition select_item
    (st : list selected * string * string * string) (it : item)
    : list selected * string * string * string :=
  let '(selected_data, name, snapshot_type, timestamp) := st in
  let name :=
    if decide (item_column it = 0) then item_text it else name in
  let snapshot_type :=
    if decide (item_column it = 0) then snapshot_type
    else if decide (item_column it = 1) then item_text it
    else snapshot_type in
  let timestamp :=
    if decide (item_column it = 0) then timestamp
    else if decide (item_column it = 1) then timestamp
    else if decide (item_column it = 2) then item_text it
    else timestamp in
  if bool_decide (name ≠ "") && bool_decide (snapshot_type ≠ "")
     && bool_decide (timestamp ≠ "")
  then (selected_data
          ++ [{| sel_name := name; sel_type := snapshot_type;
                 sel_timestamp := timestamp; sel_row := item_row it |}],
        "", "", "")
  else (selected_data, name, snapshot_type, timestamp).

(** [get_selected_items], on [self.snapshots_table.selectedItems()]. *)
Definition get_selected_items (selectedItems : list item) : list selected :=
  (foldl select_item ([], "", "", "") selectedItems).1.1.1.

(** The three cells of a table row. *)
Definition row_items (r : nat) (cells : string * string * string)
    : list item :=
  let '(name, snapshot_type, timestamp) := cells in
  [ {| item_row := r; item_column := 0; item_text := name |};
    {| item_row := r; item_column := 1; item_text := snapshot_type |};
    {| item_row := r; item_column := 2; item_text := timestamp |} ].

(** The cells of a table row no text of which is empty. *)
Definition filled (cells : string * string * string) : Prop :=
  cells.1.1 ≠ "" ∧ cells.1.2 ≠ "" ∧ cells.2 ≠ "".

(** The entry of a row. *)
Definition entry_of (r : nat) (cells : string * string * string) : selected :=
  {| sel_name := cells.1.1; sel_type := cells.1.2; sel_timestamp := cells.2;
     sel_row := r |}.

(** ** [table_menu_event] *)

(** Which actions of the context menu are enabled when it opens. *)
Record menu : Type := {
  view_action : bool;
  delete_action : bool;
  compare_action : bool
}.

Definition table_menu_event (selectedItems : list item) : menu :=
  let selected_items := get_selected_items selectedItems in
  match selected_items with
  | [] =>
      {| view_action := false; delete_action := false;
         compare_action := false |}
  | _ =>
      {| view_action := bool_decide (length selected_items < 2);
         delete_action := true;
         compare_action :=
           bool_decide (length selected_items = 2)
           && match selected_items !! 0, selected_items !! 1 with
              | Some a, Some b => bool_decide (sel_type a ≠ sel_type b)
              | _, _ => false
              end |}
  end.

(** ** [delete_snapshot_event] *)

(** [data.sort(key=lambda x: x['row'], reverse=True)]: the sort is stable,
    entries of the same row keep their order. *)
Fixpoint insert_by_row (x : selected) (l : list selected) : list selected :=
  match l with
  | [] => [x]
  | y :: l' =>
      if decide (sel_row y < sel_row x) then x :: y :: l'
      else y :: insert_by_row x l'
  end.

Definition sort_by_row (data : list selected) : list selected :=
  foldl (λ sorted x, insert_by_row x sorted) [] data.

(** [logging.info] and [logging.warning], on the log of the form. *)
Definition log_info (f : form) (msg : string) : form :=
  {| snapshots_table := snapshots_table f;
     snapshots_table_row := snapshots_table_row f;
     log := log f ++ [logging.info msg] |}.

Definition log_warning (f : form) (msg : string) : form :=
  {| snapshots_table := snapshots_table f;
     snapshots_table_row := snapshots_table_row f;
     log := log f ++ [logging.warning msg] |}.

(** [self.snapshots_table.removeRow(row)]; a row that does not exist
    removes nothing. *)
Definition removeRow (r : nat) (f : form) : form :=
  {| snapshots_table := delete r (snapshots_table f);
     snapshots_table_row := snapshots_table_row f;
     log := log f |}.

(** The path of the file of a selected entry. *)
Definition file_path `{CreateEvent.Platform} (entry : selected) : string :=
  CreateEvent.path_join
    (CreateEvent.path_join CreateEvent.output_dir "Snapshots")
    (file_name {| timestamp := sel_timestamp entry; type := sel_type entry;
                  name := sel_name entry |}).

(** The body of the loop of [delete_snapshot_event], on the files on disk
    and the form. *)
Definition delete_entry `{CreateEvent.Platform}
    (st : gmap string CreateEvent.file * form) (entry : selected)
    : gmap string CreateEvent.file * form :=
  let '(files, f) := st in
  if decide (is_Some (files !! file_path entry)) then
    (delete (file_path entry) files,
     log_info (removeRow (sel_row entry) f)
       ("Deleted snapshot: " +:+ sel_name entry))
  else
    (files,
     log_warning f
       ("Snapshot file not found for deletion: " +:+ file_path entry)).

Definition delete_snapshot_event `{CreateEvent.Platform}
    (selectedItems : list item) (st : gmap string CreateEvent.file * form)
    : gmap string CreateEvent.file * form :=
  let data := sort_by_row (get_selected_items selectedItems) in
  foldl delete_entry st data.

(** The rows of a table whose index, counted from [i], is not among
    [rows]. *)
Fixpoint rows_from {A} (i : nat) (rows : list nat) (table : list A)
    : list A :=
  match table with
  | [] => []
  | x :: table' =>
      if decide (i ∈ rows) then rows_from (S i) rows table'
      else x :: rows_from (S i) rows table'
  end.

Definition without_rows {A} (rows : list nat) (table : list A) : list A :=
  rows_from 0 rows table.

End Form.

(* ===================================================================== *)
(** * workers.py: CompareEvent.run *)
(* ===================================================================== *)

Module CompareRun.
Import Form.

(** [snapshots[i]] *)
Definition index {A} (l : list A) (i : nat) : result A :=
  match l !! i with
  | Some x => Ok x
  | None => Raise (OtherError "list index out of range")
  end.

(** The two conditional expressions that pick the pre and the post
    snapshot from the selection. *)
Definition pick (snapshots : list selected) : result (selected * selected) :=
  first ← index snapshots 0;
  pre_snapshot ← (if decide (sel_type first = "Pre") then index snapshots 0
                  else index snapshots 1);
  first ← index snapshots 0;
  post_snapshot ← (if decide (sel_type first = "Post") then index snapshots 0
                   else index snapshots 1);
  Ok (pre_snapshot, post_snapshot).

(** [json.load(open(path))['endpoints']]: the keys of a JSON object are
    strings. *)
Definition load_endpoints (files : gmap string CreateEvent.file)
    (path : string) : result (dict string Ep.t) :=
  match files !! path with
  | None => Raise (OtherError "FileNotFoundError")
  | Some f =>
      match CreateEvent.body f with
      | CreateEvent.SnapshotJson endpoints =>
          Ok (prod_map pretty id <$> endpoints)
      | CreateEvent.OuiJson _ => Raise (KeyError (repr "endpoints"))
      | CreateEvent.Text _ => Raise (OtherError "JSONDecodeError")
      end
  end.

Definition file_exists (files : gmap string CreateEvent.file)
    (path : string) : result unit :=
  match files !! path with
  | None => Raise (OtherError "FileNotFoundError")
  | Some _ => Ok ()
  end.

(** [run], up to [compare_snapshots]: the final [self.compare_data]. *)
Definition run `{CreateEvent.Platform} (selectedItems : list item)
    (files : gmap string CreateEvent.file)
    : result (dict string CompareEvent.row) :=
  let snapshots := get_selected_items selectedItems in
  '(pre_snapshot, post_snapshot) ← pick snapshots;
  let pre_path := file_path pre_snapshot in
  let post_path := file_path post_snapshot in
  _ ← file_exists files pre_path;
  _ ← file_exists files post_path;
  pre_snapshot_data ← load_endpoints files pre_path;
  post_snapshot_data ← load_endpoints files post_path;
  let '(pre_snapshot_data, post_snapshot_data) :=
    CompareEvent.get_mac_data pre_snapshot_data post_snapshot_data in
  Ok (CompareEvent.compare_snapshots pre_snapshot_data post_snapshot_data).

End CompareRun.

(* ===================================================================== *)
(** * workers.py: CompareEvent.write_report *)
(* ===================================================================== *)

Module Report.
Import CompareEvent.

(** The format dicts of [write_report], by their names; [cell_fmt f] is
    the copy of [base_fmt] updated with the style of a cell. *)
Inductive sheet_format : Type :=
  | base_fmt
  | header1_fmt
  | header2_fmt
  | pre_fmt
  | post_fmt
  | pattern_fmt
  | cell_fmt (f : format).

(** What is written into a cell: a text or a row number. *)
Inductive sheet_value : Type :=
  | Text (s : string)
  | Number (n : nat).

(** The calls on the workbook and its worksheet, in the order in which
    they are made.  The width of [set_column] is in tenths. *)
Inductive call : Type :=
  | add_worksheet (name : string)
  | write (row col : nat) (v : sheet_value) (fmt : sheet_format)
  | autofilter (first_row first_col last_row last_col : nat)
  | merge_range (first_row first_col last_row last_col : nat)
      (data : string) (fmt : sheet_format)
  | set_column (first_col last_col : nat) (width_tenths : nat)
      (fmt : sheet_format)
  | close.

(** [row_values.items()]: the seventeen keys of a row, in the order of
    the dict literal of [compare_snapshots]. *)
Definition row_cells (r : row) : list (string * cell) :=
  [("Address", Address r); ("Observation", Observation r);
   ("Vendor", Vendor r);
   ("Pre-Device", Pre_Device r); ("Pre-Interface", Pre_Interface r);
   ("Pre-Speed", Pre_Speed r); ("Pre-Duplex", Pre_Duplex r);
   ("Pre-Vlan", Pre_Vlan r); ("Pre-IP", Pre_IP r);
   ("Pre-Hostname", Pre_Hostname r);
   ("Post-Device", Post_Device r); ("Post-Interface", Post_Interface r);
   ("Post-Speed", Post_Speed r); ("Post-Duplex", Post_Duplex r);
   ("Post-Vlan", Post_Vlan r); ("Post-IP", Post_IP r);
   ("Post-Hostname", Post_Hostname r)].

(** [sep.join(l)] *)
Fixpoint join (sep : string) (l : list string) : string :=
  match l with
  | [] => ""
  | [s] => s
  | s :: l' => s +:+ sep +:+ join sep l'
  end.

Definition line_feed : string := String (ascii_of_nat 10) "".

(** The value written for a cell: a list is joined by line feeds. *)
Definition cell_text (c : cell) : sheet_value :=
  match value c with
  | Strs l => Text (join line_feed l)
  | Str s => Text s
  end.

Definition pre_col_idx : nat := 4.
Definition post_col_idx : nat := 12.

(** An inner loop: one [write] per entry in row [row_idx], from column
    [col_idx] on, stepping over the two separator columns.  Gives the
    calls and the final [col_idx]. *)
Definition write_cells (row_idx : nat)
    (entries : list (sheet_value * sheet_format)) (col_idx : nat)
    : list call * nat :=
  foldl (λ '(calls, col_idx) '(v, fmt),
           let col_idx :=
             if bool_decide (col_idx ∈ [pre_col_idx; post_col_idx])
             then col_idx + 1 else col_idx in
           (calls ++ [write row_idx col_idx v fmt], col_idx + 1))
    ([], col_idx) entries.

(** The loop over the rows of [data]. *)
Definition write_rows (data : dict nat row) (row_idx col_idx : nat)
    : list call * nat * nat :=
  foldl (λ '(calls, row_idx, col_idx) '(row_key, row_values),
           let '(cells, col_idx) :=
             write_cells row_idx
               ((λ '(_, c), (cell_text c, cell_fmt (cellFormat c)))
                  <$> row_cells row_values) 1 in
           (calls ++ write row_idx 0 (Number row_key) base_fmt :: cells,
            row_idx + 1, col_idx))
    ([], row_idx, col_idx) (dict_items data).

Definition headers : list string :=
  ["#"; "Address"; "Observation"; "Vendor"].

Definition sub_headers : list (option string) :=
  [Some " "; Some " "; Some " "; Some " "; None;
   Some "Device"; Some "Interface"; Some "Speed"; Some "Duplex";
   Some "Vlan"; Some "IP"; Some "Hostname"; None;
   Some "Device"; Some "Interface"; Some "Speed"; Some "Duplex";
   Some "Vlan"; Some "IP"; Some "Hostname"].

(** The last part of [write_report]: the top header, the two merged
    titles, the sub-headers, the two separator columns, and the closing of
    the workbook. *)
Definition write_headers : list call :=
  let '(top, col_idx) :=
    foldl (λ '(calls, col_idx) h,
             (calls ++ [write 0 col_idx (Text h) header1_fmt], col_idx + 1))
      ([], 0) headers in
  let col_idx := col_idx + 1 in
  let pre := [merge_range 0 col_idx 0 (col_idx + 6) "Pre" pre_fmt] in
  let col_idx := col_idx + 8 in
  let post := [merge_range 0 col_idx 0 (col_idx + 6) "Post" post_fmt] in
  let sub :=
    omap id
      (imap (λ idx sub,
               match sub with
               | Some text => Some (write 1 idx (Text text) header2_fmt)
               | None => None
               end) sub_headers) in
  top ++ pre ++ post ++ sub
  ++ [set_column pre_col_idx pre_col_idx 4 pattern_fmt;
      set_column post_col_idx post_col_idx 4 pattern_fmt;
      close].

(** [write_report]: the calls made on the workbook, and the exception
    that ends them, if any. *)
Definition write_report (compare_data : dict string row)
    : list call * option exn :=
  let row_idx := 1 in
  let data : dict nat row :=
    dict_comprehension (λ '(idx, _), idx + 1) (λ '(_, (_, val)), val)
      (imap (λ idx item, (idx, item)) (dict_items compare_data)) in
  let calls :=
    [add_worksheet "Mac Compare"; write row_idx 0 (Text "#") header1_fmt] in
  match dict_getitem data 1 with
  | Raise e => (calls, Some e)
  | Ok first =>
      let '(header, col_idx) :=
        write_cells row_idx
          ((λ key, (Text key.1, header1_fmt)) <$> row_cells first) 1 in
      let row_idx := row_idx + 1 in
      let '(rows, row_idx, col_idx) := write_rows data row_idx col_idx in
      (calls ++ header ++ rows
         ++ [autofilter 1 1 row_idx (col_idx - 1)] ++ write_headers,
       None)
  end.

(** The column of the [j]-th cell of a row: after the number, with one
    column left out before the Pre block and one before the Post block. *)
Definition column_of (j : nat) : nat :=
  if decide (j < 3) then j + 1 else if decide (j < 10) then j + 2 else j + 3.

(** The calls for one row of the data: its number, then its cells. *)
Definition row_calls (row_idx : nat) (item : nat * row) : list call :=
  write row_idx 0 (Number item.1) base_fmt
  :: imap (λ j entry, write row_idx (column_of j) (cell_text entry.2)
                        (cell_fmt (cellFormat entry.2)))
       (row_cells item.2).

(** A call that writes no cell of a separator column and none right of
    the last column. *)
Definition in_data_column (c : call) : bool :=
  match c with
  | write _ col _ _ =>
      negb (bool_decide (col ∈ [pre_col_idx; post_col_idx]))
      && bool_decide (col ≤ 19)
  | _ => true
  end.

End Report.

(* ===================================================================== *)
(** * Sample data *)
(* ===================================================================== *)

Module Sample.

Definition observation (switch iface speed mac ip : string) : Obs.t :=
  {| Obs.Hostname := "host-" +:+ switch; Obs.IP_Address := ip;
     Obs.Switch := switch; Obs.Interface := iface;
     Obs.Speed := speed; Obs.Duplex := "a-full";
     Obs.MAC_Address := mac; Obs.Vendor := "Unknown"; Obs.Vlan := "10" |}.

Definition mac1 : string := "aa:bb:cc:00:00:01".
Definition mac2 : string := "aa:bb:cc:00:00:02".

(** [mac1] is learnt on all three switches, [mac2] on [SW2] only. *)
Definition data : CreateEvent.collected :=
  {[ "SW1" := [(mac1, observation "SW1" "Gi1/0/1" "a-1000" mac1 "10.0.0.1")];
     "SW2" := [(mac2, observation "SW2" "Gi1/0/2" "a-100" mac2 "10.0.0.2");
               (mac1, observation "SW2" "Te1/1/1" "10G" mac1 "10.0.0.9")];
     "SW3" := [(mac1, observation "SW3" "Te1/1/4" "10G" mac1 "Unknown")] ]}.

Definition devices : list string := ["SW3"; "SW1"; "SW2"].

Definition endpoint (mac switch iface speed ip : string) : Ep.t :=
  {| Ep.MAC_Address := mac; Ep.Vendor := "Unknown";
     Ep.Hostname := "Unknown"; Ep.IP_Address := ip; Ep.Vlan := "10";
     Ep.Switch := [switch]; Ep.Interface := [iface];
     Ep.Speed := [speed]; Ep.Duplex := ["a-full"] |}.

Definition mac3 : string := "aa:bb:cc:00:00:03".

(** A switch that learnt [mac1] on [Gi1/0/1] and answers the three
    commands. *)
Definition switch_tables (cmd : string) : result CreateEvent.table :=
  if decide (cmd = "show mac address") then
    Ok [(mac1, [("ports", "Gi1/0/1"); ("vlan_id", "10")]);
        ("00:00:00:00:00:aa", [("ports", "Vlan10"); ("vlan_id", "10")])]
  else if decide (cmd = "show ip arp") then
    Ok [(mac1, [("ip_address", "10.0.0.1")])]
  else if decide (cmd = "show interface status") then
    Ok [("GigabitEthernet1/0/1", [("speed", "a-1000"); ("duplex", "a-full")]);
        ("GigabitEthernet1/0/2", [("speed", "auto"); ("duplex", "auto")])]
  else Raise (OtherError "unknown command").

(** The three tables of that switch, and a session with it. *)
Definition mac_table : CreateEvent.table :=
  [(mac1, [("ports", "Gi1/0/1"); ("vlan_id", "10")]);
   ("00:00:00:00:00:aa", [("ports", "Vlan10"); ("vlan_id", "10")])].

Definition arp_table : CreateEvent.table :=
  [(mac1, [("ip_address", "10.0.0.1")])].

Definition iface_table : CreateEvent.table :=
  [("GigabitEthernet1/0/1", [("speed", "a-1000"); ("duplex", "a-full")]);
   ("GigabitEthernet1/0/2", [("speed", "auto"); ("duplex", "auto")])].

Definition handler : CreateEvent.Handler :=
  {| CreateEvent.base_prompt := "SW1";
     CreateEvent.sendCommand := λ cmd _, switch_tables cmd |}.

(** The directory [/out/Snapshots] exists and has no directory in it: a
    file is created there unless its name has a slash. *)
Definition open_write (path : string) : result unit :=
  if Re.starts_with "/out/Snapshots/" path
     && Re.all_chars (λ c, negb (bool_decide (c = "/"%char)))
          (Re.drop 15 path)
  then Ok () else Raise (OtherError "FileNotFoundError").

(** A platform on which [SW9] cannot be reached and every other device
    answers like the switch above, under its own name. *)
Definition platform : CreateEvent.Platform :=
  {| CreateEvent.GenericHandler := λ device,
       if decide (device = "SW9") then Raise (OtherError "timed out")
       else Ok {| CreateEvent.base_prompt := device;
                  CreateEvent.sendCommand := λ cmd _, switch_tables cmd |};
     CreateEvent.getfqdn := λ ip, "host-" +:+ ip;
     CreateEvent.requests_get := λ _, Raise (OtherError "no network");
     CreateEvent.splitlines := λ text, [text];
     CreateEvent.search_oui_line := λ _, None;
     CreateEvent.strftime := λ _, "2024-01-01_10.30";
     CreateEvent.path_join := λ a b, a +:+ "/" +:+ b;
     CreateEvent.module_file := "/opt/mac_compare/workers.py";
     CreateEvent.module_dir := "/opt/mac_compare";
     CreateEvent.output_dir := "/out";
     CreateEvent.path_exists := λ path, bool_decide (path = "/out/Snapshots");
     CreateEvent.mkdir := λ _, Raise (OtherError "FileNotFoundError");
     CreateEvent.open_write := open_write |}.

(** As [platform], but every device answers and the MAC table of [SW7]
    lacks the [vlan_id] column. *)
Definition platform_bad_table : CreateEvent.Platform :=
  {| CreateEvent.GenericHandler := λ device,
       Ok {| CreateEvent.base_prompt := device;
             CreateEvent.sendCommand := λ cmd _,
               if decide (device = "SW7" ∧ cmd = "show mac address")
               then Ok [(mac1, [("ports", "Gi1/0/1")])]
               else switch_tables cmd |};
     CreateEvent.getfqdn := λ ip, "host-" +:+ ip;
     CreateEvent.requests_get := λ _, Raise (OtherError "no network");
     CreateEvent.splitlines := λ text, [text];
     CreateEvent.search_oui_line := λ _, None;
     CreateEvent.strftime := λ _, "2024-01-01_10.30";
     CreateEvent.path_join := λ a b, a +:+ "/" +:+ b;
     CreateEvent.module_file := "/opt/mac_compare/workers.py";
     CreateEvent.module_dir := "/opt/mac_compare";
     CreateEvent.output_dir := "/out";
     CreateEvent.path_exists := λ path, bool_decide (path = "/out/Snapshots");
     CreateEvent.mkdir := λ _, Raise (OtherError "FileNotFoundError");
     CreateEvent.open_write := open_write |}.

Definition day : Z := 86400000000.

(** The registry cache was written 200 days ago; the module file was
    touched yesterday. *)
Definition old_cache : CreateEvent.file :=
  {| CreateEvent.mtime := 0;
     CreateEvent.body := CreateEvent.OuiJson {[ "AABBCC" := "Acme" ]} |}.

Definition stale_cache_world : CreateEvent.world :=
  {| CreateEvent.files :=
       {[ "/opt/mac_compare/macvendor_registry.json" := old_cache;
          "/opt/mac_compare/workers.py" :=
            {| CreateEvent.mtime := 199 * day;
               CreateEvent.body := CreateEvent.Text "" |} ]};
     CreateEvent.now := 200 * day;
     CreateEvent.log := [];
     CreateEvent.emitted := [] |}.

(** Pre holds [mac1] and [mac3]; Post lost [mac1], learnt [mac2], and
    sees [mac3] at another speed. *)
Definition pre_snapshot : dict string Ep.t :=
  [(mac1, endpoint mac1 "SW1" "Gi1/0/1" "1G" "10.0.0.1");
   (mac3, endpoint mac3 "SW1" "Gi1/0/3" "1G" "10.0.0.3")].

Definition post_snapshot : dict string Ep.t :=
  [(mac2, endpoint mac2 "SW1" "Gi1/0/2" "1G" "10.0.0.2");
   (mac3, endpoint mac3 "SW1" "Gi1/0/3" "10G" "10.0.0.3")].

(** A form with three snapshots listed, the files of the first and the
    third on disk, and the selection of the third and the first row. *)
Definition listed_form : Form.form :=
  {| Form.snapshots_table :=
       [("floor1", "Pre", "2024-01-01_10.30");
        ("floor2", "Pre", "2024-01-01_11.00");
        ("floor1", "Post", "2024-01-02_09.00")];
     Form.snapshots_table_row := 3;
     Form.log := [] |}.

Definition snapshot_files : gmap string CreateEvent.file :=
  {[ "/out/Snapshots/[Pre]_[floor1]_[2024-01-01_10.30].json" :=
       {| CreateEvent.mtime := 0;
          CreateEvent.body := CreateEvent.SnapshotJson [] |};
     "/out/Snapshots/[Post]_[floor1]_[2024-01-02_09.00].json" :=
       {| CreateEvent.mtime := day;
          CreateEvent.body := CreateEvent.SnapshotJson [] |} ]}.

Definition selection : list Form.item :=
  Form.row_items 0 ("floor1", "Pre", "2024-01-01_10.30")
  ++ Form.row_items 2 ("floor1", "Post", "2024-01-02_09.00").

End Sample.

(* ===================================================================== *)
(** * Properties *)
(* ===================================================================== *)

Import CreateEvent.

(** ** Regular-expression helpers *)

Lemma string_app_nil_l s : "" +:+ s = s.
Proof. reflexivity. Qed.

Lemma string_app_cons c s t : String c s +:+ t = String c (s +:+ t).
Proof. reflexivity. Qed.

Lemma string_app_nil_r s : s +:+ "" = s.
Proof. induction s; rewrite ?string_app_cons; [done|]. by f_equal. Qed.

Lemma string_app_assoc s t u : (s +:+ t) +:+ u = s +:+ t +:+ u.
Proof.
  induction s; rewrite ?string_app_cons, ?string_app_nil_l; [done|].
  by f_equal.
Qed.

Section re_facts.
Import Re.

Lemma span_sound cls s run rest :
  span cls s = (run, rest) →
  s = run +:+ rest ∧ all_chars cls run = true
  ∧ match rest with EmptyString => True | String c _ => cls c = false end.
Proof.
  revert run rest. induction s as [|c s IH]; intros run rest; simpl.
  - by intros [= <- <-].
  - destruct (cls c) eqn:Hc.
    + destruct (span cls s) as [run' rest'] eqn:Hs.
      intros [= <- <-]. destruct (IH _ _ eq_refl) as (-> & Hall & Hrest).
      rewrite ?string_app_cons. simpl. by rewrite Hc, Hall.
    + by intros [= <- <-].
Qed.

Lemma span_complete cls run rest :
  all_chars cls run = true →
  match rest with EmptyString => True | String c _ => cls c = false end →
  span cls (run +:+ rest) = (run, rest).
Proof.
  induction run as [|c run IH]; simpl; intros Hall Hrest.
  - rewrite ?string_app_nil_l. destruct rest as [|c rest]; [done|].
    simpl. by rewrite Hrest.
  - apply andb_true_iff in Hall as [Hc Hall]. rewrite ?string_app_cons.
    simpl. by rewrite Hc, IH.
Qed.

(** A greedy run of a class followed by a greedy run of a wider class is
    the greedy run of the wider class. *)
Lemma span_then_span (p q : ascii → bool) s :
  (∀ c, p c = true → q c = true) →
  (span p s).1 +:+ (span q (span p s).2).1 = (span q s).1.
Proof.
  intros Hpq. induction s as [|c s IH]; [done|]. simpl.
  destruct (p c) eqn:Hp.
  - rewrite (Hpq _ Hp). destruct (span p s) as [a b], (span q s) as [a' b'].
    simpl in *. by rewrite ?string_app_cons, IH.
  - simpl. rewrite ?string_app_nil_l. by destruct (q c), (span q s).
Qed.

Lemma digit_non_space c : is_digit c = true → non_space c = true.
Proof.
  unfold is_digit, non_space, is_space.
  intros [H1 H2]%andb_true_iff. apply N.leb_le in H1, H2.
  apply negb_true_iff. repeat (apply orb_false_iff; split);
    rewrite ?andb_false_iff, ?N.leb_gt, ?N.eqb_neq; lia.
Qed.

Lemma search_digits_nonspace_cons c s :
  search_digits_nonspace (String c s)
  = if is_digit c then Some (span non_space (String c s)).1
    else search_digits_nonspace s.
Proof.
  rewrite <-(span_then_span is_digit non_space (String c s))
    by apply digit_non_space.
  change (search_digits_nonspace (String c s)) with
    (if is_digit c then
       let '(digits, rest) := span is_digit (String c s) in
       let '(tail, _) := span (λ x, negb (is_space x)) rest in
       Some (digits +:+ tail)
     else search_digits_nonspace s).
  destruct (is_digit c); [|done].
  destruct (span is_digit (String c s)) as [a b]. simpl.
  unfold non_space. by destruct (span _ b).
Qed.

Lemma search_digits_nonspace_None s :
  search_digits_nonspace s = None ↔ all_chars non_digit s = true.
Proof.
  unfold non_digit. induction s as [|c s IH]; [done|].
  rewrite search_digits_nonspace_cons. simpl.
  destruct (is_digit c); simpl; [|done]. split; discriminate.
Qed.

(** The match of the port identifier: skip the digit-free head, then
    take everything up to the next white space. *)
Lemma search_digits_nonspace_at head d s :
  all_chars non_digit head = true → is_digit d = true →
  search_digits_nonspace (head +:+ String d s)
  = Some (span non_space (String d s)).1.
Proof.
  intros Hhead Hd. induction head as [|c head IH].
  - by rewrite string_app_nil_l, search_digits_nonspace_cons, Hd.
  - simpl in Hhead. apply andb_true_iff in Hhead as [Hc Hhead].
    unfold non_digit in Hc. apply negb_true_iff in Hc.
    rewrite string_app_cons, search_digits_nonspace_cons, Hc. by apply IH.
Qed.

Lemma search_digits_nonspace_identifier head ident tail :
  all_chars non_digit head = true → is_identifier ident = true →
  is_break tail = true →
  search_digits_nonspace (head +:+ ident +:+ tail) = Some ident.
Proof.
  intros Hhead Hid Htail. destruct ident as [|d ident]; [done|].
  apply andb_true_iff in Hid as [Hd Hns].
  rewrite string_app_cons, search_digits_nonspace_at by done.
  rewrite <-string_app_cons, span_complete; [done..|].
  destruct tail; [done|]. unfold non_space. simpl in Htail. by rewrite Htail.
Qed.

(** What a successful search returns is an identifier. *)
Lemma search_digits_nonspace_Some s port_id :
  search_digits_nonspace s = Some port_id → is_identifier port_id = true.
Proof.
  induction s as [|c s IH]; [done|].
  rewrite search_digits_nonspace_cons.
  destruct (is_digit c) eqn:Hc; [|done].
  destruct (span non_space (String c s)) as [a b] eqn:Hs.
  intros [= <-]. destruct (span_sound _ _ _ _ Hs) as (_ & Hall & _).
  simpl in Hs. rewrite (digit_non_space _ Hc) in Hs.
  destruct (span non_space s). injection Hs as <- <-.
  unfold is_identifier. by rewrite Hc, Hall.
Qed.

Lemma starts_with_ignorecase_app lit s t :
  starts_with_ignorecase lit s = true →
  starts_with_ignorecase lit (s +:+ t) = true.
Proof.
  revert s. induction lit as [|a lit IH]; intros [|b s]; simpl; try done.
  intros [Hab ?]%andb_true_iff. rewrite ?string_app_cons. simpl.
  rewrite Hab. simpl. by apply IH.
Qed.

Lemma starts_with_ignorecase_self lit : starts_with_ignorecase lit lit = true.
Proof. induction lit; simpl; [done|]. by rewrite bool_decide_eq_true_2. Qed.

Lemma starts_with_ignorecase_compatible l1 l2 s :
  starts_with_ignorecase l1 s = true → starts_with_ignorecase l2 s = true →
  prefix_compatible (lower_string l1) (lower_string l2) = true.
Proof.
  revert l2 s. induction l1 as [|a l1 IH]; intros [|b l2] [|c s]; simpl;
    try done.
  intros [Ha%bool_decide_eq_true ?]%andb_true_iff
         [Hb%bool_decide_eq_true ?]%andb_true_iff.
  rewrite bool_decide_eq_true_2 by congruence. simpl. eauto.
Qed.
End re_facts.

(** ** [normalize_iface] *)

(** No two labels can match the same name, and no label holds a digit. *)
Lemma labels_prefix_free :
  forallb (λ l1, forallb (λ l2,
      bool_decide (l1 = l2)
      || negb (Re.prefix_compatible (Re.lower_string l1) (Re.lower_string l2)))
    labels) labels = true.
Proof. vm_compute. reflexivity. Qed.

Lemma labels_no_digit :
  forallb (Re.all_chars Re.non_digit) labels = true.
Proof. vm_compute. reflexivity. Qed.

Lemma labels_exclusive l1 l2 s :
  l1 ∈ labels → l2 ∈ labels →
  Re.starts_with_ignorecase l1 s = true →
  Re.starts_with_ignorecase l2 s = true → l1 = l2.
Proof.
  intros H1%list_elem_of_In H2%list_elem_of_In Hs1 Hs2.
  pose proof labels_prefix_free as Hfree.
  rewrite forallb_forall in Hfree. specialize (Hfree _ H1).
  rewrite forallb_forall in Hfree. specialize (Hfree _ H2).
  apply orb_true_iff in Hfree as [?%bool_decide_eq_true|Hneg]; [done|].
  rewrite (starts_with_ignorecase_compatible _ _ _ Hs1 Hs2) in Hneg. done.
Qed.

Lemma normalize_iface_loop_no_match ls iface :
  Forall (λ label, Re.starts_with_ignorecase label iface = false) ls →
  normalize_iface_loop ls iface = Ok iface.
Proof. induction 1 as [|label ls Hl _ IH]; simpl; [done|]. by rewrite Hl. Qed.

Lemma normalize_iface_loop_match ls label iface :
  label ∈ ls →
  (∀ l', l' ∈ ls → Re.starts_with_ignorecase l' iface = true → l' = label) →
  Re.starts_with_ignorecase label iface = true →
  normalize_iface_loop ls iface
  = match Re.search_digits_nonspace iface with
    | Some port_id => Ok (label +:+ port_id)
    | None => Raise AttributeError
    end.
Proof.
  intros Hin Hexcl Hm. induction ls as [|l ls IH]; [by inversion Hin|].
  simpl. destruct (Re.starts_with_ignorecase l iface) eqn:Hl.
  - by rewrite (Hexcl l (list_elem_of_here _ _) Hl).
  - apply IH.
    + apply elem_of_cons in Hin as [->|?]; [congruence|done].
    + intros l' ?. apply Hexcl. by right.
Qed.

Lemma normalize_iface_match label iface :
  label ∈ labels → Re.starts_with_ignorecase label iface = true →
  normalize_iface iface
  = match Re.search_digits_nonspace iface with
    | Some port_id => Ok (label +:+ port_id)
    | None => Raise AttributeError
    end.
Proof.
  intros Hin Hm. apply normalize_iface_loop_match; [done| |done].
  intros l' Hl' Hm'. by apply (labels_exclusive l' label iface).
Qed.

Lemma recognized_false iface :
  recognized iface = false ↔
  Forall (λ label, Re.starts_with_ignorecase label iface = false) labels.
Proof.
  unfold recognized. generalize labels. intros ls.
  induction ls as [|l ls IH]; simpl.
  - split; [constructor|done].
  - rewrite orb_false_iff, Forall_cons, IH. done.
Qed.

Lemma recognized_true iface :
  recognized iface = true ↔
  ∃ label, label ∈ labels ∧ Re.starts_with_ignorecase label iface = true.
Proof.
  unfold recognized. rewrite existsb_exists.
  by setoid_rewrite list_elem_of_In.
Qed.

Lemma labels_all_no_digit label :
  label ∈ labels → Re.all_chars Re.non_digit label = true.
Proof.
  intros Hin%list_elem_of_In. pose proof labels_no_digit as H.
  rewrite forallb_forall in H. by apply H.
Qed.

Lemma normalize_iface_unrecognized iface :
  recognized iface = false → normalize_iface iface = Ok iface.
Proof. intros ?%recognized_false. by apply normalize_iface_loop_no_match. Qed.

Lemma normalize_iface_recognized label head ident tail :
  label ∈ labels →
  Re.starts_with_ignorecase label (head +:+ ident +:+ tail) = true →
  Re.all_chars Re.non_digit head = true →
  Re.is_identifier ident = true →
  Re.is_break tail = true →
  normalize_iface (head +:+ ident +:+ tail) = Ok (label +:+ ident).
Proof.
  intros Hin Hm Hhead Hid Htail. rewrite (normalize_iface_match label) by done.
  by rewrite search_digits_nonspace_identifier.
Qed.

(** C7. A name that starts, in any letter case, with one of the labels
    [Te, Gi, Fa, Eth, Lo, Vl, Two, Twe] and continues (after a digit-free
    rest of the spelling) with a numeric/slotted identifier is mapped to the
    label followed by that identifier, so that every spelling of a port with
    the same label and identifier has the same image; a name that no label
    matches is returned as it is. *)
Theorem normalize_iface_canonical (name : string) :
  (∀ label head ident tail,
     label ∈ labels →
     Re.starts_with_ignorecase label name = true →
     name = head +:+ ident +:+ tail →
     Re.all_chars Re.non_digit head = true →
     Re.is_identifier ident = true →
     Re.is_break tail = true →
     normalize_iface name = Ok (label +:+ ident))
  ∧ (recognized name = false → normalize_iface name = Ok name).
Proof.
  split.
  - intros label head ident tail Hin Hm -> Hhead Hid Htail.
    by apply normalize_iface_recognized.
  - apply normalize_iface_unrecognized.
Qed.

Lemma normalize_iface_canonical_witness :
  normalize_iface "gi1/0/1" = Ok "Gi1/0/1"
  ∧ normalize_iface "GigabitEthernet1/0/1" = Ok "Gi1/0/1"
  ∧ normalize_iface "Port-channel1" = Ok "Port-channel1".
Proof.
  split; [|split].
  - apply (proj1 (normalize_iface_canonical "gi1/0/1") "Gi" "gi" "1/0/1" "");
      [compute_done|reflexivity..].
  - apply (proj1 (normalize_iface_canonical "GigabitEthernet1/0/1")
             "Gi" "GigabitEthernet" "1/0/1" "");
      [compute_done|reflexivity..].
  - apply (proj2 (normalize_iface_canonical "Port-channel1")). reflexivity.
Defined.

(** C6. Normalization is idempotent: a name that [normalize_iface] returns
    is returned unchanged when normalized again. *)
Theorem normalize_iface_idempotent (iface canonical : string) :
  normalize_iface iface = Ok canonical →
  normalize_iface canonical = Ok canonical.
Proof.
  destruct (recognized iface) eqn:Hrec.
  - apply recognized_true in Hrec as (label & Hin & Hm).
    rewrite (normalize_iface_match label) by done.
    destruct (Re.search_digits_nonspace iface) as [port_id|] eqn:Hs; [|done].
    intros [= <-]. apply search_digits_nonspace_Some in Hs.
    rewrite <-(string_app_nil_r port_id) at 1.
    apply normalize_iface_recognized; [done| |by apply labels_all_no_digit|done..].
    apply starts_with_ignorecase_app, starts_with_ignorecase_self.
  - rewrite normalize_iface_unrecognized by done. intros [= <-].
    by apply normalize_iface_unrecognized.
Qed.

Lemma normalize_iface_idempotent_witness :
  normalize_iface "GigabitEthernet1/0/1" = Ok "Gi1/0/1"
  ∧ normalize_iface "Gi1/0/1" = Ok "Gi1/0/1".
Proof.
  split; [reflexivity|].
  apply (normalize_iface_idempotent "GigabitEthernet1/0/1"). reflexivity.
Defined.

(** C9. [normalize_iface] is partial.  On the bare name [Ethernet] it
    raises; in general it raises (an [AttributeError], from [.group] on a
    failed search) exactly on the names that a label matches and that hold
    no digit, and it returns a string exactly when every name a label
    matches holds a digit. *)
Theorem normalize_iface_partial :
  normalize_iface "Ethernet" = Raise AttributeError
  ∧ (∀ iface e,
       normalize_iface iface = Raise e ↔
       e = AttributeError ∧ recognized iface = true
       ∧ Re.all_chars Re.non_digit iface = true)
  ∧ (∀ iface,
       (∃ canonical, normalize_iface iface = Ok canonical) ↔
       (recognized iface = true → Re.all_chars Re.non_digit iface = false)).
Proof.
  assert (∀ iface, recognized iface = true →
    normalize_iface iface
    = match Re.search_digits_nonspace iface with
      | Some port_id => normalize_iface iface
      | None => Raise AttributeError
      end ∧ (Re.search_digits_nonspace iface ≠ None →
             ∃ canonical, normalize_iface iface = Ok canonical)) as Hrec.
  { intros iface (label & Hin & Hm)%recognized_true.
    rewrite (normalize_iface_match label) by done.
    destruct (Re.search_digits_nonspace iface); split; eauto; done. }
  split; [reflexivity|split].
  - intros iface e. destruct (recognized iface) eqn:Hr.
    + destruct (Hrec _ Hr) as [Heq Hok]. rewrite <-search_digits_nonspace_None.
      destruct (Re.search_digits_nonspace iface) eqn:Hs.
      * destruct Hok as [c Hc]; [done|]. rewrite Hc.
        split; [done|]. by intros (_ & _ & ?).
      * rewrite Heq. split; [by intros [= <-]|]. by intros (-> & _ & _).
    + rewrite normalize_iface_unrecognized by done.
      split; [done|]. by intros (_ & ? & _).
  - intros iface. destruct (recognized iface) eqn:Hr.
    + destruct (Hrec _ Hr) as [Heq Hok].
      destruct (Re.search_digits_nonspace iface) eqn:Hs.
      * split; [|by eauto]. intros _ _.
        apply not_true_iff_false. rewrite <-search_digits_nonspace_None.
        congruence.
      * rewrite Heq. apply search_digits_nonspace_None in Hs. rewrite Hs.
        split; [by intros [? ?]|]. intros H. by specialize (H eq_refl).
    + rewrite normalize_iface_unrecognized by done.
      split; [done|]. intros _. by eexists.
Qed.

(** ** Ordered dictionaries *)

Section dict_facts.
Context {K V : Type} `{EqDecision K}.
Implicit Types (d : dict K V) (k : K) (v : V).

Lemma dict_get_set d k v k' :
  dict_get (dict_set d k v) k'
  = if decide (k = k') then Some v else dict_get d k'.
Proof.
  induction d as [|[k0 v0] d IH]; simpl.
  - done.
  - destruct (decide (k0 = k)) as [->|Hne]; simpl.
    + by destruct (decide (k = k')).
    + rewrite IH. destruct (decide (k0 = k')) as [->|]; [|done].
      by rewrite decide_False.
Qed.

Lemma dict_get_set_eq d k v : dict_get (dict_set d k v) k = Some v.
Proof. by rewrite dict_get_set, decide_True. Qed.

Lemma dict_get_set_ne d k v k' :
  k ≠ k' → dict_get (dict_set d k v) k' = dict_get d k'.
Proof. intros. by rewrite dict_get_set, decide_False. Qed.

Lemma dict_get_None d k : dict_get d k = None ↔ k ∉ dict_keys d.
Proof.
  unfold dict_keys. induction d as [|[k0 v0] d IH]; simpl.
  - split; [intros _; apply not_elem_of_nil|done].
  - rewrite not_elem_of_cons. destruct (decide (k0 = k)) as [->|Hne].
    + split; [done|]. by intros [? _].
    + rewrite IH. split; [by intros ?; split|by intros [_ ?]].
Qed.

Lemma dict_get_Some_elem d k v : dict_get d k = Some v → (k, v) ∈ d.
Proof.
  induction d as [|[k0 v0] d IH]; simpl; [done|].
  destruct (decide (k0 = k)) as [->|Hne].
  - intros [= ->]. left.
  - intros. right. auto.
Qed.

Lemma dict_get_wf_elem d k v :
  dict_wf d → (k, v) ∈ d → dict_get d k = Some v.
Proof.
  unfold dict_wf, dict_keys. induction d as [|[k0 v0] d IH]; simpl.
  - by intros _ ?%elem_of_nil.
  - intros [Hk0 Hd]%NoDup_cons [[= <- <-]|Hin]%elem_of_cons.
    + by rewrite decide_True.
    + rewrite decide_False; [by apply IH|].
      intros ->. apply Hk0. apply list_elem_of_fmap. by exists (k, v).
Qed.

Lemma dict_contains_get d k :
  dict_contains d k = bool_decide (is_Some (dict_get d k)).
Proof.
  unfold dict_contains. destruct (dict_get d k).
  - by rewrite bool_decide_eq_true_2.
  - rewrite bool_decide_eq_false_2; [done|]. by intros [? ?].
Qed.

Lemma dict_keys_set d k v :
  dict_keys (dict_set d k v)
  = if dict_contains d k then dict_keys d else dict_keys d ++ [k].
Proof.
  unfold dict_contains, dict_keys. induction d as [|[k0 v0] d IH]; csimpl.
  - done.
  - destruct (decide (k0 = k)) as [->|Hne]; csimpl; [done|].
    rewrite IH. by destruct (dict_get d k).
Qed.

Lemma dict_set_wf d k v : dict_wf d → dict_wf (dict_set d k v).
Proof.
  unfold dict_wf. rewrite dict_keys_set. intros Hd.
  destruct (dict_contains d k) eqn:Hc; [done|].
  apply NoDup_app. split_and!; [done| |apply NoDup_singleton].
  intros k' Hk' ->%list_elem_of_singleton.
  rewrite dict_contains_get in Hc. apply bool_decide_eq_false in Hc.
  apply Hc. destruct (dict_get d k) eqn:Hg; [by eexists|].
  by apply dict_get_None in Hg.
Qed.

Lemma dict_comprehension_wf {X} (key : X → K) (val : X → V) xs :
  dict_wf (dict_comprehension key val xs).
Proof.
  unfold dict_comprehension.
  assert (∀ d0 : dict K V, dict_wf d0 →
    dict_wf (foldl (λ d x, dict_set d (key x) (val x)) d0 xs)) as Hgen.
  { induction xs as [|x xs IH]; simpl; [done|].
    intros d0 Hd0. apply IH. by apply dict_set_wf. }
  apply Hgen. apply NoDup_nil_2.
Qed.
End dict_facts.

(** ** [refactor_data] *)

Section refactor_facts.
Implicit Types (st : refactor_state) (items seen : list (string * Obs.t)).
Implicit Types (data : collected) (devices : list string).

Lemma refactor_items_app items1 items2 st :
  refactor_items (items1 ++ items2) st
  = (st' ← refactor_items items1 st; refactor_items items2 st').
Proof.
  revert st. induction items1 as [|[mac prop] items1 IH]; intros st; simpl.
  - done.
  - destruct (refactor_step st mac prop) as [st'|e]; simpl; [apply IH|done].
Qed.

Lemma refactor_devices_items data devices st :
  refactor_devices data devices st
  = refactor_items (all_items data devices) st.
Proof.
  unfold all_items. revert st.
  induction devices as [|device devices IH]; intros st; csimpl; [done|].
  rewrite refactor_items_app. unfold dict_items.
  destruct (refactor_items _ st) as [st'|e]; simpl; [apply IH|done].
Qed.

Lemma sightings_app mac items1 items2 :
  sightings mac (items1 ++ items2)
  = sightings mac items1 ++ sightings mac items2.
Proof. unfold sightings. by rewrite filter_app, fmap_app. Qed.

Lemma sightings_singleton mac mac' prop :
  sightings mac [(mac', prop)] = if decide (mac' = mac) then [prop] else [].
Proof.
  unfold sightings. rewrite filter_cons, filter_nil. simpl.
  by destruct (decide (mac' = mac)).
Qed.

Lemma consolidate_snoc props e prop :
  consolidate props = Some e →
  consolidate (props ++ [prop]) = Some (append_observation e prop).
Proof.
  destruct props as [|first props]; [done|]. intros [= <-].
  unfold append_observation. simpl. by rewrite !fmap_app.
Qed.

Lemma refactor_inv_init : refactor_inv [] refactor_init.
Proof. by split_and!; [..|intros ???]. Qed.

Lemma refactor_step_inv seen st mac prop :
  refactor_inv seen st →
  ∃ st', refactor_step st mac prop = Ok st'
         ∧ refactor_inv (seen ++ [(mac, prop)]) st'.
Proof.
  intros (Hnone & Hsome & Hinj). unfold refactor_step, dict_getitem.
  destruct (sightings mac seen) as [|first props] eqn:Hs.
  - (* first sight *)
    pose proof (Hnone _ Hs) as Hmac. unfold dict_contains. rewrite Hmac.
    eexists. split; [done|]. split_and!; simpl.
    + intros mac'. rewrite sightings_app, sightings_singleton.
      destruct (decide (mac = mac')) as [->|Hne].
      { by destruct (sightings mac' seen). }
      rewrite app_nil_r, dict_get_set_ne by done. apply Hnone.
    + intros mac'. rewrite sightings_app, sightings_singleton.
      destruct (decide (mac = mac')) as [<-|Hne].
      * intros _. exists (S (ep_idx st)).
        rewrite Hs, !dict_get_set_eq. split_and!; [done|lia|lia|done].
      * rewrite app_nil_r, dict_get_set_ne by done. intros Hne'.
        destruct (Hsome _ Hne') as (idx & Hidx & Hrange & Hrec).
        exists idx. split_and!; [done|lia|lia|].
        rewrite dict_get_set_ne by lia. done.
    + intros mac1 mac2 idx. rewrite !dict_get_set.
      destruct (decide (mac = mac1)) as [<-|Hne1],
               (decide (mac = mac2)) as [<-|Hne2]; try done.
      * intros [= <-] Hidx. exfalso.
        destruct (sightings mac2 seen) eqn:Hs2;
          [by rewrite (Hnone _ Hs2) in Hidx|].
        destruct (Hsome mac2) as (idx & Hidx' & Hrange & _);
          [by rewrite Hs2|].
        rewrite Hidx in Hidx'. injection Hidx' as <-. lia.
      * intros Hidx [= <-]. exfalso.
        destruct (sightings mac1 seen) eqn:Hs1;
          [by rewrite (Hnone _ Hs1) in Hidx|].
        destruct (Hsome mac1) as (idx & Hidx' & Hrange & _);
          [by rewrite Hs1|].
        rewrite Hidx in Hidx'. injection Hidx' as <-. lia.
      * apply Hinj.
  - (* seen before *)
    destruct (Hsome mac) as (idx & Hidx & Hrange & Hrec); [by rewrite Hs|].
    unfold dict_contains. rewrite Hidx. simpl. rewrite Hrec, Hs. simpl.
    eexists. split; [done|]. split_and!; simpl.
    + intros mac'. rewrite sightings_app, sightings_singleton.
      destruct (decide (mac = mac')) as [<-|Hne].
      { by rewrite Hs. }
      rewrite app_nil_r. apply Hnone.
    + intros mac'. rewrite sightings_app, sightings_singleton.
      destruct (decide (mac = mac')) as [<-|Hne].
      * intros _. exists idx. rewrite dict_get_set_eq, Hs.
        split_and!; [done|lia|lia|]. symmetry.
        by apply (consolidate_snoc (first :: props)).
      * rewrite app_nil_r. intros Hne'.
        destruct (Hsome _ Hne') as (idx' & Hidx' & Hrange' & Hrec').
        exists idx'. split_and!; [done|lia|lia|].
        rewrite dict_get_set_ne; [done|].
        intros <-. apply Hne. by apply (Hinj _ _ idx).
    + apply Hinj.
Qed.

Lemma refactor_items_inv seen items st :
  refactor_inv seen st →
  ∃ st', refactor_items items st = Ok st'
         ∧ refactor_inv (seen ++ items) st'.
Proof.
  revert seen st. induction items as [|[mac prop] items IH]; intros seen st Hinv.
  - exists st. by rewrite app_nil_r.
  - destruct (refactor_step_inv seen st mac prop Hinv) as (st1 & Hstep & Hinv1).
    destruct (IH _ _ Hinv1) as (st2 & Hitems & Hinv2).
    exists st2. simpl. rewrite Hstep. simpl.
    by rewrite <-app_assoc in Hinv2.
Qed.

Lemma sightings_dict (eps : dict string Obs.t) mac :
  dict_wf eps → sightings mac eps = option_list (dict_get eps mac).
Proof.
  unfold dict_wf, dict_keys, sightings.
  induction eps as [|[mac' prop] eps IH]; csimpl; [done|].
  intros [Hnotin Hwf]%NoDup_cons. rewrite filter_cons. simpl.
  destruct (decide (mac' = mac)) as [->|Hne]; csimpl.
  - f_equal. rewrite IH by done.
    assert (dict_get eps mac = None) as ->; [|done].
    by apply dict_get_None.
  - by apply IH.
Qed.

Lemma sightings_all_items data devices mac :
  collected_wf data →
  sightings mac (all_items data devices) = omap (reported data mac) devices.
Proof.
  intros Hwf. unfold all_items, reported, dict_items.
  induction devices as [|device devices IH]; csimpl; [done|].
  rewrite sightings_app, IH, sightings_dict.
  - by destruct (dict_get _ mac).
  - destruct (data !! device) as [eps|] eqn:Hd; simpl.
    + by apply (Hwf device).
    + apply NoDup_nil_2.
Qed.

Lemma reporters_observations data devices mac :
  Forall2 (λ device prop, reported data mac device = Some prop)
    (reporters data devices mac) (omap (reported data mac) devices).
Proof.
  unfold reporters. induction devices as [|device devices IH]; csimpl.
  - constructor.
  - rewrite filter_cons.
    destruct (reported data mac device) as [prop|] eqn:Hr; simpl.
    + by constructor.
    + done.
Qed.

(** The loops never raise, and they end in the invariant over every
    visited item. *)
Lemma refactor_loop_inv devices data :
  ∃ st, refactor_loop devices data = Ok st
        ∧ refactor_inv (all_items data devices) st.
Proof.
  unfold refactor_loop. rewrite refactor_devices_items.
  apply (refactor_items_inv [] _ _ refactor_inv_init).
Qed.
End refactor_facts.

(** What the loops leave for a MAC that some listed device reports: the
    record under the MAC's index adds up the reports of the reporting
    entries of the device list, in list order. *)
Lemma refactor_loop_endpoint (devices : list string) (data : collected)
    (mac : string) :
  collected_wf data →
  reporters data devices mac ≠ [] →
  ∃ st idx e props,
    refactor_loop devices data = Ok st
    ∧ dict_get (mac_to_index st) mac = Some idx
    ∧ dict_get (refactored st) idx = Some e
    ∧ Forall2 (λ device prop, reported data mac device = Some prop)
        (reporters data devices mac) props
    ∧ consolidate props = Some e.
Proof.
  intros Hwf Hrep.
  destruct (refactor_loop_inv devices data) as (st & Hloop & _ & Hsome & _).
  pose proof (reporters_observations data devices mac) as Hobs.
  rewrite <-(sightings_all_items _ _ _ Hwf) in Hobs.
  destruct (Hsome mac) as (idx & Hidx & _ & Hrec).
  { intros Hnil. rewrite Hnil in Hobs. by apply Forall2_nil_inv_r in Hobs. }
  destruct (consolidate (sightings mac (all_items data devices))) as [e|] eqn:He.
  - by exists st, idx, e, (sightings mac (all_items data devices)).
  - destruct (sightings mac (all_items data devices)); [|done].
    by apply Forall2_nil_inv_r in Hobs.
Qed.

(** C1. For a MAC that listed devices report, the consolidated endpoint
    has its four sequences Switch, Interface, Speed and Duplex of one
    length, the number of reporting entries of the device list, and entry
    [i] of each is taken from the report of the [i]-th reporting entry, in
    device-list order. *)
Theorem refactor_data_parallel_sequences (devices : list string)
    (data : collected) (mac : string) :
  collected_wf data →
  reporters data devices mac ≠ [] →
  ∃ st idx e props,
    refactor_loop devices data = Ok st
    ∧ refactor_data devices data = Ok (refactored st)
    ∧ dict_get (mac_to_index st) mac = Some idx
    ∧ dict_get (refactored st) idx = Some e
    ∧ Forall2 (λ device prop, reported data mac device = Some prop)
        (reporters data devices mac) props
    ∧ Ep.Switch e = Obs.Switch <$> props
    ∧ Ep.Interface e = Obs.Interface <$> props
    ∧ Ep.Speed e = Obs.Speed <$> props
    ∧ Ep.Duplex e = Obs.Duplex <$> props
    ∧ length (Ep.Switch e) = length (reporters data devices mac)
    ∧ length (Ep.Interface e) = length (reporters data devices mac)
    ∧ length (Ep.Speed e) = length (reporters data devices mac)
    ∧ length (Ep.Duplex e) = length (reporters data devices mac).
Proof.
  intros Hwf Hrep.
  destruct (refactor_loop_endpoint devices data mac Hwf Hrep)
    as (st & idx & e & props & Hloop & Hidx & He & Hobs & Hcons).
  exists st, idx, e, props. unfold refactor_data. rewrite Hloop.
  pose proof (Forall2_length _ _ _ Hobs) as Hlen.
  destruct props as [|first props]; [done|]. injection Hcons as <-. simpl.
  rewrite !length_fmap. simpl in Hlen. by split_and!.
Qed.

(** C1, as stated, fails on a device list that names a device twice.
    With [SW1] listed twice and [mac1] learnt on [SW1] and on [SW2], two
    devices report the MAC, and each of the four sequences of its
    endpoint has three entries. *)
Lemma refactor_data_repeated_device :
  ∃ endpoints e,
    refactor_data ["SW1"; "SW2"; "SW1"] Sample.data = Ok endpoints
    ∧ dict_get endpoints 1 = Some e
    ∧ Ep.MAC_Address e = Sample.mac1
    ∧ length (remove_dups
                (reporters Sample.data ["SW1"; "SW2"; "SW1"] Sample.mac1))
      = 2
    ∧ length (Ep.Switch e) = 3
    ∧ length (Ep.Interface e) = 3
    ∧ length (Ep.Speed e) = 3
    ∧ length (Ep.Duplex e) = 3.
Proof.
  eexists _, _. split; [by vm_compute|]. split; [by vm_compute|].
  by vm_compute.
Qed.

(** C10. For a MAC that listed devices report, the scalar attributes of
    the consolidated endpoint in the result of [refactor_data] (MAC
    Address, Vendor, Hostname, IP Address, Vlan) are those of the first
    reporting entry of the device list; the later reports only extend the
    four sequences. *)
Theorem refactor_data_scalars_from_first (devices : list string)
    (data : collected) (mac first : string) (later : list string) :
  collected_wf data →
  reporters data devices mac = first :: later →
  ∃ st idx e prop props,
    refactor_loop devices data = Ok st
    ∧ refactor_data devices data = Ok (refactored st)
    ∧ dict_get (mac_to_index st) mac = Some idx
    ∧ dict_get (refactored st) idx = Some e
    ∧ reported data mac first = Some prop
    ∧ Forall2 (λ device prop', reported data mac device = Some prop')
        later props
    ∧ Ep.MAC_Address e = Obs.MAC_Address prop
    ∧ Ep.Vendor e = Obs.Vendor prop
    ∧ Ep.Hostname e = Obs.Hostname prop
    ∧ Ep.IP_Address e = Obs.IP_Address prop
    ∧ Ep.Vlan e = Obs.Vlan prop
    ∧ Ep.Switch e = Obs.Switch prop :: (Obs.Switch <$> props)
    ∧ Ep.Interface e = Obs.Interface prop :: (Obs.Interface <$> props)
    ∧ Ep.Speed e = Obs.Speed prop :: (Obs.Speed <$> props)
    ∧ Ep.Duplex e = Obs.Duplex prop :: (Obs.Duplex <$> props).
Proof.
  intros Hwf Hrep.
  destruct (refactor_loop_endpoint devices data mac Hwf)
    as (st & idx & e & props & Hloop & Hidx & He & Hobs & Hcons).
  { by rewrite Hrep. }
  rewrite Hrep in Hobs.
  apply Forall2_cons_inv_l in Hobs as (prop & props' & Hfirst & Hlater & ->).
  injection Hcons as <-. exists st, idx. eexists _, prop, props'.
  unfold refactor_data. rewrite Hloop. by split_and!.
Qed.

Lemma refactor_data_parallel_sequences_witness :
  collected_wf Sample.data
  ∧ reporters Sample.data Sample.devices Sample.mac1 = ["SW3"; "SW1"; "SW2"]
  ∧ ∃ st idx e props,
      refactor_loop Sample.devices Sample.data = Ok st
      ∧ refactor_data Sample.devices Sample.data = Ok (refactored st)
      ∧ dict_get (mac_to_index st) Sample.mac1 = Some idx
      ∧ dict_get (refactored st) idx = Some e
      ∧ Forall2 (λ device prop,
                   reported Sample.data Sample.mac1 device = Some prop)
          (reporters Sample.data Sample.devices Sample.mac1) props
      ∧ Ep.Switch e = Obs.Switch <$> props
      ∧ Ep.Interface e = Obs.Interface <$> props
      ∧ Ep.Speed e = Obs.Speed <$> props
      ∧ Ep.Duplex e = Obs.Duplex <$> props
      ∧ length (Ep.Switch e) = length (reporters Sample.data Sample.devices Sample.mac1)
      ∧ length (Ep.Interface e) = length (reporters Sample.data Sample.devices Sample.mac1)
      ∧ length (Ep.Speed e) = length (reporters Sample.data Sample.devices Sample.mac1)
      ∧ length (Ep.Duplex e) = length (reporters Sample.data Sample.devices Sample.mac1).
Proof.
  split; [compute_done|]. split; [by vm_compute|].
  apply refactor_data_parallel_sequences; [compute_done|by vm_compute].
Defined.

Lemma refactor_data_scalars_from_first_witness :
  collected_wf Sample.data
  ∧ reporters Sample.data Sample.devices Sample.mac1 = "SW3" :: ["SW1"; "SW2"]
  ∧ ∃ st idx e prop props,
      refactor_loop Sample.devices Sample.data = Ok st
      ∧ refactor_data Sample.devices Sample.data = Ok (refactored st)
      ∧ dict_get (mac_to_index st) Sample.mac1 = Some idx
      ∧ dict_get (refactored st) idx = Some e
      ∧ reported Sample.data Sample.mac1 "SW3" = Some prop
      ∧ Forall2 (λ device prop',
                   reported Sample.data Sample.mac1 device = Some prop')
          ["SW1"; "SW2"] props
      ∧ Ep.MAC_Address e = Obs.MAC_Address prop
      ∧ Ep.Vendor e = Obs.Vendor prop
      ∧ Ep.Hostname e = Obs.Hostname prop
      ∧ Ep.IP_Address e = Obs.IP_Address prop
      ∧ Ep.Vlan e = Obs.Vlan prop
      ∧ Ep.Switch e = Obs.Switch prop :: (Obs.Switch <$> props)
      ∧ Ep.Interface e = Obs.Interface prop :: (Obs.Interface <$> props)
      ∧ Ep.Speed e = Obs.Speed prop :: (Obs.Speed <$> props)
      ∧ Ep.Duplex e = Obs.Duplex prop :: (Obs.Duplex <$> props).
Proof.
  split; [compute_done|]. split; [by vm_compute|].
  apply refactor_data_scalars_from_first; [compute_done|by vm_compute].
Defined.

Example refactor_data_sample :
  refactor_data Sample.devices Sample.data
  = Ok [(1, {| Ep.MAC_Address := Sample.mac1; Ep.Vendor := "Unknown";
               Ep.Hostname := "host-SW3"; Ep.IP_Address := "Unknown";
               Ep.Vlan := "10";
               Ep.Switch := ["SW3"; "SW1"; "SW2"];
               Ep.Interface := ["Te1/1/4"; "Gi1/0/1"; "Te1/1/1"];
               Ep.Speed := ["10G"; "a-1000"; "10G"];
               Ep.Duplex := ["a-full"; "a-full"; "a-full"] |});
        (2, {| Ep.MAC_Address := Sample.mac2; Ep.Vendor := "Unknown";
               Ep.Hostname := "host-SW2"; Ep.IP_Address := "10.0.0.2";
               Ep.Vlan := "10";
               Ep.Switch := ["SW2"]; Ep.Interface := ["Gi1/0/2"];
               Ep.Speed := ["a-100"]; Ep.Duplex := ["a-full"] |})].
Proof. by vm_compute. Qed.

(** ** Dictionaries built by a loop of assignments *)

Section dict_fold_facts.
Context {K X V : Type} `{EqDecision K}.
Implicit Types (d : dict K V) (items : list (K * X)) (f : K → X → V).

Lemma dict_contains_false d k : dict_contains d k = false ↔ k ∉ dict_keys d.
Proof.
  rewrite <-dict_get_None. unfold dict_contains.
  by destruct (dict_get d k).
Qed.

Lemma dict_contains_true d k : dict_contains d k = true ↔ k ∈ dict_keys d.
Proof.
  destruct (dict_contains d k) eqn:Hc.
  - split; [intros _|done]. destruct (decide (k ∈ dict_keys d)); [done|].
    apply dict_contains_false in n. congruence.
  - apply dict_contains_false in Hc. split; [done|]. by intros ?.
Qed.

Lemma dict_fold_set_get f items d k :
  NoDup items.*1 →
  dict_get (foldl (λ d '(k, x), dict_set d k (f k x)) d items) k
  = match dict_get items k with
    | Some x => Some (f k x)
    | None => dict_get d k
    end.
Proof.
  revert d. induction items as [|[k1 x1] items IH]; intros d; csimpl; [done|].
  intros [Hk1 Hnd]%NoDup_cons. rewrite IH by done.
  destruct (decide (k1 = k)) as [->|Hne].
  - assert (dict_get items k = None) as ->; [by apply dict_get_None|].
    by rewrite dict_get_set_eq.
  - by rewrite dict_get_set_ne.
Qed.

Lemma dict_fold_set_keys f items d :
  NoDup items.*1 →
  (∀ k, k ∈ items.*1 → k ∉ dict_keys d) →
  dict_keys (foldl (λ d '(k, x), dict_set d k (f k x)) d items)
  = dict_keys d ++ items.*1.
Proof.
  revert d. induction items as [|[k1 x1] items IH]; intros d; csimpl.
  - by rewrite app_nil_r.
  - intros [Hk1 Hnd]%NoDup_cons Hfresh. rewrite IH; [|done|].
    + rewrite dict_keys_set.
      assert (dict_contains d k1 = false) as ->.
      { apply dict_contains_false, Hfresh. left. }
      by rewrite <-app_assoc.
    + intros k Hk. rewrite dict_keys_set.
      assert (dict_contains d k1 = false) as ->.
      { apply dict_contains_false, Hfresh. left. }
      rewrite elem_of_app, list_elem_of_singleton. intros [Hin| ->].
      * apply (Hfresh k); [by right|done].
      * done.
Qed.

Lemma dict_fold_set_filter f (keep : K → bool) items d :
  foldl (λ d '(k, x), if keep k then dict_set d k (f k x) else d) d items
  = foldl (λ d '(k, x), dict_set d k (f k x)) d
      (filter (λ item, keep item.1 = true) items).
Proof.
  revert d. induction items as [|[k1 x1] items IH]; intros d; csimpl; [done|].
  rewrite filter_cons. simpl. destruct (keep k1) eqn:Hkeep.
  - rewrite decide_True by done. apply IH.
  - rewrite decide_False by done. apply IH.
Qed.

Lemma dict_get_filter_keys (P : K → Prop) `{∀ k, Decision (P k)} items k :
  dict_get (filter (λ item, P item.1) items) k
  = if decide (P k) then dict_get items k else None.
Proof.
  induction items as [|[k1 x1] items IH]; csimpl.
  - by destruct (decide (P k)).
  - rewrite filter_cons. simpl. destruct (decide (P k1)) as [HP|HP]; simpl.
    + destruct (decide (k1 = k)) as [->|Hne]; [by rewrite decide_True|done].
    + rewrite IH. destruct (decide (k1 = k)) as [->|Hne]; [|done].
      by rewrite !decide_False.
Qed.

Lemma filter_keys_fmap (P : K → Prop) `{∀ k, Decision (P k)} items :
  (filter (λ item, P item.1) items).*1 = filter P items.*1.
Proof.
  induction items as [|[k1 x1] items IH]; csimpl; [done|].
  rewrite !filter_cons. simpl. destruct (decide (P k1)); csimpl; by rewrite IH.
Qed.
End dict_fold_facts.

(** ** [compare_snapshots] *)

Section compare_facts.
Import CompareEvent.
Implicit Types (pre post : dict string Ep.t) (mac : string).

Lemma compare_snapshots_filter pre post :
  compare_snapshots pre post
  = foldl (λ compare_data '(mac, e), dict_set compare_data mac (post_row mac e))
      (foldl (λ compare_data '(mac, e),
                dict_set compare_data mac (pre_row post mac e)) [] pre)
      (filter (λ item, item.1 ∉ dict_keys pre) post).
Proof.
  unfold compare_snapshots, dict_items.
  rewrite (dict_fold_set_filter post_row (λ mac, negb (dict_contains pre mac))).
  f_equal. apply list_filter_iff. intros [mac e]. simpl.
  by rewrite negb_true_iff, dict_contains_false.
Qed.

Lemma new_items_keys pre post :
  (filter (λ item, item.1 ∉ dict_keys pre) post).*1
  = filter (λ mac, mac ∉ dict_keys pre) (dict_keys post).
Proof.
  pose proof (filter_keys_fmap (λ mac, mac ∉ dict_keys pre) post) as Heq.
  exact Heq.
Qed.

Lemma new_items_get pre post mac :
  dict_get (filter (λ item, item.1 ∉ dict_keys pre) post) mac
  = if decide (mac ∉ dict_keys pre) then dict_get post mac else None.
Proof.
  pose proof (dict_get_filter_keys (λ mac, mac ∉ dict_keys pre) post mac)
    as Heq.
  exact Heq.
Qed.

Lemma new_items_wf pre post :
  dict_wf post → NoDup (filter (λ item, item.1 ∉ dict_keys pre) post).*1.
Proof. intros Hpost. rewrite new_items_keys. by apply NoDup_filter. Qed.

(** The row stored under a MAC. *)
Lemma compare_snapshots_get pre post mac :
  dict_wf pre → dict_wf post →
  dict_get (compare_snapshots pre post) mac
  = match dict_get pre mac with
    | Some e => Some (pre_row post mac e)
    | None => post_row mac <$> dict_get post mac
    end.
Proof.
  intros Hpre Hpost. rewrite compare_snapshots_filter.
  rewrite dict_fold_set_get by by apply new_items_wf.
  rewrite new_items_get, dict_fold_set_get by done. simpl.
  destruct (dict_get pre mac) as [e|] eqn:Hmac.
  - rewrite decide_False; [done|].
    intros Hnotin. apply dict_get_None in Hnotin. congruence.
  - rewrite decide_True by by apply dict_get_None.
    by destruct (dict_get post mac).
Qed.

(** The order of the rows. *)
Lemma compare_snapshots_keys pre post :
  dict_wf pre → dict_wf post →
  dict_keys (compare_snapshots pre post)
  = dict_keys pre ++ filter (λ mac, mac ∉ dict_keys pre) (dict_keys post).
Proof.
  intros Hpre Hpost. rewrite compare_snapshots_filter.
  assert (dict_keys (foldl (λ compare_data '(mac, e),
            dict_set compare_data mac (pre_row post mac e)) [] pre)
          = dict_keys pre) as Hfirst.
  { rewrite dict_fold_set_keys; [done..|]. intros ? _. apply not_elem_of_nil. }
  rewrite dict_fold_set_keys.
  - by rewrite Hfirst, new_items_keys.
  - by apply new_items_wf.
  - intros mac. rewrite Hfirst, new_items_keys.
    by intros [? _]%list_elem_of_filter.
Qed.
End compare_facts.

Import CompareEvent.

(** C2. [compare_snapshots] gives one row per MAC of either snapshot: the
    rows of the MACs of Pre come first, in the order Pre holds them, then
    the rows of the MACs only Post has, in the order Post holds them; a row
    says [MAC Learnt] when the MAC is in both snapshots, [MAC Not Learnt]
    when only Pre has it, and [New MAC] when only Post has it. *)
Theorem compare_snapshots_records (pre post : dict string Ep.t) :
  dict_wf pre → dict_wf post →
  dict_keys (compare_snapshots pre post)
  = dict_keys pre ++ filter (λ mac, mac ∉ dict_keys pre) (dict_keys post)
  ∧ NoDup (dict_keys (compare_snapshots pre post))
  ∧ (∀ mac, mac ∈ dict_keys (compare_snapshots pre post)
            ↔ mac ∈ dict_keys pre ∨ mac ∈ dict_keys post)
  ∧ (∀ mac, mac ∈ dict_keys (compare_snapshots pre post) →
       ∃ r, dict_get (compare_snapshots pre post) mac = Some r
            ∧ value (Address r) = Str mac
            ∧ value (Observation r)
              = observation_of (dict_contains pre mac)
                  (dict_contains post mac)).
Proof.
  intros Hpre Hpost.
  pose proof (compare_snapshots_keys pre post Hpre Hpost) as Hkeys.
  assert (∀ mac, mac ∈ dict_keys (compare_snapshots pre post)
                 ↔ mac ∈ dict_keys pre ∨ mac ∈ dict_keys post) as Hmem.
  { intros mac. rewrite Hkeys, elem_of_app, list_elem_of_filter.
    destruct (decide (mac ∈ dict_keys pre)); tauto. }
  split_and!; [done| |done|].
  - rewrite Hkeys. apply NoDup_app. split_and!; [done| |by apply NoDup_filter].
    by intros mac ? [? _]%list_elem_of_filter.
  - intros mac Hmac%Hmem. rewrite compare_snapshots_get by done.
    unfold dict_contains.
    destruct (dict_get pre mac) as [e|] eqn:Hp.
    + eexists. split; [done|]. unfold pre_row.
      by destruct (dict_get post mac).
    + destruct Hmac as [Hin|Hin]; [by apply dict_get_None in Hp|].
      destruct (dict_get post mac) as [e|] eqn:Hq.
      * by eexists.
      * by apply dict_get_None in Hq.
Qed.

(** C3. For a MAC of both snapshots, the cells Post-Speed, Post-Duplex,
    Post-Vlan, Post-IP and Post-Hostname of its row hold the Post value,
    with style Normal when the Pre value equals it and Bad when it
    differs; the cells Post-Device and Post-Interface hold the Post value
    with style Normal whatever the Pre value. *)
Theorem compare_snapshots_attributes (pre_data post_data : dict string Ep.t)
    (mac : string) (pre post : Ep.t) :
  dict_wf pre_data → dict_wf post_data →
  dict_get pre_data mac = Some pre →
  dict_get post_data mac = Some post →
  let style {A} `{EqDecision A} (x y : A) :=
    if decide (x = y) then ftNormal else ftBad in
  ∃ r,
    dict_get (compare_snapshots pre_data post_data) mac = Some r
    ∧ Post_Speed r
      = {| value := Strs (Ep.Speed post);
           cellFormat := style (Ep.Speed pre) (Ep.Speed post) |}
    ∧ Post_Duplex r
      = {| value := Strs (Ep.Duplex post);
           cellFormat := style (Ep.Duplex pre) (Ep.Duplex post) |}
    ∧ Post_Vlan r
      = {| value := Str (Ep.Vlan post);
           cellFormat := style (Ep.Vlan pre) (Ep.Vlan post) |}
    ∧ Post_IP r
      = {| value := Str (Ep.IP_Address post);
           cellFormat := style (Ep.IP_Address pre) (Ep.IP_Address post) |}
    ∧ Post_Hostname r
      = {| value := Str (Ep.Hostname post);
           cellFormat := style (Ep.Hostname pre) (Ep.Hostname post) |}
    ∧ Post_Device r
      = {| value := Strs (Ep.Switch post); cellFormat := ftNormal |}
    ∧ Post_Interface r
      = {| value := Strs (Ep.Interface post); cellFormat := ftNormal |}.
Proof.
  intros Hpre Hpost Hp Hq style.
  rewrite compare_snapshots_get, Hp by done. eexists. split; [done|].
  unfold pre_row. rewrite Hq. unfold match_attribute, style. simpl.
  split_and!; try done; f_equal; repeat case_decide; congruence.
Qed.

Lemma compare_snapshots_records_witness :
  dict_wf Sample.pre_snapshot ∧ dict_wf Sample.post_snapshot
  ∧ dict_keys (compare_snapshots Sample.pre_snapshot Sample.post_snapshot)
    = dict_keys Sample.pre_snapshot
      ++ filter (λ mac, mac ∉ dict_keys Sample.pre_snapshot)
           (dict_keys Sample.post_snapshot).
Proof.
  split; [compute_done|]. split; [compute_done|].
  apply (compare_snapshots_records Sample.pre_snapshot Sample.post_snapshot);
    compute_done.
Defined.

Lemma compare_snapshots_attributes_witness :
  dict_wf Sample.pre_snapshot ∧ dict_wf Sample.post_snapshot
  ∧ ∃ r,
      dict_get (compare_snapshots Sample.pre_snapshot Sample.post_snapshot)
        Sample.mac3 = Some r
      ∧ Post_Speed r = {| value := Strs ["10G"]; cellFormat := ftBad |}
      ∧ Post_Vlan r = {| value := Str "10"; cellFormat := ftNormal |}
      ∧ Post_Device r = {| value := Strs ["SW1"]; cellFormat := ftNormal |}.
Proof.
  split; [compute_done|]. split; [compute_done|].
  destruct (compare_snapshots_attributes
              Sample.pre_snapshot Sample.post_snapshot Sample.mac3
              (Sample.endpoint Sample.mac3 "SW1" "Gi1/0/3" "1G" "10.0.0.3")
              (Sample.endpoint Sample.mac3 "SW1" "Gi1/0/3" "10G" "10.0.0.3"))
    as (r & Hr & Hspeed & _ & Hvlan & _ & _ & Hdevice & _);
    [compute_done|compute_done|reflexivity|reflexivity|].
  exists r. split; [exact Hr|]. split; [exact Hspeed|].
  split; [exact Hvlan|exact Hdevice].
Defined.

(** The scenario of the specification: a lost MAC, a new MAC, and a MAC
    whose speed changed. *)
Example compare_snapshots_sample :
  (λ '(mac, r), (mac, value (Observation r), Post_Speed r))
    <$> compare_snapshots Sample.pre_snapshot Sample.post_snapshot
  = [(Sample.mac1, Str "MAC Not Learnt", bad (Str "???"));
     (Sample.mac3, Str "MAC Learnt", bad (Strs ["10G"]));
     (Sample.mac2, Str "New MAC", normal (Strs ["1G"]))].
Proof. by vm_compute. Qed.

(** ** [scan_snapshots] *)

Section scan_facts.
Import Form.
Implicit Types (f : form) (file : string) (files : list string).

Lemma match_here_group p s :
  Re.match_here (Re.DotStarGroup :: p) s
  = match
      match s with
      | String a s' =>
          if Re.dot a then
            match Re.match_here (Re.DotStarGroup :: p) s' with
            | Some (g :: gs) => Some (String a g :: gs)
            | _ => None
            end
          else None
      | EmptyString => None
      end
    with
    | Some groups => Some groups
    | None =>
        match Re.match_here p s with
        | Some gs => Some (EmptyString :: gs)
        | None => None
        end
    end.
Proof. by destruct s. Qed.

Lemma match_here_groups p s groups :
  Re.match_here p s = Some groups → length groups = Re.group_count p.
Proof.
  revert s groups. induction p as [|a p IH]; intros s groups.
  - by intros [= <-].
  - destruct a; simpl.
    + destruct s as [|b s]; [done|]. case_bool_decide; [apply IH|done].
    + destruct s as [|b s]; [done|]. destruct (Re.dot b); [apply IH|done].
    + revert groups.
      change (∀ groups, Re.match_here (Re.DotStarGroup :: p) s = Some groups
                        → length groups = S (Re.group_count p)).
      induction s as [|b s IHs]; intros groups; rewrite match_here_group.
      * destruct (Re.match_here p "") as [gs|] eqn:Hp; [|done].
        intros [= <-]. simpl. f_equal. by apply (IH "").
      * destruct (Re.dot b).
        -- destruct (Re.match_here (Re.DotStarGroup :: p) s)
             as [[|g gs]|] eqn:Hs.
           ++ by specialize (IHs _ eq_refl).
           ++ intros [= <-]. by rewrite <-(IHs _ eq_refl).
           ++ destruct (Re.match_here p (String b s)) as [gs|] eqn:Hp; [|done].
              intros [= <-]. simpl. f_equal. by apply (IH (String b s)).
        -- destruct (Re.match_here p (String b s)) as [gs|] eqn:Hp; [|done].
           intros [= <-]. simpl. f_equal. by apply (IH (String b s)).
Qed.

Lemma search_groups p s groups :
  Re.search p s = Some groups → length groups = Re.group_count p.
Proof.
  induction s as [|b s IH]; simpl.
  - destruct (Re.match_here p "") eqn:Hm; [|done].
    intros [= <-]. by apply (match_here_groups p "").
  - destruct (Re.match_here p (String b s)) eqn:Hm; [|done].
    intros [= <-]. by apply (match_here_groups p (String b s)).
Qed.

(** A file name stands for a snapshot exactly when the pattern is found
    in it. *)
Lemma snapshot_of_file_None file :
  snapshot_of_file file = None ↔ Re.search snapshot_pattern file = None.
Proof.
  unfold snapshot_of_file.
  destruct (Re.search snapshot_pattern file) as [groups|] eqn:Hs; [|done].
  apply search_groups in Hs.
  destruct groups as [|g1 [|g2 [|g3 [|g4 groups]]]]; done.
Qed.

Lemma scan_step_unfold f file :
  scan_step f file
  = match snapshot_of_file file with
    | Some slot => add_snapshot slot f
    | None => f
    end.
Proof. unfold scan_step, scan_file. by destruct (snapshot_of_file file). Qed.

Lemma scan_loop_filter f files :
  foldl scan_step f files
  = foldl scan_step f (filter (λ file, is_Some (snapshot_of_file file)) files).
Proof.
  revert f. induction files as [|file files IH]; intros f; [done|].
  rewrite filter_cons. simpl. rewrite scan_step_unfold at 1.
  destruct (snapshot_of_file file) as [slot|] eqn:Hfile.
  - rewrite decide_True by eauto. simpl.
    by rewrite scan_step_unfold, Hfile.
  - rewrite decide_False by by intros [? ?]. apply IH.
Qed.

Lemma scan_loop_table f files :
  snapshots_table (foldl scan_step f files)
  = snapshots_table f
    ++ omap (λ file, (λ slot, (name slot, type slot, timestamp slot))
                       <$> snapshot_of_file file) files.
Proof.
  revert f. induction files as [|file files IH]; intros f; csimpl.
  - by rewrite app_nil_r.
  - rewrite IH, scan_step_unfold.
    destruct (snapshot_of_file file) as [slot|]; simpl; [|done].
    by rewrite <-app_assoc.
Qed.
End scan_facts.

Import Form.

(** C8, as the code has it.  A file whose name does not match the snapshot
    pattern raises nothing and leaves the form as it is, log included: the
    scan gives what it gives on the matching files alone, and it adds one
    row for every matching file, in the order of the listing. *)
Theorem scan_snapshots_skips_unmatched (snapshots_path : string)
    (files : list string) (f : form) :
  (∀ file f', Re.search snapshot_pattern file = None →
              scan_file file f' = Ok f' ∧ scan_step f' file = f')
  ∧ scan_snapshots snapshots_path (Some files) f
    = scan_snapshots snapshots_path
        (Some (filter (λ file, is_Some (snapshot_of_file file)) files)) f
  ∧ snapshots_table (scan_snapshots snapshots_path (Some files) f)
    = snapshots_table f
      ++ omap (λ file, (λ slot, (name slot, type slot, timestamp slot))
                         <$> snapshot_of_file file) files.
Proof.
  split_and!.
  - intros file f' Hfile%snapshot_of_file_None.
    by rewrite scan_step_unfold; unfold scan_file; rewrite Hfile.
  - unfold scan_snapshots. apply scan_loop_filter.
  - unfold scan_snapshots. by rewrite scan_loop_table.
Qed.

(** C8, as stated, fails on the log: scanning a directory that holds only
    [notes.txt] leaves no log record beyond those of scanning an empty
    directory. *)
Lemma scan_snapshots_unmatched_not_logged :
  Re.search snapshot_pattern "notes.txt" = None
  ∧ ¬ ∃ record,
        record ∈ Form.log (scan_snapshots "Snapshots" (Some ["notes.txt"])
                             empty_form)
        ∧ record ∉ Form.log (scan_snapshots "Snapshots" (Some [])
                               empty_form).
Proof.
  split; [by vm_compute|]. intros (record & Hin & Hnotin). by apply Hnotin.
Qed.

Example scan_snapshots_sample :
  scan_snapshots "Snapshots"
    (Some ["notes.txt"; "[Pre]_[core]_[2024-01-01_10.30].json"]) empty_form
  = {| snapshots_table := [("core", "Pre", "2024-01-01_10.30")];
       snapshots_table_row := 1;
       Form.log :=
         [logging.debug "Scanning snapshots in: Snapshots";
          logging.debug "Snapshot added: core - Pre - 2024-01-01_10.30"] |}.
Proof. by vm_compute. Qed.

Lemma scan_snapshots_skips_unmatched_witness :
  Re.search snapshot_pattern "notes.txt" = None
  ∧ scan_step empty_form "notes.txt" = empty_form.
Proof.
  split; [by vm_compute|].
  apply (proj1 (scan_snapshots_skips_unmatched "Snapshots" [] empty_form)
           "notes.txt" empty_form).
  by vm_compute.
Defined.

(** ** [load_mac_vendor] *)

(** What decides the refresh: the absence of the cache file, or the age of
    the module's source file. *)
Lemma refresh_condition_module_age `{Platform} (w : world) (m : file) :
  files w !! module_file = Some m →
  refresh_condition w
  = Ok (bool_decide (files w !! vendor_file = None
                     ∨ (90 < days_since w (mtime m))%Z)).
Proof.
  intros Hm. unfold refresh_condition, getmtime. rewrite Hm.
  case_bool_decide as Hc; simpl.
  - by rewrite bool_decide_eq_true_2 by by left.
  - f_equal. apply bool_decide_ext. tauto.
Qed.

(** C4 fails on the code.  With a cache file written 200 days ago and a
    module file touched yesterday, [load_mac_vendor] fetches nothing: it
    leaves the world as it is and loads the old cache. *)
Theorem load_mac_vendor_ignores_cache_age :
  let w := Sample.stale_cache_world in
  files w !! @vendor_file Sample.platform = Some Sample.old_cache
  ∧ (90 < @days_since w (mtime Sample.old_cache))%Z
  ∧ @refresh_condition Sample.platform w = Ok false
  ∧ @load_mac_vendor Sample.platform w = Ok ({[ "AABBCC" := "Acme" ]}, w).
Proof. by vm_compute. Qed.

(** ** [create_task], [thread_executor] and [run] *)

Section worker_facts.
Context `{Platform}.
Implicit Types (oui : gmap string string) (data : collected) (w : world).
Implicit Types (device : string) (devices schedule : list string).

Lemma log_only_refl w : log_only w w.
Proof. done. Qed.

Lemma log_only_trans w1 w2 w3 :
  log_only w1 w2 → log_only w2 w3 → log_only w1 w3.
Proof. unfold log_only. intros (?&?&?) (?&?&?). split_and!; congruence. Qed.

Lemma log_only_info w msg : log_only w (logging_info w msg).
Proof. done. Qed.

Lemma log_only_error w msg : log_only w (logging_error w msg).
Proof. done. Qed.

(** A task writes its one entry of the shared dict, if it gets that far,
    and touches nothing else but the log. *)
Lemma create_task_effect oui device data w :
  (create_task oui device (data, w)).1.1
  = match task_endpoints oui device with
    | Some endpoint_data => <[device := endpoint_data]> data
    | None => data
    end
  ∧ log_only w (create_task oui device (data, w)).1.2.
Proof.
  unfold create_task, task_endpoints.
  destruct (GenericHandler device) as [handler|e]; [|done].
  destruct (query_tables handler) as [[[mac_data arp_data] iface_data]|e];
    [|done].
  by destruct (collect_endpoints _ _ _ _ _ _).
Qed.

Local Arguments create_task : simpl never.
Local Arguments thread_executor : simpl never.

Lemma run_tasks_effect oui schedule data w exceptions device :
  let acc := foldl (run_task oui) ((data, w), exceptions) schedule in
  acc.1.1 !! device
  = (if decide (device ∈ schedule) then
       match task_endpoints oui device with
       | Some endpoint_data => Some endpoint_data
       | None => data !! device
       end
     else data !! device)
  ∧ log_only w acc.1.2.
Proof.
  revert data w exceptions.
  induction schedule as [|d schedule IH]; intros data w exceptions; simpl.
  { done. }
  destruct (create_task_effect oui d data w) as [Hdata Hw].
  destruct (run_task oui (data, w, exceptions) d)
    as [[data' w'] exceptions'] eqn:Hrun.
  unfold run_task in Hrun. simpl in Hrun.
  destruct (create_task oui d (data, w)) as [[data'' w''] exc].
  simpl in *. injection Hrun as -> -> <-.
  destruct (IH data' w' (<[d:=exc]> exceptions)) as [IHdata IHw].
  split; [|by eapply log_only_trans]. rewrite IHdata, Hdata.
  destruct (decide (device = d)) as [->|Hne].
  - rewrite (decide_True (P := d ∈ d :: schedule)) by left.
    destruct (task_endpoints oui d) as [endpoint_data|].
    + rewrite lookup_insert_eq. by destruct (decide (d ∈ schedule)).
    + by destruct (decide (d ∈ schedule)).
  - assert (match task_endpoints oui d with
            | Some endpoint_data => <[d:=endpoint_data]> data
            | None => data
            end !! device = data !! device) as ->.
    { destruct (task_endpoints oui d); [|done]. by rewrite lookup_insert_ne. }
    destruct (decide (device ∈ schedule)) as [Hin|Hnotin].
    + by rewrite decide_True by by right.
    + rewrite decide_False; [done|]. by intros [?|?]%elem_of_cons.
Qed.

Lemma report_exceptions_effect (futures : list (string * option exn)) data w :
  let st := foldl (λ '(data, w) '(device, exception),
                     match exception with
                     | Some e =>
                         (data, logging_error w
                                  ("Exception for " +:+ device +:+ ": "
                                     +:+ exn_str e))
                     | None => (data, w)
                     end) (data, w) futures in
  st.1 = data ∧ log_only w st.2.
Proof.
  revert w. induction futures as [|[device [e|]] futures IH]; intros w; simpl.
  - done.
  - destruct (IH (logging_error w ("Exception for " +:+ device +:+ ": "
                                     +:+ exn_str e))) as [? ?].
    split; [done|]. by eapply log_only_trans; [apply log_only_error|].
  - apply IH.
Qed.

(** What the pool leaves in the shared dict, whatever the order in which
    the tasks finish. *)
Lemma thread_executor_effect oui schedule devices data w device :
  (thread_executor oui schedule devices (data, w)).1 !! device
  = (if decide (device ∈ schedule) then
       match task_endpoints oui device with
       | Some endpoint_data => Some endpoint_data
       | None => data !! device
       end
     else data !! device)
  ∧ log_only w (thread_executor oui schedule devices (data, w)).2.
Proof.
  unfold thread_executor.
  destruct (run_tasks_effect oui schedule data w ∅ device) as [Hdata Hw].
  destruct (foldl (run_task oui) (data, w, ∅) schedule)
    as [[data' w'] exceptions]. simpl in *.
  match goal with |- context [foldl ?f (data', w') ?l] =>
    destruct (report_exceptions_effect l data' w') as [Hd Hl] end.
  simpl in *. rewrite Hd. split; [done|]. by eapply log_only_trans.
Qed.

Lemma refactor_devices_cons data d devices st :
  refactor_devices data (d :: devices) st
  = (st' ← refactor_items (dict_items (default [] (data !! d))) st;
     refactor_devices data devices st').
Proof. done. Qed.

(** Consolidation reads the shared dict at the listed devices only, and a
    device without an entry adds nothing. *)
Lemma refactor_devices_without data1 data2 devices device st :
  data1 !! device = None →
  (∀ d, d ∈ devices → d ≠ device → data1 !! d = data2 !! d) →
  refactor_devices data1 devices st
  = refactor_devices data2 (filter (λ d, d ≠ device) devices) st.
Proof.
  intros Hnone. revert st.
  induction devices as [|d devices IH]; intros st Hsame; [done|].
  rewrite filter_cons. destruct (decide (d ≠ device)) as [Hne|Heq%dec_stable].
  - rewrite !refactor_devices_cons.
    assert (data1 !! d = data2 !! d) as Hd.
    { apply Hsame; [left|done]. }
    unfold dict in *. rewrite <-Hd.
    destruct (refactor_items _ st) as [st'|]; simpl; [|done].
    apply IH. intros ???. apply Hsame; [by right|done].
  - subst d. rewrite refactor_devices_cons. unfold dict in *.
    rewrite Hnone. simpl.
    apply IH. intros ???. apply Hsame; [by right|done].
Qed.

Lemma nonempty_lines_without lines device :
  nonempty_lines (filter (λ line, line ≠ device) lines)
  = filter (λ d, d ≠ device) (nonempty_lines lines).
Proof.
  unfold nonempty_lines. rewrite !list_filter_filter.
  apply list_filter_iff. tauto.
Qed.
End worker_facts.

Section run_facts.
Context `{Platform}.
Implicit Types (oui : gmap string string) (data : collected) (w : world).
Implicit Types (device name type : string) (lines schedule : list string).

Local Arguments thread_executor : simpl never.
Local Arguments load_mac_vendor : simpl never.
Local Arguments refactor_data : simpl never.

Lemma save_snapshot_unfold type name endpoints w :
  save_snapshot type name endpoints w
  = match snapshot_access type name (now w) with
    | Raise e => Raise e
    | Ok _ =>
        Ok (snapshot_saved type name endpoints
              (logging_info w "Saving snapshot to disk..."))
    end.
Proof.
  unfold save_snapshot, snapshot_access, snapshot_saved, snapshot_filename.
  simpl.
  destruct (if path_exists _ then _ else _) as [[]|e]; simpl; [|done].
  by destruct (open_write _) as [[]|e].
Qed.

Lemma run_unfold name type lines schedule w :
  run name type lines schedule w
  = match load_mac_vendor (logging_info w "Snapshot worker started.") with
    | Raise e => Raise e
    | Ok (oui, w0) =>
        let st := thread_executor oui schedule (nonempty_lines lines) (∅, w0) in
        match refactor_data (nonempty_lines lines) st.1 with
        | Raise e => Raise e
        | Ok endpoints =>
            match snapshot_access type name (now st.2) with
            | Raise e => Raise e
            | Ok _ =>
                Ok (logging_info
                      (snapshot_saved type name endpoints
                         (logging_info
                            (logging_info st.2 "Refactoring snapshot data...")
                            "Saving snapshot to disk..."))
                      "Snapshot worker finished.")
            end
        end
    end.
Proof.
  unfold run.
  destruct (load_mac_vendor _) as [[oui w0]|e]; simpl; [|done].
  destruct (thread_executor _ _ _ _) as [data wa]. simpl.
  destruct (refactor_data _ _); simpl; [|done].
  rewrite save_snapshot_unfold. simpl.
  by destruct (snapshot_access _ _ _) as [[]|e].
Qed.

(** Loading the vendor registry leaves the clock and the emitted signals
    as they are. *)
Lemma load_mac_vendor_world w oui w0 :
  load_mac_vendor w = Ok (oui, w0) → now w0 = now w ∧ emitted w0 = emitted w.
Proof.
  unfold load_mac_vendor.
  destruct (refresh_condition w) as [[|]|]; simpl; [| |done].
  - destruct (requests_get oui_url) as [oui_text|]; simpl; [|done].
    destruct (load_vendor_file _); simpl; [|done]. by intros [= _ <-].
  - destruct (load_vendor_file _); simpl; [|done]. by intros [= _ <-].
Qed.

Lemma refactor_data_ok devices data :
  ∃ endpoints, refactor_data devices data = Ok endpoints.
Proof.
  unfold refactor_data.
  destruct (refactor_loop_inv devices data) as (st & -> & _). by eexists.
Qed.

(** Consolidation of what the pool leaves does not see a device whose task
    stored nothing, nor the order in which the tasks finished. *)
Lemma refactor_data_without oui device devices schedule schedule' w w' :
  task_endpoints oui device = None →
  schedule ≡ₚ devices →
  schedule' ≡ₚ filter (λ d, d ≠ device) devices →
  refactor_data devices (thread_executor oui schedule devices (∅, w)).1
  = refactor_data (filter (λ d, d ≠ device) devices)
      (thread_executor oui schedule'
         (filter (λ d, d ≠ device) devices) (∅, w')).1.
Proof.
  intros Hnone Hs Hs'. unfold refactor_data, refactor_loop.
  rewrite (refactor_devices_without _
             (thread_executor oui schedule'
                (filter (λ d, d ≠ device) devices) (∅, w')).1 _ device); [done| |].
  - destruct (thread_executor_effect oui schedule devices ∅ w device) as [-> _].
    rewrite Hnone, lookup_empty. by destruct (decide _).
  - intros d Hd Hne.
    destruct (thread_executor_effect oui schedule devices ∅ w d) as [-> _].
    destruct (thread_executor_effect oui schedule'
                (filter (λ d, d ≠ device) devices) ∅ w' d) as [-> _].
    rewrite decide_True by by rewrite Hs.
    rewrite decide_True; [done|].
    rewrite Hs'. by apply list_elem_of_filter.
Qed.
End run_facts.

Section log_facts.
Context `{Platform}.
Implicit Types (oui : gmap string string) (data : collected) (w : world).
Implicit Types (device : string) (devices schedule : list string).

Lemma log_extends_refl w : log_extends w w.
Proof. exists []. by rewrite app_nil_r. Qed.

Lemma log_extends_trans w1 w2 w3 :
  log_extends w1 w2 → log_extends w2 w3 → log_extends w1 w3.
Proof.
  intros [l1 H1] [l2 H2]. exists (l1 ++ l2). by rewrite H2, H1, app_assoc.
Qed.

Lemma log_extends_info w msg : log_extends w (logging_info w msg).
Proof. by eexists. Qed.

Lemma log_extends_error w msg : log_extends w (logging_error w msg).
Proof. by eexists. Qed.

Lemma log_extends_elem w w' record :
  log_extends w w' → record ∈ CreateEvent.log w → record ∈ CreateEvent.log w'.
Proof. intros [l ->] Hin. apply elem_of_app. by left. Qed.

Lemma create_task_log oui device data w :
  log_extends w (create_task oui device (data, w)).1.2.
Proof.
  unfold create_task.
  destruct (GenericHandler device) as [handler|e].
  - destruct (query_tables handler) as [[[mac_data arp_data] iface_data]|e].
    + destruct (collect_endpoints _ _ _ _ _ _); simpl;
        repeat (eapply log_extends_trans; [|apply log_extends_info]);
        apply log_extends_refl.
    + simpl. repeat (eapply log_extends_trans; [|apply log_extends_info]).
      apply log_extends_refl.
  - simpl. eapply log_extends_trans; [apply log_extends_info|].
    apply log_extends_error.
Qed.

Lemma create_task_failed_log oui device e data w :
  GenericHandler device = Raise e →
  logging.error ("Connection failed to " +:+ device)
  ∈ CreateEvent.log (create_task oui device (data, w)).1.2.
Proof.
  intros Hfail. unfold create_task. rewrite Hfail. simpl.
  apply elem_of_app. right. left.
Qed.

Local Arguments create_task : simpl never.
Local Arguments thread_executor : simpl never.

Lemma run_tasks_log oui schedule data w exceptions :
  log_extends w (foldl (run_task oui) ((data, w), exceptions) schedule).1.2.
Proof.
  revert data w exceptions.
  induction schedule as [|d schedule IH]; intros data w exceptions; simpl.
  { apply log_extends_refl. }
  pose proof (create_task_log oui d data w) as Hd.
  unfold run_task at 2. simpl.
  destruct (create_task oui d (data, w)) as [[data' w'] exc]. simpl in *.
  eapply log_extends_trans; [exact Hd|apply IH].
Qed.

Lemma run_tasks_failed_log oui schedule device e data w exceptions :
  GenericHandler device = Raise e →
  device ∈ schedule →
  logging.error ("Connection failed to " +:+ device)
  ∈ CreateEvent.log
      (foldl (run_task oui) ((data, w), exceptions) schedule).1.2.
Proof.
  intros Hfail. revert data w exceptions.
  induction schedule as [|d schedule IH]; intros data w exceptions Hin.
  { by apply elem_of_nil in Hin. }
  simpl. unfold run_task at 2. simpl.
  destruct (decide (d = device)) as [->|Hne].
  - pose proof (create_task_failed_log oui device e data w Hfail) as Hlog.
    destruct (create_task oui device (data, w)) as [[data' w'] exc].
    simpl in *. eapply log_extends_elem; [apply run_tasks_log|exact Hlog].
  - destruct (create_task oui d (data, w)) as [[data' w'] exc]. simpl.
    apply IH. by apply elem_of_cons in Hin as [?|?].
Qed.

Lemma report_exceptions_log_extends (futures : list (string * option exn))
    data w :
  log_extends w
    (foldl (λ '(data, w) '(device, exception),
              match exception with
              | Some e =>
                  (data, logging_error w
                           ("Exception for " +:+ device +:+ ": "
                              +:+ exn_str e))
              | None => (data, w)
              end) (data, w) futures).2.
Proof.
  revert w. induction futures as [|[device [e|]] futures IH]; intros w; simpl.
  - apply log_extends_refl.
  - eapply log_extends_trans; [apply log_extends_error|apply IH].
  - apply IH.
Qed.

(** A failed connection is in the log when the pool is done. *)
Lemma thread_executor_failed_log oui schedule devices device e data w :
  GenericHandler device = Raise e →
  device ∈ schedule →
  logging.error ("Connection failed to " +:+ device)
  ∈ CreateEvent.log (thread_executor oui schedule devices (data, w)).2.
Proof.
  intros Hfail Hin. unfold thread_executor.
  pose proof (run_tasks_failed_log oui schedule device e data w ∅ Hfail Hin)
    as Hlog.
  destruct (foldl (run_task oui) (data, w, ∅) schedule)
    as [[data' w'] exceptions]. simpl in *.
  eapply log_extends_elem; [apply report_exceptions_log_extends|exact Hlog].
Qed.

Lemma pool_data_lookup oui devices device :
  pool_data oui devices !! device
  = if decide (device ∈ devices) then task_endpoints oui device else None.
Proof.
  induction devices as [|d devices IH]; simpl.
  { by rewrite lookup_empty. }
  destruct (decide (device = d)) as [->|Hne].
  - rewrite (decide_True (P := d ∈ d :: devices)) by left.
    destruct (task_endpoints oui d) as [endpoint_data|] eqn:Hd.
    + by rewrite lookup_insert_eq.
    + rewrite IH. by destruct (decide _).
  - assert (match task_endpoints oui d with
            | Some endpoint_data => <[d:=endpoint_data]> (pool_data oui devices)
            | None => pool_data oui devices
            end !! device = pool_data oui devices !! device) as ->.
    { destruct (task_endpoints oui d); [|done]. by rewrite lookup_insert_ne. }
    rewrite IH. destruct (decide (device ∈ devices)) as [Hin|Hnotin].
    + by rewrite decide_True by by right.
    + rewrite decide_False; [done|]. by intros [?|?]%elem_of_cons.
Qed.

(** When all tasks are done the shared dict holds what each task stores
    on its own, in whatever order they finish. *)
Lemma thread_executor_pool_data oui schedule devices w :
  schedule ≡ₚ devices →
  (thread_executor oui schedule devices (∅, w)).1 = pool_data oui devices.
Proof.
  intros Hs. apply map_eq. intros device.
  destruct (thread_executor_effect oui schedule devices ∅ w device) as [-> _].
  rewrite pool_data_lookup, lookup_empty.
  destruct (decide (device ∈ schedule)) as [Hin|Hnotin].
  - rewrite decide_True by by rewrite <-Hs.
    by destruct (task_endpoints oui device).
  - rewrite decide_False; [done|]. by rewrite <-Hs.
Qed.

Lemma pool_data_without oui device devices :
  task_endpoints oui device = None →
  refactor_data devices (pool_data oui devices)
  = refactor_data (filter (λ d, d ≠ device) devices)
      (pool_data oui (filter (λ d, d ≠ device) devices)).
Proof.
  intros Hnone. unfold refactor_data, refactor_loop.
  rewrite (refactor_devices_without _
             (pool_data oui (filter (λ d, d ≠ device) devices)) _ device);
    [done| |].
  - rewrite pool_data_lookup, Hnone. by destruct (decide _).
  - intros d Hd Hne. rewrite !pool_data_lookup.
    rewrite decide_True by done.
    rewrite decide_True; [done|]. by apply list_elem_of_filter.
Qed.
End log_facts.

(** C5. When the session to a device cannot be established, the failure
    is caught in [create_task] and logged, and the task stores nothing for
    the device.  In a run over a list with such a device, in whatever order
    the tasks finish, the failure is in the log, and the run consolidates
    what the tasks of the other devices collect, each on its own, saves
    that as the snapshot and emits its signal: the snapshot is the one of
    the other devices alone.  (The run is taken from the point where the
    vendor registry is loaded, and the snapshot file can be created: both
    are independent of the devices.) *)
Theorem connection_failure_is_isolated `{Platform} (device : string)
    (e : exn) :
  GenericHandler device = Raise e →
  (∀ oui_data data w,
     create_task oui_data device (data, w)
     = ((data,
         logging_error
           (logging_info w ("Connecting to " +:+ device +:+ "..."))
           ("Connection failed to " +:+ device)), None))
  ∧ ∀ name type lines schedule w oui_data w0,
      schedule ≡ₚ nonempty_lines lines →
      device ∈ nonempty_lines lines →
      load_mac_vendor (logging_info w "Snapshot worker started.")
      = Ok (oui_data, w0) →
      snapshot_access type name (now w) = Ok () →
      ∃ w1 endpoints,
        run name type lines schedule w = Ok w1
        ∧ logging.error ("Connection failed to " +:+ device)
          ∈ CreateEvent.log w1
        ∧ refactor_data
            (filter (λ d, d ≠ device) (nonempty_lines lines))
            (pool_data oui_data
               (filter (λ d, d ≠ device) (nonempty_lines lines)))
          = Ok endpoints
        ∧ files w1
          = <[snapshot_filename type name (strftime (now w))
              := {| mtime := now w; body := SnapshotJson endpoints |}]>
              (files w0)
        ∧ emitted w1 = emitted w ++ [(strftime (now w), type, name)].
Proof.
  intros Hfail. split.
  { intros oui_data data w. unfold create_task. by rewrite Hfail. }
  intros name type lines schedule w oui w0 Hs Hin Hload Haccess.
  rewrite run_unfold, Hload. cbv zeta.
  apply load_mac_vendor_world in Hload as [Hnow Hemit]. simpl in Hnow, Hemit.
  assert (task_endpoints oui device = None) as Hnone.
  { unfold task_endpoints. by rewrite Hfail. }
  set (devices := nonempty_lines lines) in *.
  rewrite (thread_executor_pool_data oui schedule devices w0 Hs).
  rewrite (pool_data_without oui device devices Hnone).
  destruct (refactor_data_ok (filter (λ d, d ≠ device) devices)
              (pool_data oui (filter (λ d, d ≠ device) devices)))
    as [endpoints Hendpoints].
  rewrite Hendpoints.
  destruct (thread_executor_effect oui schedule devices ∅ w0 device)
    as [_ (Hf1 & Hn1 & He1)].
  assert (device ∈ schedule) as Hin' by by rewrite Hs.
  pose proof (thread_executor_failed_log oui schedule devices device e ∅ w0
                Hfail Hin') as Hlog.
  rewrite Hn1, Hnow, Haccess.
  eexists _, endpoints. split; [done|].
  unfold snapshot_saved. simpl. split_and!.
  - rewrite !elem_of_app. by do 3 left.
  - done.
  - by rewrite Hf1, Hn1, Hnow.
  - by rewrite He1, Hn1, Hemit, Hnow.
Qed.

Lemma connection_failure_is_isolated_witness :
  ∃ w1 endpoints,
    @run Sample.platform "core" "Pre" ["SW1"; ""; "SW9"] ["SW9"; "SW1"]
      Sample.stale_cache_world = Ok w1
    ∧ logging.error "Connection failed to SW9" ∈ CreateEvent.log w1
    ∧ @refactor_data ["SW1"]
        (@pool_data Sample.platform {[ "AABBCC" := "Acme" ]} ["SW1"])
      = Ok endpoints
    ∧ files w1 !! "/out/Snapshots/[Pre]_[core]_[2024-01-01_10.30].json"
      = Some {| mtime := now Sample.stale_cache_world;
                body := SnapshotJson endpoints |}.
Proof.
  assert (["SW9"; "SW1"] ≡ₚ nonempty_lines ["SW1"; ""; "SW9"]) as Hs.
  { vm_compute. apply (Permutation_swap "SW1" "SW9" []). }
  assert ("SW9" ∈ nonempty_lines ["SW1"; ""; "SW9"]) as Hin.
  { vm_compute. right. left. }
  destruct (proj2 (@connection_failure_is_isolated Sample.platform "SW9"
                     (OtherError "timed out") eq_refl)
              "core" "Pre" ["SW1"; ""; "SW9"] ["SW9"; "SW1"]
              Sample.stale_cache_world {[ "AABBCC" := "Acme" ]}
              (logging_info Sample.stale_cache_world
                 "Snapshot worker started.")
              Hs Hin eq_refl eq_refl)
    as (w1 & endpoints & Hrun & Hlog & Hendpoints & Hfiles & _).
  exists w1, endpoints. split; [exact Hrun|]. split; [exact Hlog|].
  split; [exact Hendpoints|]. rewrite Hfiles. apply lookup_insert_eq.
Defined.

Example run_sample :
  match @run Sample.platform "core" "Pre" ["SW1"; ""; "SW9"] ["SW9"; "SW1"]
          Sample.stale_cache_world with
  | Ok w =>
      Some (emitted w,
            files w !! "/out/Snapshots/[Pre]_[core]_[2024-01-01_10.30].json",
            filter (λ r, r.1 = logging.ERROR) (CreateEvent.log w))
  | Raise _ => None
  end
  = Some ([("2024-01-01_10.30", "Pre", "core")],
        Some {| mtime := 200 * Sample.day;
                body := SnapshotJson
                  [(1, {| Ep.MAC_Address := Sample.mac1;
                          Ep.Vendor := "Acme";
                          Ep.Hostname := "host-10.0.0.1";
                          Ep.IP_Address := "10.0.0.1";
                          Ep.Vlan := "10";
                          Ep.Switch := ["SW1"];
                          Ep.Interface := ["Gi1/0/1"];
                          Ep.Speed := ["a-1000"];
                          Ep.Duplex := ["a-full"] |})] |},
        [logging.error "Connection failed to SW9"]).
Proof. by vm_compute. Qed.


(* ===================================================================== *)
(** * Further properties of the code *)
(* ===================================================================== *)

(** ** [compare_snapshots]: the rows of lost, new and unchanged MACs *)

(** X1. A MAC that only the pre-snapshot holds gets a row marked
    [MAC Not Learnt] in style Bad, with the vendor and the seven attributes
    of Pre in style Normal and every Post cell the placeholder [???] in
    style Bad. *)
Theorem compare_snapshots_lost_mac (pre_data post_data : dict string Ep.t)
    (mac : string) (pre : Ep.t) :
  dict_wf pre_data → dict_wf post_data →
  dict_get pre_data mac = Some pre →
  dict_get post_data mac = None →
  ∃ r,
    dict_get (compare_snapshots pre_data post_data) mac = Some r
    ∧ Address r = normal (Str mac)
    ∧ Observation r = {| value := Str "MAC Not Learnt"; cellFormat := ftBad |}
    ∧ Vendor r = normal (Str (Ep.Vendor pre))
    ∧ pre_cells r = normal <$> attribute_values pre
    ∧ post_cells r = replicate 7 (bad (Str "???")).
Proof.
  intros Hpre Hpost Hp Hq. rewrite compare_snapshots_get, Hp by done.
  eexists. split; [done|]. unfold pre_row. rewrite Hq. done.
Qed.

Lemma compare_snapshots_lost_mac_witness :
  ∃ r,
    dict_get (compare_snapshots Sample.pre_snapshot Sample.post_snapshot)
      Sample.mac1 = Some r
    ∧ Observation r = {| value := Str "MAC Not Learnt"; cellFormat := ftBad |}
    ∧ post_cells r = replicate 7 (bad (Str "???")).
Proof.
  destruct (compare_snapshots_lost_mac
              Sample.pre_snapshot Sample.post_snapshot Sample.mac1
              (Sample.endpoint Sample.mac1 "SW1" "Gi1/0/1" "1G" "10.0.0.1"))
    as (r & Hr & _ & Hobs & _ & _ & Hpost);
    [compute_done|compute_done|reflexivity|reflexivity|].
  exists r. split; [exact Hr|]. split; [exact Hobs|exact Hpost].
Defined.

(** X2. A MAC that only the post-snapshot holds gets a row marked
    [New MAC] in style Info, with the vendor and the seven attributes of
    Post in style Normal and every Pre cell the placeholder [???], in style
    Normal too. *)
Theorem compare_snapshots_new_mac (pre_data post_data : dict string Ep.t)
    (mac : string) (post : Ep.t) :
  dict_wf pre_data → dict_wf post_data →
  dict_get pre_data mac = None →
  dict_get post_data mac = Some post →
  ∃ r,
    dict_get (compare_snapshots pre_data post_data) mac = Some r
    ∧ Address r = normal (Str mac)
    ∧ Observation r = {| value := Str "New MAC"; cellFormat := ftInfo |}
    ∧ Vendor r = normal (Str (Ep.Vendor post))
    ∧ pre_cells r = replicate 7 (normal (Str "???"))
    ∧ post_cells r = normal <$> attribute_values post.
Proof.
  intros Hpre Hpost Hp Hq. rewrite compare_snapshots_get, Hp, Hq by done.
  eexists. split; [done|]. done.
Qed.

Lemma compare_snapshots_new_mac_witness :
  ∃ r,
    dict_get (compare_snapshots Sample.pre_snapshot Sample.post_snapshot)
      Sample.mac2 = Some r
    ∧ Observation r = {| value := Str "New MAC"; cellFormat := ftInfo |}
    ∧ pre_cells r = replicate 7 (normal (Str "???")).
Proof.
  destruct (compare_snapshots_new_mac
              Sample.pre_snapshot Sample.post_snapshot Sample.mac2
              (Sample.endpoint Sample.mac2 "SW1" "Gi1/0/2" "1G" "10.0.0.2"))
    as (r & Hr & _ & Hobs & _ & Hpre & _);
    [compute_done|compute_done|reflexivity|reflexivity|].
  exists r. split; [exact Hr|]. split; [exact Hobs|exact Hpre].
Defined.

Lemma filter_none {A} (P : A → Prop) `{∀ x, Decision (P x)} (l : list A) :
  (∀ x, x ∈ l → ¬ P x) → filter P l = [].
Proof.
  induction l as [|x l IH]; intros Hl; [done|].
  rewrite filter_cons_False by (apply Hl; left).
  apply IH. intros y Hy. apply Hl. by right.
Qed.

(** X3. Comparing a snapshot with itself flags nothing: the rows are those
    of the snapshot, in its order, each marked [MAC Learnt] in style Good,
    and every Post cell repeats the Pre cell in style Normal. *)
Theorem compare_snapshots_same (data : dict string Ep.t) :
  dict_wf data →
  dict_keys (compare_snapshots data data) = dict_keys data
  ∧ ∀ mac r,
      dict_get (compare_snapshots data data) mac = Some r →
      Observation r = {| value := Str "MAC Learnt"; cellFormat := ftGood |}
      ∧ post_cells r = pre_cells r
      ∧ Forall (λ c, cellFormat c = ftNormal) (post_cells r).
Proof.
  intros Hwf. split.
  - rewrite compare_snapshots_keys by done.
    rewrite filter_none; [by rewrite app_nil_r|].
    intros mac ? Hnot. by apply Hnot.
  - intros mac r. rewrite compare_snapshots_get by done.
    destruct (dict_get data mac) as [e|] eqn:He; [|done].
    intros [= <-]. unfold pre_row, match_attribute. rewrite He.
    unfold post_cells, pre_cells, normal. simpl.
    rewrite !decide_True by done. split_and!; [done..|].
    by repeat constructor.
Qed.

Lemma compare_snapshots_same_witness :
  dict_keys (compare_snapshots Sample.pre_snapshot Sample.pre_snapshot)
  = dict_keys Sample.pre_snapshot.
Proof.
  apply (compare_snapshots_same Sample.pre_snapshot). compute_done.
Defined.


(** ** [refactor_data]: numbering of the endpoints *)

Section first_seen_facts.
Context {K : Type} `{EqDecision K}.
Implicit Types (l : list K) (k : K).

Lemma first_seen_snoc l k :
  first_seen (l ++ [k])
  = if decide (k ∈ first_seen l) then first_seen l else first_seen l ++ [k].
Proof. unfold first_seen. by rewrite foldl_app. Qed.

Lemma elem_of_first_seen l k : k ∈ first_seen l ↔ k ∈ l.
Proof.
  induction l as [|x l IH] using rev_ind; [done|].
  rewrite first_seen_snoc, elem_of_app, list_elem_of_singleton.
  destruct (decide (x ∈ first_seen l)) as [Hin|Hnotin].
  - rewrite IH. split; [by left|]. intros [?| ->]; [done|by apply IH].
  - by rewrite elem_of_app, list_elem_of_singleton, IH.
Qed.

Lemma NoDup_first_seen l : NoDup (first_seen l).
Proof.
  induction l as [|x l IH] using rev_ind; [apply NoDup_nil_2|].
  rewrite first_seen_snoc. destruct (decide (x ∈ first_seen l)); [done|].
  apply NoDup_app. split_and!; [done| |apply NoDup_singleton].
  by intros y ? ->%list_elem_of_singleton.
Qed.
End first_seen_facts.

Section dict_more_facts.
Context {K V : Type} `{EqDecision K}.
Implicit Types (d : dict K V) (k : K) (v : V).

Lemma dict_set_fresh d k v :
  dict_contains d k = false → dict_set d k v = d ++ [(k, v)].
Proof.
  unfold dict_contains. induction d as [|[k0 v0] d IH]; simpl; [done|].
  destruct (decide (k0 = k)); [done|]. intros Hd. by rewrite IH.
Qed.

Lemma dict_set_values_fmap {B} (f : V → B) d k v v' :
  dict_get d k = Some v → f v' = f v →
  f <$> dict_values (dict_set d k v') = f <$> dict_values d.
Proof.
  unfold dict_values. intros Hget Hf.
  induction d as [|[k0 v0] d IH]; simpl in *; [done|].
  destruct (decide (k0 = k)) as [->|Hne]; csimpl.
  - injection Hget as ->. by rewrite Hf.
  - by rewrite IH.
Qed.

Lemma dict_get_is_Some d k : k ∈ dict_keys d → is_Some (dict_get d k).
Proof.
  intros Hin. destruct (dict_get d k) eqn:Hg; [by eexists|].
  by apply dict_get_None in Hg.
Qed.
End dict_more_facts.

Section refactor_ids_facts.
Implicit Types (st : refactor_state) (seen items : list (string * Obs.t)).

Lemma refactor_ids_inv_init : refactor_ids_inv [] refactor_init.
Proof. by split_and!. Qed.

Lemma refactor_step_ids seen st mac prop st' :
  refactor_ids_inv seen st →
  refactor_step st mac prop = Ok st' →
  refactor_ids_inv (seen ++ [(mac, prop)]) st'.
Proof.
  unfold refactor_ids_inv. cbv zeta.
  rewrite fmap_app. change ([(mac, prop)].*1) with [mac].
  rewrite first_seen_snoc.
  set (macs := first_seen seen.*1).
  intros (Hmti & Hkeys & Hidx & Hmacs).
  assert (dict_keys (mac_to_index st) = macs) as Hmk.
  { rewrite Hmti. unfold dict_keys. apply fst_zip. by rewrite length_seq. }
  unfold refactor_step.
  destruct (dict_contains (mac_to_index st) mac) eqn:Hc.
  - apply dict_contains_true in Hc. rewrite Hmk in Hc.
    rewrite decide_True by done.
    unfold dict_getitem.
    destruct (dict_get (mac_to_index st) mac) as [idx|] eqn:Hget; [|done].
    simpl. destruct (dict_get (refactored st) idx) as [e|] eqn:He; [|done].
    simpl. intros [= <-]. simpl. split_and!; [done| |done|].
    + rewrite dict_keys_set. unfold dict_contains. by rewrite He.
    + intros [Hseen _]%Forall_app.
      by rewrite (dict_set_values_fmap _ _ _ e), Hmacs.
  - pose proof Hc as Hfresh. apply dict_contains_false in Hc.
    rewrite Hmk in Hc. rewrite decide_False by done.
    intros [= <-]. simpl. rewrite length_app. simpl.
    rewrite Nat.add_1_r, seq_S. simpl.
    assert (dict_contains (refactored st) (S (ep_idx st)) = false) as Hnew.
    { apply dict_contains_false. rewrite Hkeys, Hidx.
      rewrite list_elem_of_In, in_seq. lia. }
    split_and!.
    + rewrite (dict_set_fresh _ _ _ Hfresh), Hmti, Hidx.
      rewrite zip_with_app by by rewrite length_seq. done.
    + rewrite dict_keys_set, Hnew, Hkeys, Hidx. done.
    + by rewrite Hidx.
    + intros [Hseen Hitem]%Forall_app.
      rewrite (dict_set_fresh _ _ _ Hnew). unfold dict_values.
      rewrite !fmap_app. fold (dict_values (refactored st)).
      rewrite (Hmacs Hseen). simpl. f_equal.
      apply Forall_inv in Hitem. unfold keyed in Hitem. simpl in Hitem.
      by rewrite Hitem.
Qed.

Lemma refactor_items_ids seen items st st' :
  refactor_ids_inv seen st →
  refactor_items items st = Ok st' →
  refactor_ids_inv (seen ++ items) st'.
Proof.
  revert seen st. induction items as [|[mac prop] items IH]; intros seen st Hinv.
  - intros [= <-]. by rewrite app_nil_r.
  - simpl. destruct (refactor_step st mac prop) as [st1|] eqn:Hstep; [|done].
    simpl. intros Hitems.
    rewrite cons_middle, (assoc_L (++)).
    eapply IH; [|done]. by eapply refactor_step_ids.
Qed.

Lemma refactor_loop_ids devices data st :
  refactor_loop devices data = Ok st →
  refactor_ids_inv (all_items data devices) st.
Proof.
  unfold refactor_loop. rewrite refactor_devices_items.
  apply (refactor_items_ids [] _ _ _ refactor_ids_inv_init).
Qed.

Lemma all_items_keyed data devices :
  map_Forall (λ _ eps, Forall keyed eps) data →
  Forall keyed (all_items data devices).
Proof.
  intros Hdata. unfold all_items, dict_items.
  induction devices as [|device devices IH]; csimpl; [done|].
  apply Forall_app. split; [|done].
  destruct (data !! device) as [eps|] eqn:Hd; simpl; [|done].
  by apply (Hdata device).
Qed.
End refactor_ids_facts.

(** X4. [refactor_data] never raises, whatever was collected, and it
    numbers the endpoints from 1 without gaps: the distinct MACs get the
    numbers 1, 2, ... in the order in which the loops first meet them, and
    the records are stored under these numbers in that order. *)
Theorem refactor_data_numbering (devices : list string) (data : collected) :
  ∃ st,
    refactor_loop devices data = Ok st
    ∧ refactor_data devices data = Ok (refactored st)
    ∧ let macs := first_seen (all_items data devices).*1 in
      mac_to_index st = zip macs (seq 1 (length macs))
      ∧ dict_keys (refactored st) = seq 1 (length macs)
      ∧ ep_idx st = length macs.
Proof.
  destruct (refactor_loop_inv devices data) as (st & Hloop & _).
  exists st. unfold refactor_data. rewrite Hloop. split; [done|].
  split; [done|].
  by destruct (refactor_loop_ids _ _ _ Hloop) as (? & ? & ? & _).
Qed.

(** X5. When every collected observation names the MAC it is stored under
    (as [create_task] builds them), the consolidated endpoints carry the
    distinct MACs in the order of first sight: no two endpoints of a
    snapshot share a MAC address. *)
Theorem refactor_data_distinct_macs (devices : list string)
    (data : collected) (endpoints : dict nat Ep.t) :
  map_Forall (λ _ eps, Forall keyed eps) data →
  refactor_data devices data = Ok endpoints →
  Ep.MAC_Address <$> dict_values endpoints
  = first_seen (all_items data devices).*1
  ∧ NoDup (Ep.MAC_Address <$> dict_values endpoints).
Proof.
  intros Hdata. unfold refactor_data.
  destruct (refactor_loop devices data) as [st|] eqn:Hloop; [|done].
  simpl. intros [= <-].
  destruct (refactor_loop_ids _ _ _ Hloop) as (_ & _ & _ & Hmacs).
  rewrite Hmacs by by apply all_items_keyed.
  split; [done|]. apply NoDup_first_seen.
Qed.

Lemma refactor_data_distinct_macs_witness :
  ∃ endpoints,
    refactor_data Sample.devices Sample.data = Ok endpoints
    ∧ Ep.MAC_Address <$> dict_values endpoints = [Sample.mac1; Sample.mac2].
Proof.
  eexists. split; [by vm_compute|].
  refine (eq_trans (proj1 (refactor_data_distinct_macs
                             Sample.devices Sample.data _ _ _)) _).
  - compute_done.
  - by vm_compute.
  - by vm_compute.
Defined.

(** ** [thread_executor] and [run]: the order of completion *)

Section schedule_facts.
Context `{Platform}.
Implicit Types (oui : gmap string string) (data : collected) (w : world).

Local Arguments thread_executor : simpl never.
Local Arguments load_mac_vendor : simpl never.
Local Arguments refactor_data : simpl never.

Lemma thread_executor_schedule oui schedule schedule' devices data w w' :
  schedule ≡ₚ schedule' →
  (thread_executor oui schedule devices (data, w)).1
  = (thread_executor oui schedule' devices (data, w')).1.
Proof.
  intros Hs. apply map_eq. intros device.
  destruct (thread_executor_effect oui schedule devices data w device)
    as [-> _].
  destruct (thread_executor_effect oui schedule' devices data w' device)
    as [-> _].
  destruct (decide (device ∈ schedule)) as [Hin|Hnotin].
  - rewrite decide_True; [done|]. by rewrite <-Hs.
  - rewrite decide_False; [done|]. by rewrite <-Hs.
Qed.
End schedule_facts.

(** X6. What a run saves does not depend on the order in which the tasks
    of the pool finish: two runs on the same form and world, with the
    tasks finishing in any two orders, both raise the same exception or
    both end with the same files and the same emitted signals. *)
Theorem run_schedule_independent `{Platform} (name type : string)
    (lines schedule schedule' : list string) (w : world) :
  schedule ≡ₚ schedule' →
  match run name type lines schedule w, run name type lines schedule' w with
  | Ok w1, Ok w2 => files w1 = files w2 ∧ emitted w1 = emitted w2
  | Raise e1, Raise e2 => e1 = e2
  | _, _ => False
  end.
Proof.
  intros Hs. rewrite !run_unfold.
  destruct (load_mac_vendor _) as [[oui w0]|e]; [|done]. cbv zeta.
  rewrite (thread_executor_schedule oui schedule schedule' _ ∅ w0 w0 Hs).
  destruct (refactor_data _ _) as [endpoints|e]; [|done].
  destruct (thread_executor_effect oui schedule (nonempty_lines lines)
              ∅ w0 "") as [_ (Hf1 & Hn1 & He1)].
  destruct (thread_executor_effect oui schedule' (nonempty_lines lines)
              ∅ w0 "") as [_ (Hf2 & Hn2 & He2)].
  rewrite Hn1, Hn2.
  destruct (snapshot_access type name (now w0)) as [[]|e]; [|done].
  unfold snapshot_saved. simpl. by rewrite Hf1, Hf2, Hn1, Hn2, He1, He2.
Qed.

Lemma run_schedule_independent_witness :
  match @run Sample.platform "core" "Pre" ["SW1"; "SW2"] ["SW1"; "SW2"]
          Sample.stale_cache_world,
        @run Sample.platform "core" "Pre" ["SW1"; "SW2"] ["SW2"; "SW1"]
          Sample.stale_cache_world with
  | Ok w1, Ok w2 => files w1 = files w2 ∧ emitted w1 = emitted w2
  | Raise e1, Raise e2 => e1 = e2
  | _, _ => False
  end.
Proof.
  apply (@run_schedule_independent Sample.platform).
  apply (Permutation_swap "SW2" "SW1" []).
Defined.

(** ** [load_mac_vendor]: failure and what it leaves on disk *)



(** X8. When [load_mac_vendor] returns, the cache file holds exactly the
    registry it returns and no other file has changed.  Without a refresh
    the world is untouched; after a refresh the registry is the parse of
    the fetched text and the cache file is stamped with the current
    time. *)
Theorem load_mac_vendor_cache `{Platform} (w w' : world)
    (oui_data : gmap string string) :
  load_mac_vendor w = Ok (oui_data, w') →
  (∃ f, files w' !! vendor_file = Some f ∧ body f = OuiJson oui_data)
  ∧ (∀ path, path ≠ vendor_file → files w' !! path = files w !! path)
  ∧ (refresh_condition w = Ok false → w' = w)
  ∧ (refresh_condition w = Ok true →
     ∃ oui_text,
       requests_get oui_url = Ok oui_text
       ∧ oui_data = parse_oui oui_text
       ∧ files w' !! vendor_file
         = Some {| mtime := now w; body := OuiJson (parse_oui oui_text) |}).
Proof.
  unfold load_mac_vendor.
  destruct (refresh_condition w) as [[|]|]; simpl; [| |done].
  - destruct (requests_get oui_url) as [oui_text|]; simpl; [|done].
    unfold load_vendor_file. simpl. rewrite lookup_insert_eq. simpl.
    intros [= <- <-]. simpl. split_and!; [| |done|].
    + rewrite lookup_insert_eq. by eexists.
    + intros path Hpath. by rewrite lookup_insert_ne.
    + intros _. exists oui_text. by rewrite lookup_insert_eq.
  - unfold load_vendor_file.
    destruct (files w !! vendor_file) as [f|] eqn:Hf; [|done].
    destruct (body f) as [| oui |] eqn:Hbody; simpl; try done.
    intros [= <- <-]. split_and!; [|done..]. exists f. by rewrite Hbody.
Qed.

Lemma load_mac_vendor_cache_witness :
  ∃ f, files Sample.stale_cache_world !! @vendor_file Sample.platform = Some f
       ∧ body f = OuiJson {[ "AABBCC" := "Acme" ]}.
Proof.
  apply (@load_mac_vendor_cache Sample.platform Sample.stale_cache_world
           Sample.stale_cache_world {[ "AABBCC" := "Acme" ]}).
  reflexivity.
Defined.

(** ** [thread_executor]: a task that raises *)

Section exception_facts.
Context `{Platform}.
Implicit Types (oui : gmap string string) (data : collected) (w : world).

Local Arguments create_task : simpl never.

Lemma create_task_exception oui device data w :
  (create_task oui device (data, w)).2 = task_exception oui device.
Proof.
  unfold create_task, task_exception.
  destruct (GenericHandler device) as [handler|e]; [|done].
  destruct (query_tables handler) as [[[mac_data arp_data] iface_data]|e];
    [|done].
  by destruct (collect_endpoints _ _ _ _ _ _).
Qed.

Lemma task_exception_no_endpoints oui device e :
  task_exception oui device = Some e → task_endpoints oui device = None.
Proof.
  unfold task_exception, task_endpoints.
  destruct (GenericHandler device) as [handler|]; [|done].
  destruct (query_tables handler) as [[[mac_data arp_data] iface_data]|];
    [|done].
  by destruct (collect_endpoints _ _ _ _ _ _).
Qed.

Lemma run_tasks_exceptions oui schedule data w
    (exceptions : gmap string (option exn)) device :
  (foldl (run_task oui) ((data, w), exceptions) schedule).2 !! device
  = if decide (device ∈ schedule) then Some (task_exception oui device)
    else exceptions !! device.
Proof.
  revert data w exceptions.
  induction schedule as [|d schedule IH]; intros data w exceptions; [done|].
  simpl. pose proof (create_task_exception oui d data w) as Hexc.
  destruct (run_task oui (data, w, exceptions) d)
    as [[data' w'] exceptions'] eqn:Hrun.
  unfold run_task in Hrun. simpl in Hrun.
  destruct (create_task oui d (data, w)) as [[data'' w''] exc].
  simpl in *. injection Hrun as -> -> <-. subst exc. rewrite IH.
  destruct (decide (device ∈ schedule)) as [Hin|Hnotin].
  - by rewrite decide_True by by right.
  - destruct (decide (device = d)) as [->|Hne].
    + rewrite decide_True by left. by rewrite lookup_insert_eq.
    + rewrite lookup_insert_ne by done.
      rewrite decide_False; [done|]. by intros [?|?]%elem_of_cons.
Qed.

Lemma dict_comprehension_id_get {V} (val : string → V) (xs : list string) k :
  dict_get (dict_comprehension id val xs) k
  = if decide (k ∈ xs) then Some (val k) else None.
Proof.
  unfold dict_comprehension.
  assert (∀ d0 : dict string V,
    dict_get (foldl (λ d x, dict_set d (id x) (val x)) d0 xs) k
    = if decide (k ∈ xs) then Some (val k) else dict_get d0 k) as Hgen.
  { induction xs as [|x xs IH]; intros d0; [done|]. simpl. rewrite IH.
    destruct (decide (k ∈ xs)) as [Hin|Hnotin].
    - by rewrite decide_True by by right.
    - destruct (decide (k = x)) as [->|Hne].
      + rewrite decide_True by left. by rewrite dict_get_set_eq.
      + rewrite dict_get_set_ne by done.
        rewrite decide_False; [done|]. by intros [?|?]%elem_of_cons. }
  by rewrite Hgen.
Qed.

Lemma report_exceptions_log (futures : list (string * option exn)) data w
    device e :
  (device, Some e) ∈ futures →
  logging.error ("Exception for " +:+ device +:+ ": " +:+ exn_str e)
  ∈ CreateEvent.log
      (foldl (λ '(data, w) '(device, exception),
                match exception with
                | Some e =>
                    (data, logging_error w
                             ("Exception for " +:+ device +:+ ": "
                                +:+ exn_str e))
                | None => (data, w)
                end) (data, w) futures).2.
Proof.
  assert (∀ (fs : list (string * option exn)) w0 r,
    r ∈ CreateEvent.log w0 →
    r ∈ CreateEvent.log
          (foldl (λ '(data, w) '(device, exception),
                    match exception with
                    | Some e =>
                        (data, logging_error w
                                 ("Exception for " +:+ device +:+ ": "
                                    +:+ exn_str e))
                    | None => (data, w)
                    end) (data, w0) fs).2) as Hmono.
  { induction fs as [|[d [e'|]] fs IH]; intros w0 r Hr; simpl; [done| |].
    - apply IH. simpl. apply elem_of_app. by left.
    - by apply IH. }
  revert w. induction futures as [|[d exc] futures IH]; intros w Hin.
  - by apply elem_of_nil in Hin.
  - apply elem_of_cons in Hin as [[= <- <-]|Hin]; simpl.
    + apply Hmono. simpl. apply elem_of_app. right. left.
    + destruct exc; by apply IH.
Qed.
End exception_facts.

(** X9. An exception that ends the task of a listed device (a failed
    command, a missing column, a port name without digits) does not leave
    the pool unnoticed: [thread_executor] logs an error naming the device
    and the exception, and the device has no entry in the collected
    data. *)
Theorem thread_executor_logs_exception `{Platform}
    (oui_data : gmap string string) (device : string) (e : exn)
    (devices schedule : list string) (w : world) :
  task_exception oui_data device = Some e →
  device ∈ devices →
  schedule ≡ₚ devices →
  logging.error ("Exception for " +:+ device +:+ ": " +:+ exn_str e)
  ∈ CreateEvent.log (thread_executor oui_data schedule devices (∅, w)).2
  ∧ (thread_executor oui_data schedule devices (∅, w)).1 !! device = None.
Proof.
  intros Hexc Hin Hs. split.
  - unfold thread_executor.
    pose proof (run_tasks_exceptions oui_data schedule ∅ w ∅ device) as Hex.
    rewrite decide_True in Hex by by rewrite Hs.
    destruct (foldl (run_task oui_data) (∅, w, ∅) schedule)
      as [[data' w'] exceptions]. simpl in Hex.
    apply report_exceptions_log. apply dict_get_Some_elem.
    unfold dict_items.
    rewrite dict_comprehension_id_get, decide_True by done.
    by rewrite Hex, Hexc.
  - destruct (thread_executor_effect oui_data schedule devices ∅ w device)
      as [-> _].
    rewrite (task_exception_no_endpoints _ _ _ Hexc), lookup_empty.
    by destruct (decide _).
Qed.

Lemma thread_executor_logs_exception_witness :
  logging.error "Exception for SW7: 'vlan_id'"
  ∈ CreateEvent.log
      (@thread_executor Sample.platform_bad_table ∅ ["SW7"; "SW1"]
         ["SW1"; "SW7"] (∅, Sample.stale_cache_world)).2.
Proof.
  apply (@thread_executor_logs_exception Sample.platform_bad_table ∅ "SW7"
           (KeyError "'vlan_id'")).
  - reflexivity.
  - compute_done.
  - apply (Permutation_swap "SW1" "SW7" []).
Defined.

(** ** [create_task]: what the endpoint loop collects *)

Section collect_facts.
Context `{Platform}.
Implicit Types (oui : gmap string string) (handler : Handler).
Implicit Types (prop : Obs.t) (acc : dict string Obs.t).

(** The inner loop touches Speed and Duplex only. *)
Lemma match_interfaces_fields ports items prop prop' :
  match_interfaces ports items prop = Ok prop' →
  set_speed_duplex prop' "" "" = set_speed_duplex prop "" "".
Proof.
  revert prop. induction items as [|[iface iface_prop] items IH]; intros prop.
  - by intros [= <-].
  - simpl. destruct (normalize_iface iface) as [a|]; simpl; [|done].
    destruct (normalize_iface ports) as [b|]; simpl; [|done].
    destruct (decide (a = b)); [|apply IH].
    destruct (dict_getitem iface_prop "speed") as [speed|]; simpl; [|done].
    destruct (dict_getitem iface_prop "duplex") as [duplex|]; simpl; [|done].
    intros Hrest. by rewrite (IH _ Hrest).
Qed.

Lemma Forall_dict_set (P : string * Obs.t → Prop) acc mac prop :
  Forall P acc → P (mac, prop) → Forall P (dict_set acc mac prop).
Proof.
  intros Hacc HP. induction acc as [|[k v] acc IH]; simpl.
  - by constructor.
  - apply Forall_cons in Hacc as [Hk Hacc]. destruct (decide (k = mac)).
    + by constructor.
    + constructor; [done|by apply IH].
Qed.

Lemma dict_getitem_Ok (d : dict string string) k v :
  dict_getitem d k = Ok v → dict_get d k = Some v.
Proof.
  unfold dict_getitem. destruct (dict_get d k); [|done]. by intros [= ->].
Qed.

Lemma collect_endpoints_items oui handler arp_data iface_data mac_data
    items acc r :
  items ⊆ dict_items mac_data →
  collect_endpoints oui handler arp_data iface_data items acc = Ok r →
  Forall (collected_item oui handler arp_data iface_data mac_data) acc →
  Forall (collected_item oui handler arp_data iface_data mac_data) r.
Proof.
  revert acc. induction items as [|[mac row] items IH]; intros acc Hsub.
  - by intros [= <-].
  - assert (items ⊆ dict_items mac_data) as Hsub'.
    { intros x Hx. apply Hsub. by right. }
    assert ((mac, row) ∈ dict_items mac_data) as Hrow.
    { apply Hsub. left. }
    simpl.
    destruct (dict_getitem row "ports") as [ports|] eqn:Hports; simpl;
      [|done].
    destruct (physical_port ports) eqn:Hphys; simpl; [|by apply IH].
    destruct (arp_address arp_data mac) as [ip|] eqn:Hip; simpl; [|done].
    destruct (dict_getitem row "vlan_id") as [vlan|] eqn:Hvlan; simpl;
      [|done].
    destruct (match_interfaces ports (dict_items iface_data) _)
      as [prop'|] eqn:Hmatch; simpl; [|done].
    intros Hrest Hacc. apply (IH _ Hsub' Hrest).
    apply Forall_dict_set; [done|].
    pose proof (match_interfaces_fields _ _ _ _ Hmatch) as Hfields.
    apply dict_getitem_Ok in Hports, Hvlan.
    split.
    { apply (f_equal Obs.MAC_Address) in Hfields. exact Hfields. }
    exists row, ports, vlan, ip. cbn [fst snd].
    rewrite Hfields. split_and!; try done.
    + exact (f_equal Obs.Switch Hfields).
    + exact (f_equal Obs.Interface Hfields).
    + exact (f_equal Obs.Vlan Hfields).
    + exact (f_equal Obs.Vendor Hfields).
    + exact (f_equal Obs.IP_Address Hfields).
    + exact (f_equal Obs.Hostname Hfields).
Qed.

Lemma physical_row_ports mac (row : dict string string) ports :
  dict_getitem row "ports" = Ok ports →
  physical_row (mac, row) = physical_port ports.
Proof.
  unfold dict_getitem, physical_row. simpl.
  destruct (dict_get row "ports"); [|done]. by intros [= ->].
Qed.

Lemma collect_endpoints_keys oui handler arp_data iface_data items acc r :
  NoDup (dict_keys acc ++ items.*1) →
  collect_endpoints oui handler arp_data iface_data items acc = Ok r →
  dict_keys r
  = dict_keys acc ++ (filter (λ item, physical_row item = true) items).*1.
Proof.
  revert acc. induction items as [|[mac row] items IH]; intros acc Hnd.
  - intros [= <-]. by rewrite app_nil_r.
  - simpl.
    destruct (dict_getitem row "ports") as [ports|] eqn:Hports; simpl; [|done].
    rewrite filter_cons. simpl. rewrite (physical_row_ports _ _ _ Hports).
    assert (NoDup (dict_keys acc ++ items.*1)) as Hnd'.
    { csimpl in Hnd. apply NoDup_app in Hnd as (? & Hdis & [? ?]%NoDup_cons).
      apply NoDup_app. split_and!; [done| |done].
      intros k Hk Hin. apply (Hdis k Hk). by right. }
    destruct (physical_port ports) eqn:Hphys; simpl.
    + destruct (arp_address arp_data mac) as [ip|]; simpl; [|done].
      destruct (dict_getitem row "vlan_id") as [vlan|]; simpl; [|done].
      destruct (match_interfaces ports (dict_items iface_data) _)
        as [prop'|]; simpl; [|done].
      assert (dict_contains acc mac = false) as Hfresh.
      { apply dict_contains_false. intros Hin. csimpl in Hnd.
        apply NoDup_app in Hnd as (_ & Hdis & _). apply (Hdis mac Hin). left. }
      intros Hrest. apply IH in Hrest.
      * rewrite Hrest, dict_keys_set, Hfresh. by rewrite <-app_assoc.
      * rewrite dict_keys_set, Hfresh, <-app_assoc. done.
    + by apply IH.
Qed.
End collect_facts.

(** X10. When the endpoint loop of [create_task] succeeds on a MAC table
    (a dict, so without repeated MACs), it holds one observation per MAC
    learnt on a physical port (a port name that starts with [Te], [Gi],
    [Fa], [Eth], [Two] or [Twe]), in table order, and none for the others.
    Each observation is stored under its MAC and holds that MAC, the prompt
    of the device, the port and the VLAN of the row of the MAC, the vendor
    of the MAC, the address of the MAC in the ARP table and its host name,
    or [Unknown] for both, and the Speed and Duplex that the loop over the
    interface table leaves on the row. *)
Theorem collect_endpoints_physical `{Platform}
    (oui_data : gmap string string) (handler : Handler)
    (arp_data iface_data mac_data : table) (endpoint_data : dict string Obs.t) :
  dict_wf mac_data →
  collect_endpoints oui_data handler arp_data iface_data
    (dict_items mac_data) [] = Ok endpoint_data →
  dict_keys endpoint_data
  = (filter (λ item, physical_row item = true) mac_data).*1
  ∧ Forall (collected_item oui_data handler arp_data iface_data mac_data)
      endpoint_data.
Proof.
  intros Hwf Hcollect. split.
  - by apply (collect_endpoints_keys _ _ _ _ _ [] _ Hwf Hcollect).
  - by apply (collect_endpoints_items _ _ _ _ mac_data _ [] _
                (reflexivity _) Hcollect).
Qed.

Lemma collect_endpoints_physical_witness :
  ∃ endpoint_data,
    @collect_endpoints Sample.platform ∅ Sample.handler Sample.arp_table
      Sample.iface_table Sample.mac_table [] = Ok endpoint_data
    ∧ dict_keys endpoint_data
      = (filter (λ item, physical_row item = true) Sample.mac_table).*1
    ∧ Forall (@collected_item Sample.platform ∅ Sample.handler
                Sample.arp_table Sample.iface_table Sample.mac_table)
        endpoint_data.
Proof.
  destruct (@collect_endpoints Sample.platform ∅ Sample.handler
              Sample.arp_table Sample.iface_table Sample.mac_table [])
    as [endpoint_data|e] eqn:Hcollect.
  - exists endpoint_data. split; [reflexivity|].
    apply (@collect_endpoints_physical Sample.platform ∅ Sample.handler
             Sample.arp_table Sample.iface_table Sample.mac_table
             endpoint_data); [compute_done|exact Hcollect].
  - exfalso. vm_compute in Hcollect. discriminate Hcollect.
Defined.

(** The observation of the sample switch: Speed and Duplex are those of
    the interface whose normalized name is that of the port. *)
Example collect_endpoints_sample :
  @collect_endpoints Sample.platform ∅ Sample.handler Sample.arp_table
    Sample.iface_table Sample.mac_table []
  = Ok [(Sample.mac1,
         {| Obs.Hostname := "host-10.0.0.1"; Obs.IP_Address := "10.0.0.1";
            Obs.Switch := "SW1"; Obs.Interface := "Gi1/0/1";
            Obs.Speed := "a-1000"; Obs.Duplex := "a-full";
            Obs.MAC_Address := Sample.mac1; Obs.Vendor := "Unknown";
            Obs.Vlan := "10" |})].
Proof. by vm_compute. Qed.

(** ** [run]: what a run saves *)

Section snapshot_facts.
Context `{Platform}.
Implicit Types (oui : gmap string string) (w : world).

Local Arguments thread_executor : simpl never.
Local Arguments load_mac_vendor : simpl never.
Local Arguments refactor_data : simpl never.

Lemma task_endpoints_keyed oui device endpoint_data :
  task_endpoints oui device = Some endpoint_data →
  Forall keyed endpoint_data.
Proof.
  unfold task_endpoints.
  destruct (GenericHandler device) as [handler|]; [|done].
  destruct (query_tables handler) as [[[mac_data arp_data] iface_data]|];
    [|done].
  destruct (collect_endpoints _ _ _ _ _ _) as [r|] eqn:Hcollect; [|done].
  intros [= <-].
  pose proof (collect_endpoints_items _ _ _ _ mac_data _ [] _
                (reflexivity _) Hcollect (Forall_nil_2 _)) as Hall.
  eapply Forall_impl; [exact Hall|]. by intros item [? _].
Qed.

Lemma thread_executor_keyed oui schedule devices w :
  map_Forall (λ _ eps, Forall keyed eps)
    (thread_executor oui schedule devices (∅, w)).1.
Proof.
  intros device eps Hlook.
  destruct (thread_executor_effect oui schedule devices ∅ w device)
    as [Heff _].
  unfold dict in *. rewrite Heff, lookup_empty in Hlook.
  destruct (decide (device ∈ schedule)); [|done].
  destruct (task_endpoints oui device) as [eps'|] eqn:Htask; [|done].
  injection Hlook as <-. by eapply task_endpoints_keyed.
Qed.
End snapshot_facts.

(** X11. Once the vendor registry is loaded, a run goes on to save one
    snapshot, whichever devices fail and in whatever order the tasks
    finish.  When the snapshot directory cannot be made or the file cannot
    be created (a name with a slash in it), the run ends with that
    exception.  Otherwise it succeeds: exactly one file is written, named
    after the type, the name and the time, one signal is emitted for it,
    and the endpoints in the file are numbered from 1 without gaps and no
    two of them share a MAC address. *)
Theorem run_saves_snapshot `{Platform} (name type : string)
    (lines schedule : list string) (w w0 : world)
    (oui_data : gmap string string) :
  load_mac_vendor (logging_info w "Snapshot worker started.")
  = Ok (oui_data, w0) →
  match snapshot_access type name (now w) with
  | Raise e => run name type lines schedule w = Raise e
  | Ok _ =>
      ∃ endpoints w1,
        run name type lines schedule w = Ok w1
        ∧ files w1
          = <[snapshot_filename type name (strftime (now w)) :=
                {| mtime := now w; body := SnapshotJson endpoints |}]>
              (files w0)
        ∧ emitted w1 = emitted w ++ [(strftime (now w), type, name)]
        ∧ dict_keys endpoints = seq 1 (length endpoints)
        ∧ NoDup (Ep.MAC_Address <$> dict_values endpoints)
  end.
Proof.
  intros Hload. rewrite run_unfold, Hload. simpl.
  apply load_mac_vendor_world in Hload as [Hnow Hemit]. simpl in *.
  set (devices := nonempty_lines lines).
  destruct (thread_executor_effect oui_data schedule devices ∅ w0 "")
    as [_ (Hfiles & Hnow' & Hemit')].
  pose proof (thread_executor_keyed oui_data schedule devices w0) as Hkeyed.
  destruct (thread_executor oui_data schedule devices (∅, w0)) as [data wa].
  simpl in *.
  destruct (refactor_loop_inv devices data) as (st & Hloop & _).
  destruct (refactor_loop_ids _ _ _ Hloop) as (_ & Hkeys & _ & Hmacs).
  unfold refactor_data. rewrite Hloop. simpl. rewrite Hnow', Hnow.
  destruct (snapshot_access type name (now w)) as [[]|e]; [|done].
  exists (refactored st). eexists. split; [done|].
  unfold snapshot_saved. simpl. rewrite Hfiles, Hnow', Hnow, Hemit', Hemit.
  split_and!; [done|done| |].
  - rewrite Hkeys. f_equal.
    rewrite <-(length_fmap fst (refactored st)).
    change (refactored st).*1 with (dict_keys (refactored st)).
    by rewrite Hkeys, length_seq.
  - rewrite Hmacs by by apply all_items_keyed. apply NoDup_first_seen.
Qed.

Lemma run_saves_snapshot_witness :
  (∃ endpoints w1,
     @run Sample.platform "floor1" "Pre" ["SW1"; "SW9"] ["SW9"; "SW1"]
       Sample.stale_cache_world = Ok w1
     ∧ files w1
       = <[@snapshot_filename Sample.platform "Pre" "floor1"
             (@strftime Sample.platform (now Sample.stale_cache_world)) :=
             {| mtime := now Sample.stale_cache_world;
                body := SnapshotJson endpoints |}]>
           (files Sample.stale_cache_world)
     ∧ emitted w1
       = emitted Sample.stale_cache_world
         ++ [(@strftime Sample.platform (now Sample.stale_cache_world),
              "Pre", "floor1")]
     ∧ dict_keys endpoints = seq 1 (length endpoints)
     ∧ NoDup (Ep.MAC_Address <$> dict_values endpoints))
  ∧ @run Sample.platform "floor1/2" "Pre" ["SW1"; "SW9"] ["SW9"; "SW1"]
      Sample.stale_cache_world
    = Raise (OtherError "FileNotFoundError").
Proof.
  split.
  - exact (@run_saves_snapshot Sample.platform "floor1" "Pre" ["SW1"; "SW9"]
             ["SW9"; "SW1"] Sample.stale_cache_world
             (logging_info Sample.stale_cache_world
                "Snapshot worker started.")
             {[ "AABBCC" := "Acme" ]} eq_refl).
  - exact (@run_saves_snapshot Sample.platform "floor1/2" "Pre"
             ["SW1"; "SW9"] ["SW9"; "SW1"] Sample.stale_cache_world
             (logging_info Sample.stale_cache_world
                "Snapshot worker started.")
             {[ "AABBCC" := "Acme" ]} eq_refl).
Defined.

(** ** [get_mac_vendor]: the notation of a MAC address *)

Section vendor_facts.

Lemma upper_codes_lower c : upper_codes (Re.lower c) = upper_codes c.
Proof.
  destruct c as [[] [] [] [] [] [] [] []]; reflexivity.
Qed.

Lemma upper_codes_length c : 1 ≤ length (upper_codes c).
Proof.
  destruct c as [[] [] [] [] [] [] [] []]; vm_compute; lia.
Qed.

Lemma is_separator_lower c : is_separator (Re.lower c) = is_separator c.
Proof.
  destruct c as [[] [] [] [] [] [] [] []]; reflexivity.
Qed.

Lemma filter_separators_lower mac :
  Re.filter_chars (λ c, negb (is_separator c)) (Re.lower_string mac)
  = Re.lower_string (Re.filter_chars (λ c, negb (is_separator c)) mac).
Proof.
  unfold Re.lower_string. induction mac as [|c mac IH]; [done|].
  cbn [Re.map_chars Re.filter_chars]. rewrite is_separator_lower.
  destruct (is_separator c); cbn [negb Re.map_chars]; by rewrite IH.
Qed.

Lemma upper_string_lower s : upper_string (Re.lower_string s) = upper_string s.
Proof.
  unfold Re.lower_string. induction s as [|c s IH]; [done|].
  cbn [Re.map_chars upper_string]. by rewrite upper_codes_lower, IH.
Qed.

Lemma oui_prefix_lower mac : oui_prefix (Re.lower_string mac) = oui_prefix mac.
Proof.
  unfold oui_prefix. by rewrite filter_separators_lower, upper_string_lower.
Qed.

(** Every character gives at least one code point, so the first code
    points of the upper-cased text are those of its first characters. *)
Lemma take_upper_string m n s s' :
  m ≤ n → Re.take n s = Re.take n s' →
  take m (upper_string s) = take m (upper_string s').
Proof.
  revert m n s'. induction s as [|c s IH]; intros m n s' Hmn Htake.
  - destruct n as [|n]; [by replace m with 0 by lia|].
    by destruct s'.
  - destruct n as [|n]; [by replace m with 0 by lia|].
    destruct s' as [|c' s']; [done|].
    cbn [Re.take] in Htake. injection Htake as <- Htake.
    cbn [upper_string]. rewrite !take_app. f_equal.
    apply (IH _ n); [|done].
    pose proof (upper_codes_length c). lia.
Qed.
End vendor_facts.

(** X12. The vendor of a MAC address depends neither on the case of its
    letters nor on its separators: two addresses that agree once [.], [-]
    and [:] are removed and ASCII letters are folded get the same vendor
    from every registry ([aabb.cc00.0001] as [AA:BB:CC:00:00:01]), and only
    the first six remaining characters are looked at. *)
Theorem get_mac_vendor_notation (oui_data : gmap string string)
    (mac mac' : string) :
  Re.take 6 (Re.lower_string
               (Re.filter_chars (λ c, negb (is_separator c)) mac))
  = Re.take 6 (Re.lower_string
                 (Re.filter_chars (λ c, negb (is_separator c)) mac')) →
  get_mac_vendor oui_data mac = get_mac_vendor oui_data mac'.
Proof.
  intros Heq. unfold get_mac_vendor.
  rewrite <-(oui_prefix_lower mac), <-(oui_prefix_lower mac').
  unfold oui_prefix. rewrite !filter_separators_lower.
  by rewrite (take_upper_string 6 6 _ _ (le_n 6) Heq).
Qed.

Lemma get_mac_vendor_notation_witness :
  get_mac_vendor {[ "AABBCC" := "Acme" ]} "aabb.cc00.0001"
  = get_mac_vendor {[ "AABBCC" := "Acme" ]} "AA:BB:CC:ff:ff:ff".
Proof.
  apply (get_mac_vendor_notation _ "aabb.cc00.0001" "AA:BB:CC:ff:ff:ff").
  reflexivity.
Defined.

(** ** [get_mac_data]: endpoints under their MAC address *)

Section comprehension_facts.
Context {X K V : Type} `{EqDecision K}.
Implicit Types (key : X → K) (val : X → V) (xs : list X).

Lemma dict_comprehension_snoc key val xs x :
  dict_comprehension key val (xs ++ [x])
  = dict_set (dict_comprehension key val xs) (key x) (val x).
Proof. unfold dict_comprehension. by rewrite foldl_app. Qed.

Lemma dict_comprehension_keys key val xs :
  dict_keys (dict_comprehension key val xs) = first_seen (key <$> xs).
Proof.
  induction xs as [|x xs IH] using rev_ind; [done|].
  rewrite dict_comprehension_snoc, dict_keys_set, fmap_app. csimpl.
  rewrite first_seen_snoc, <-IH.
  destruct (dict_contains _ (key x)) eqn:Hc.
  - apply dict_contains_true in Hc. by rewrite decide_True.
  - apply dict_contains_false in Hc. by rewrite decide_False.
Qed.

Lemma dict_comprehension_get key val xs k :
  dict_get (dict_comprehension key val xs) k
  = val <$> last (filter (λ x, key x = k) xs).
Proof.
  induction xs as [|x xs IH] using rev_ind; [done|].
  rewrite dict_comprehension_snoc, dict_get_set, filter_app, filter_cons.
  rewrite filter_nil. destruct (decide (key x = k)) as [Hk|Hk].
  - by rewrite last_snoc.
  - by rewrite app_nil_r.
Qed.

Lemma dict_comprehension_NoDup key val xs :
  NoDup (key <$> xs) →
  dict_comprehension key val xs = (λ x, (key x, val x)) <$> xs.
Proof.
  induction xs as [|x xs IH] using rev_ind; [done|].
  rewrite fmap_app. csimpl. intros (Hnd & Hx & _)%NoDup_app.
  rewrite dict_comprehension_snoc, fmap_app, <-IH by done. csimpl.
  apply dict_set_fresh, dict_contains_false.
  rewrite dict_comprehension_keys, elem_of_first_seen.
  intros Hin. apply (Hx _ Hin). left.
Qed.
End comprehension_facts.

(** X13. [get_mac_data] keeps one endpoint per MAC address: the MACs of
    the snapshot in the order of their first occurrence, and under each of
    them the last endpoint of the snapshot that carries it.  An endpoint
    whose MAC comes again later in the snapshot is dropped without
    notice. *)
Theorem get_mac_data_last_wins (snapshot_data : dict string Ep.t) :
  dict_keys (rekey snapshot_data)
  = first_seen (Ep.MAC_Address <$> dict_values snapshot_data)
  ∧ ∀ mac,
      dict_get (rekey snapshot_data) mac
      = last (filter (λ ep, Ep.MAC_Address ep = mac)
                (dict_values snapshot_data)).
Proof.
  unfold rekey. split.
  - apply dict_comprehension_keys.
  - intros mac. rewrite dict_comprehension_get. apply option_fmap_id.
Qed.

(** X14. On a snapshot whose endpoints have pairwise distinct MAC
    addresses, [get_mac_data] loses nothing: it holds the same endpoints
    in the same order, each under its own MAC address. *)
Theorem get_mac_data_lossless (snapshot_data : dict string Ep.t) :
  NoDup (Ep.MAC_Address <$> dict_values snapshot_data) →
  rekey snapshot_data
  = (λ ep, (Ep.MAC_Address ep, ep)) <$> dict_values snapshot_data
  ∧ dict_values (rekey snapshot_data) = dict_values snapshot_data.
Proof.
  intros Hnd. unfold rekey. rewrite dict_comprehension_NoDup by done.
  split; [done|]. unfold dict_values at 1.
  rewrite <-list_fmap_compose. apply list_fmap_id.
Qed.

Lemma get_mac_data_lossless_witness :
  rekey [("1", Sample.endpoint Sample.mac1 "SW1" "Gi1/0/1" "1G" "10.0.0.1");
         ("2", Sample.endpoint Sample.mac3 "SW1" "Gi1/0/3" "1G" "10.0.0.3")]
  = Sample.pre_snapshot.
Proof.
  refine (proj1 (get_mac_data_lossless
    [("1", Sample.endpoint Sample.mac1 "SW1" "Gi1/0/1" "1G" "10.0.0.1");
     ("2", Sample.endpoint Sample.mac3 "SW1" "Gi1/0/3" "1G" "10.0.0.3")] _)).
  compute_done.
Defined.

(** ** [save_snapshot] and [scan_snapshots]: the file name read back *)

Section file_name_facts.
Implicit Types (p : list Re.atom) (s g r : string) (c : ascii).

Lemma count_char_app c s r :
  Re.count_char c (s +:+ r) = Re.count_char c s + Re.count_char c r.
Proof.
  induction s as [|a s IH]; [done|].
  rewrite string_app_cons. cbn [Re.count_char]. rewrite IH. lia.
Qed.

(** Every literal of a pattern takes its own character of the string. *)
Lemma match_here_count c p s groups :
  Re.match_here p s = Some groups → Re.count_atom c p ≤ Re.count_char c s.
Proof.
  revert s groups. induction p as [|a p IH]; intros s groups.
  - simpl. lia.
  - destruct a as [a| |].
    + destruct s as [|b s]; [done|]. cbn [Re.match_here Re.count_atom Re.count_char].
      case_bool_decide as Hb; [|done]. subst b. intros Hm%IH. lia.
    + destruct s as [|b s]; [done|]. cbn [Re.match_here Re.count_atom Re.count_char].
      destruct (Re.dot b); [|done]. intros Hm%IH. lia.
    + cbn [Re.count_atom]. revert groups.
      induction s as [|b s IHs]; intros groups; rewrite match_here_group.
      * destruct (Re.match_here p "") as [gs|] eqn:Hp; [|done].
        intros _. by apply (IH "" gs).
      * assert (Re.match_here p (String b s) = None
                ∨ Re.count_atom c p ≤ Re.count_char c (String b s)) as Hhere.
        { destruct (Re.match_here p (String b s)) as [gs|] eqn:Hp; [|by left].
          right. by apply (IH _ gs). }
        cbn [Re.count_char] in *.
        destruct (Re.dot b).
        -- destruct (Re.match_here (Re.DotStarGroup :: p) s)
             as [[|g gs]|] eqn:Hs.
           ++ specialize (IHs _ eq_refl). destruct Hhere as [->|?]; [done|].
              intros _. lia.
           ++ specialize (IHs _ eq_refl). intros _. lia.
           ++ destruct Hhere as [->|?]; [done|]. intros _. lia.
        -- destruct Hhere as [->|?]; [done|]. intros _. lia.
Qed.

(** A greedy group stops where stopping later leaves too few of some
    character for the rest of the pattern. *)
Lemma match_here_group_stop c p g a r groups :
  Re.all_chars Re.dot g = true →
  Re.match_here p (String a r) = Some groups →
  Re.count_char c r < Re.count_atom c p →
  Re.match_here (Re.DotStarGroup :: p) (g +:+ String a r) = Some (g :: groups).
Proof.
  intros Hg Hp Hcount. induction g as [|b g IH].
  - rewrite string_app_nil_l, match_here_group, Hp.
    destruct (Re.match_here (Re.DotStarGroup :: p) r) as [gs|] eqn:Hr.
    + apply (match_here_count c) in Hr. cbn [Re.count_atom] in Hr. lia.
    + by destruct (Re.dot a).
  - cbn [Re.all_chars] in Hg. apply andb_prop in Hg as [Hb Hg].
    rewrite string_app_cons, match_here_group, Hb. by rewrite IH.
Qed.

Lemma match_here_char c p s :
  Re.match_here (Re.Char c :: p) (String c s) = Re.match_here p s.
Proof. cbn [Re.match_here]. by rewrite bool_decide_eq_true_2. Qed.

Lemma search_match_here p s groups :
  Re.match_here p s = Some groups → Re.search p s = Some groups.
Proof. intros Hm. destruct s; simpl; by rewrite Hm. Qed.

Lemma plain_dot s : plain s = true → Re.all_chars Re.dot s = true.
Proof.
  unfold plain. induction s as [|a s IH]; [done|]. cbn [Re.all_chars].
  intros [[Ha _]%andb_prop Hs]%andb_prop. by rewrite Ha, IH.
Qed.

Lemma plain_count s : plain s = true → Re.count_char "]" s = 0.
Proof.
  unfold plain. induction s as [|a s IH]; [done|].
  cbn [Re.all_chars Re.count_char].
  intros [[_ Ha%negb_true_iff]%andb_prop Hs]%andb_prop.
  by rewrite Ha, IH.
Qed.

Lemma snapshot_of_file_name slot :
  plain (type slot) = true → plain (name slot) = true →
  plain (timestamp slot) = true →
  snapshot_of_file (file_name slot) = Some slot.
Proof.
  destruct slot as [ts ty nm]. cbn [type name timestamp].
  intros Hty Hnm Hts. unfold snapshot_of_file, file_name, snapshot_pattern.
  cbn [type name timestamp].
  set (p3 := [Re.Char "]"; Re.Dot; Re.Char "j"; Re.Char "s"; Re.Char "o";
              Re.Char "n"]%char).
  set (p2 := [Re.Char "]"; Re.Char "_"; Re.Char "["]%char
             ++ Re.DotStarGroup :: p3).
  set (p1 := [Re.Char "]"; Re.Char "_"; Re.Char "["]%char
             ++ Re.DotStarGroup :: p2).
  assert (Re.match_here (Re.DotStarGroup :: p3) (ts +:+ "].json")
          = Some [ts]) as H3.
  { apply (match_here_group_stop "]"); [by apply plain_dot|done|].
    vm_compute. lia. }
  assert (Re.match_here (Re.DotStarGroup :: p2)
            (nm +:+ "]_[" +:+ ts +:+ "].json") = Some [nm; ts]) as H2.
  { apply (match_here_group_stop "]"); [by apply plain_dot| |].
    - unfold p2. cbn [app]. rewrite ?string_app_cons, ?string_app_nil_l.
      by rewrite !match_here_char.
    - rewrite ?string_app_cons, ?string_app_nil_l. cbn [Re.count_char].
      rewrite count_char_app, (plain_count ts) by done. vm_compute. lia. }
  assert (Re.match_here (Re.DotStarGroup :: p1)
            (ty +:+ "]_[" +:+ nm +:+ "]_[" +:+ ts +:+ "].json")
          = Some [ty; nm; ts]) as H1.
  { apply (match_here_group_stop "]"); [by apply plain_dot| |].
    - unfold p1. cbn [app]. rewrite ?string_app_cons, ?string_app_nil_l.
      by rewrite !match_here_char.
    - rewrite ?string_app_cons, ?string_app_nil_l. cbn [Re.count_char].
      rewrite count_char_app, (plain_count nm) by done.
      rewrite ?string_app_cons, ?string_app_nil_l. cbn [Re.count_char].
      rewrite count_char_app, (plain_count ts) by done. vm_compute. lia. }
  rewrite (search_match_here _ _ [ty; nm; ts]); [done|].
  rewrite ?string_app_cons, ?string_app_nil_l.
  by rewrite match_here_char.
Qed.
End file_name_facts.

(** X15. The snapshots table is rebuilt from the file names: when the
    type, the name and the timestamp of each snapshot hold no closing
    bracket and no line feed, scanning a directory that lists the files
    [save_snapshot] wrote for them appends exactly their rows (name, type,
    timestamp), in listing order. *)
Theorem scan_snapshots_reads_file_names (snapshots_path : string)
    (slots : list snapshot) (f : form) :
  Forall (λ slot, plain (type slot) = true ∧ plain (name slot) = true
                  ∧ plain (timestamp slot) = true) slots →
  snapshots_table
    (scan_snapshots snapshots_path (Some (file_name <$> slots)) f)
  = snapshots_table f
    ++ ((λ slot, (name slot, type slot, timestamp slot)) <$> slots).
Proof.
  intros Hslots. unfold scan_snapshots. rewrite scan_loop_table.
  cbn [logging_debug snapshots_table]. f_equal.
  induction Hslots as [|slot slots (Hty & Hnm & Hts) _ IH]; [done|].
  csimpl. by rewrite snapshot_of_file_name, IH.
Qed.

Lemma scan_snapshots_reads_file_names_witness :
  snapshots_table
    (scan_snapshots "/out/Snapshots"
       (Some (file_name
                <$> [ {| timestamp := "2024-01-01_10.30"; type := "Pre";
                         name := "floor [1" |} ]))
       empty_form)
  = [("floor [1", "Pre", "2024-01-01_10.30")].
Proof.
  apply (scan_snapshots_reads_file_names "/out/Snapshots"
           [ {| timestamp := "2024-01-01_10.30"; type := "Pre";
                name := "floor [1" |} ] empty_form).
  repeat constructor.
Defined.

(** A closing bracket in the name moves the boundaries of the groups: the
    file written for the name [a]_[b] is listed with another type and
    another name. *)
Example scan_snapshots_bracket_in_name :
  snapshot_of_file
    (file_name {| timestamp := "2024-01-01_10.30"; type := "Pre";
                  name := "a]_[b" |})
  = Some {| timestamp := "2024-01-01_10.30"; type := "Pre]_[a";
            name := "b" |}.
Proof. reflexivity. Qed.

(** ** [get_selected_items] and [table_menu_event] *)

Section selection_facts.
Implicit Types (data : list selected) (cells : string * string * string).

Lemma select_item_row data r cells :
  filled cells →
  foldl select_item (data, "", "", "") (row_items r cells)
  = (data ++ [entry_of r cells], "", "", "").
Proof.
  destruct cells as [[name snapshot_type] timestamp].
  intros (Hn & Ht & Hs). simpl in *. unfold entry_of. simpl.
  rewrite (bool_decide_eq_true_2 (name ≠ "")) by done. simpl.
  rewrite (bool_decide_eq_true_2 (name ≠ "")) by done.
  rewrite (bool_decide_eq_true_2 (snapshot_type ≠ "")) by done. simpl.
  rewrite (bool_decide_eq_true_2 (name ≠ "")) by done.
  rewrite (bool_decide_eq_true_2 (snapshot_type ≠ "")) by done.
  by rewrite (bool_decide_eq_true_2 (timestamp ≠ "")) by done.
Qed.

Lemma select_item_rows data (rows : list (nat * (string * string * string))) :
  Forall (λ row, filled row.2) rows →
  foldl select_item (data, "", "", "")
    (rows ≫= λ row, row_items row.1 row.2)
  = (data ++ ((λ row, entry_of row.1 row.2) <$> rows), "", "", "").
Proof.
  intros Hrows. revert data.
  induction Hrows as [|[r cells] rows Hrow _ IH]; intros data.
  - by rewrite app_nil_r.
  - csimpl. rewrite foldl_app, select_item_row by done.
    rewrite IH. by rewrite <-app_assoc.
Qed.
End selection_facts.

(** X16. When whole rows are selected and the selection lists them row by
    row, each row with its name, type and timestamp cell in this order, and
    no cell is empty, [get_selected_items] gives one entry per selected
    row, in that order, with the three texts of the row and its index. *)
Theorem get_selected_items_rows
    (rows : list (nat * (string * string * string))) :
  Forall (λ row, filled row.2) rows →
  get_selected_items (rows ≫= λ row, row_items row.1 row.2)
  = (λ row, entry_of row.1 row.2) <$> rows.
Proof.
  intros Hrows. unfold get_selected_items.
  by rewrite select_item_rows.
Qed.

Lemma get_selected_items_rows_witness :
  get_selected_items
    (row_items 0 ("floor1", "Pre", "2024-01-01_10.30")
     ++ row_items 3 ("floor1", "Post", "2024-01-02_09.00"))
  = [ {| sel_name := "floor1"; sel_type := "Pre";
         sel_timestamp := "2024-01-01_10.30"; sel_row := 0 |};
      {| sel_name := "floor1"; sel_type := "Post";
         sel_timestamp := "2024-01-02_09.00"; sel_row := 3 |} ].
Proof.
  apply (get_selected_items_rows
           [(0, ("floor1", "Pre", "2024-01-01_10.30"));
            (3, ("floor1", "Post", "2024-01-02_09.00"))]).
  repeat constructor; done.
Defined.

(** An empty cell is never complete: its row gives no entry, and the texts
    collected from it go into the entry of the next row. *)
Example get_selected_items_empty_name :
  get_selected_items
    (row_items 0 ("", "Pre", "2024-01-01_10.30")
     ++ row_items 1 ("floor2", "Post", "2024-01-02_09.00"))
  = [ {| sel_name := "floor2"; sel_type := "Pre";
         sel_timestamp := "2024-01-01_10.30"; sel_row := 1 |} ].
Proof. reflexivity. Qed.

(** X17. When the context menu has enabled Compare (two entries of
    different types are selected) and both entries are of type [Pre] or
    [Post], the compare worker takes the [Pre] entry as the pre-snapshot
    and the [Post] entry as the post-snapshot, whichever of the two was
    selected first; it never fails for want of a second entry. *)
Theorem compare_picks_pre_and_post (selectedItems : list item) :
  compare_action (table_menu_event selectedItems) = true →
  (∀ entry, entry ∈ get_selected_items selectedItems →
            sel_type entry = "Pre" ∨ sel_type entry = "Post") →
  ∃ pre_snapshot post_snapshot,
    CompareRun.pick (get_selected_items selectedItems)
    = Ok (pre_snapshot, post_snapshot)
    ∧ sel_type pre_snapshot = "Pre" ∧ sel_type post_snapshot = "Post"
    ∧ get_selected_items selectedItems ≡ₚ [pre_snapshot; post_snapshot].
Proof.
  unfold table_menu_event.
  destruct (get_selected_items selectedItems) as [|a [|b [|c data]]];
    simpl; try done.
  intros Hne%bool_decide_eq_true Htypes.
  destruct (Htypes a) as [Ha|Ha]; [by left| |];
    (destruct (Htypes b) as [Hb|Hb]; [right; by left| |]); try congruence.
  - exists a, b. unfold CompareRun.pick. simpl.
    rewrite (decide_True (P := sel_type a = "Pre")) by done.
    rewrite (decide_False (P := sel_type a = "Post")) by congruence.
    done.
  - exists b, a. unfold CompareRun.pick. simpl.
    rewrite (decide_False (P := sel_type a = "Pre")) by congruence.
    rewrite (decide_True (P := sel_type a = "Post")) by done.
    split_and!; [done..|]. apply Permutation_swap.
Qed.

Lemma compare_picks_pre_and_post_witness :
  CompareRun.pick
    (get_selected_items
       (row_items 3 ("floor1", "Post", "2024-01-02_09.00")
        ++ row_items 0 ("floor1", "Pre", "2024-01-01_10.30")))
  = Ok ({| sel_name := "floor1"; sel_type := "Pre";
           sel_timestamp := "2024-01-01_10.30"; sel_row := 0 |},
        {| sel_name := "floor1"; sel_type := "Post";
           sel_timestamp := "2024-01-02_09.00"; sel_row := 3 |}).
Proof.
  destruct (compare_picks_pre_and_post
              (row_items 3 ("floor1", "Post", "2024-01-02_09.00")
               ++ row_items 0 ("floor1", "Pre", "2024-01-01_10.30")))
    as (pre_snapshot & post_snapshot & Hpick & _).
  - reflexivity.
  - intros entry Hin. vm_compute in Hin.
    apply elem_of_cons in Hin as [->|Hin]; [by right|].
    apply elem_of_cons in Hin as [->|Hin]; [by left|].
    by apply elem_of_nil in Hin.
  - rewrite Hpick. vm_compute in Hpick. by injection Hpick as <- <-.
Defined.

(** With two entries of other types the worker takes the second entry
    for both sides and compares it with itself. *)
Example compare_picks_second_twice (a b : selected) :
  sel_type a ≠ "Pre" → sel_type a ≠ "Post" →
  CompareRun.pick [a; b] = Ok (b, b).
Proof.
  intros Hpre Hpost. unfold CompareRun.pick. simpl.
  rewrite (decide_False (P := sel_type a = "Pre")) by done.
  by rewrite (decide_False (P := sel_type a = "Post")) by done.
Qed.

(** ** [delete_snapshot_event]: rows are removed from the bottom up *)

Section delete_facts.
Context `{Platform}.
Implicit Types (data ds : list selected) (f : form) (rows : list nat).
Implicit Types (files : gmap string file).

Lemma insert_by_row_perm x ds : insert_by_row x ds ≡ₚ x :: ds.
Proof.
  induction ds as [|y ds IH]; simpl; [done|].
  destruct (decide (sel_row y < sel_row x)); [done|].
  rewrite IH. apply Permutation_swap.
Qed.

Lemma sort_by_row_perm data : sort_by_row data ≡ₚ data.
Proof.
  unfold sort_by_row.
  assert (∀ acc, foldl (λ sorted x, insert_by_row x sorted) acc data
                 ≡ₚ acc ++ data) as Hgen.
  { induction data as [|x data IH]; intros acc; simpl.
    - by rewrite app_nil_r.
    - rewrite IH, insert_by_row_perm. simpl. apply Permutation_middle. }
  apply (Hgen []).
Qed.

(** Strictly falling row numbers. *)
Lemma insert_by_row_sorted x ds :
  StronglySorted (λ a b, sel_row b < sel_row a) ds →
  sel_row x ∉ sel_row <$> ds →
  StronglySorted (λ a b, sel_row b < sel_row a) (insert_by_row x ds).
Proof.
  induction ds as [|y ds IH]; simpl; intros Hsorted Hx.
  - repeat constructor.
  - apply StronglySorted_inv in Hsorted as [Hds Hy].
    apply not_elem_of_cons in Hx as [Hxy Hx].
    destruct (decide (sel_row y < sel_row x)) as [Hlt|Hge].
    + constructor; [by constructor|]. constructor; [done|].
      eapply Forall_impl; [exact Hy|]. simpl. lia.
    + constructor; [by apply IH|].
      apply Forall_forall. intros z Hz.
      rewrite insert_by_row_perm in Hz.
      apply elem_of_cons in Hz as [->|Hz]; [lia|].
      by apply (proj1 (Forall_forall _ _) Hy).
Qed.

Lemma sort_by_row_sorted data :
  NoDup (sel_row <$> data) →
  StronglySorted (λ a b, sel_row b < sel_row a) (sort_by_row data).
Proof.
  unfold sort_by_row.
  assert (∀ acc,
    StronglySorted (λ a b, sel_row b < sel_row a) acc →
    NoDup (sel_row <$> acc ++ data) →
    StronglySorted (λ a b, sel_row b < sel_row a)
      (foldl (λ sorted x, insert_by_row x sorted) acc data)) as Hgen.
  { induction data as [|x data IH]; intros acc Hacc Hnd; simpl; [done|].
    rewrite fmap_app in Hnd. csimpl in Hnd.
    apply NoDup_app in Hnd as (Hnd1 & Hdis & [Hx Hnd2]%NoDup_cons).
    apply IH.
    - apply insert_by_row_sorted; [done|].
      intros Hin. apply (Hdis _ Hin). left.
    - rewrite fmap_app, insert_by_row_perm. csimpl.
      apply NoDup_cons. split.
      + rewrite elem_of_app. intros [Hin|Hin]; [|done].
        apply (Hdis _ Hin). left.
      + apply NoDup_app. split_and!; [done| |done].
        intros r Hr Hin. apply (Hdis _ Hr). by right. }
  intros Hnd. apply Hgen; [constructor|done].
Qed.

Lemma rows_from_ext {A} i rows rows' (table : list A) :
  (∀ r, r ∈ rows ↔ r ∈ rows') →
  rows_from i rows table = rows_from i rows' table.
Proof.
  intros Hrows. revert i. induction table as [|x table IH]; intros i; [done|].
  simpl. rewrite IH.
  destruct (decide (i ∈ rows)) as [Hi|Hi], (decide (i ∈ rows')) as [Hi'|Hi'];
    try done.
  - by apply Hrows in Hi.
  - by apply Hrows in Hi'.
Qed.

Lemma rows_from_above {A} i rows (table : list A) :
  Forall (λ r, r < i) rows → rows_from i rows table = table.
Proof.
  revert i. induction table as [|x table IH]; intros i Hrows; [done|].
  simpl. rewrite decide_False.
  - f_equal. apply IH. eapply Forall_impl; [exact Hrows|]. simpl. lia.
  - intros Hi. apply (proj1 (Forall_forall _ _) Hrows) in Hi. lia.
Qed.

(** Removing the lowest selected row first leaves the other selected
    rows where they are. *)
Lemma rows_from_delete {A} i j rows (table : list A) :
  i ≤ j → Forall (λ r, r < j) rows →
  rows_from i (j :: rows) table = rows_from i rows (delete (j - i) table).
Proof.
  revert i. induction table as [|x table IH]; intros i Hij Hrows; [done|].
  simpl. destruct (decide (i = j)) as [->|Hne].
  - rewrite decide_True by left. rewrite Nat.sub_diag. simpl.
    rewrite (rows_from_above j rows table) by done.
    apply rows_from_above. constructor; [lia|].
    eapply Forall_impl; [exact Hrows|]. simpl. lia.
  - replace (j - i) with (S (j - S i)) by lia. simpl.
    rewrite IH by (done || lia).
    destruct (decide (i ∈ j :: rows)) as [Hi|Hi], (decide (i ∈ rows))
      as [Hi'|Hi']; try done.
    + by apply elem_of_cons in Hi as [?|?].
    + exfalso. apply Hi. by right.
Qed.

Lemma filter_ext_elem {A} (P Q : A → Prop) `{∀ x, Decision (P x)}
    `{∀ x, Decision (Q x)} (l : list A) :
  (∀ x, x ∈ l → P x ↔ Q x) → filter P l = filter Q l.
Proof.
  induction l as [|x l IH]; intros HPQ; [done|].
  rewrite !filter_cons, IH by (intros y Hy; apply HPQ; by right).
  destruct (decide (P x)) as [HP|HP], (decide (Q x)) as [HQ|HQ]; try done.
  - exfalso. apply HQ, HPQ; [left|done].
  - exfalso. apply HP, HPQ; [left|done].
Qed.

Lemma delete_entries_sorted ds files f :
  StronglySorted (λ a b, sel_row b < sel_row a) ds →
  NoDup (file_path <$> ds) →
  snapshots_table (foldl delete_entry (files, f) ds).2
  = rows_from 0
      (sel_row <$> filter (λ entry, is_Some (files !! file_path entry)) ds)
      (snapshots_table f)
  ∧ ∀ path,
      (foldl delete_entry (files, f) ds).1 !! path
      = if decide (path ∈ file_path <$> ds) then None else files !! path.
Proof.
  revert files f. induction ds as [|d ds IH]; intros files f Hsorted Hnd.
  - simpl. split; [|done]. symmetry. by apply rows_from_above.
  - apply StronglySorted_inv in Hsorted as [Hds Hd].
    csimpl in Hnd. apply NoDup_cons in Hnd as [Hpath Hnd].
    simpl. rewrite filter_cons.
    destruct (decide (is_Some (files !! file_path d))) as [Hsome|Hnone].
    + destruct (IH (delete (file_path d) files)
                  (log_info (removeRow (sel_row d) f)
                     ("Deleted snapshot: " +:+ sel_name d)) Hds Hnd)
        as [Htable Hfiles].
      split.
      * rewrite Htable. simpl.
        rewrite (filter_ext_elem
                   (λ entry, is_Some (delete (file_path d) files
                                        !! file_path entry))
                   (λ entry, is_Some (files !! file_path entry))).
        -- csimpl. rewrite rows_from_delete; [by rewrite Nat.sub_0_r|lia|].
           apply Forall_fmap. apply Forall_forall.
           intros e [_ He]%list_elem_of_filter.
           by apply (proj1 (Forall_forall _ _) Hd).
        -- intros e He. rewrite lookup_delete_ne; [done|].
           intros Heq. apply Hpath. rewrite Heq.
           by apply list_elem_of_fmap_2.
      * intros path. rewrite Hfiles.
        destruct (decide (path = file_path d)) as [->|Hne].
        -- rewrite (decide_True (P := file_path d ∈ file_path d :: _))
             by left.
           rewrite lookup_delete_eq. by destruct (decide _).
        -- rewrite lookup_delete_ne by done.
           destruct (decide (path ∈ file_path <$> ds)) as [Hin|Hnotin].
           ++ rewrite decide_True; [done|by right].
           ++ rewrite decide_False; [done|].
              by intros [?|?]%elem_of_cons.
    + destruct (IH files
                  (log_warning f
                     ("Snapshot file not found for deletion: "
                        +:+ file_path d)) Hds Hnd)
        as [Htable Hfiles].
      split; [done|].
      intros path. rewrite Hfiles.
      destruct (decide (path ∈ file_path <$> ds)) as [Hin|Hnotin].
      * rewrite decide_True; [done|by right].
      * destruct (decide (path = file_path d)) as [->|Hne].
        -- rewrite decide_True by left.
           destruct (files !! file_path d) eqn:Hlook; [|done].
           exfalso. apply Hnone. by eexists.
        -- rewrite decide_False; [done|]. by intros [?|?]%elem_of_cons.
Qed.
End delete_facts.

(** X18. [delete_snapshot_event] removes the selected rows from the bottom
    up, so that no removal shifts a row that is still to be removed: when
    the selected entries sit on distinct rows and name distinct files, the
    table afterwards is the table without the rows of the entries whose
    file was found, every other row kept in place and order, and the files
    of all selected entries are gone from the disk, no other file
    touched.  An entry whose file is missing keeps its row. *)
Theorem delete_snapshot_event_rows `{Platform} (selectedItems : list item)
    (files : gmap string file) (f : form) :
  NoDup (sel_row <$> get_selected_items selectedItems) →
  NoDup (file_path <$> get_selected_items selectedItems) →
  snapshots_table (delete_snapshot_event selectedItems (files, f)).2
  = without_rows
      (sel_row <$> filter (λ entry, is_Some (files !! file_path entry))
                     (get_selected_items selectedItems))
      (snapshots_table f)
  ∧ ∀ path,
      (delete_snapshot_event selectedItems (files, f)).1 !! path
      = if decide (path ∈ file_path <$> get_selected_items selectedItems)
        then None else files !! path.
Proof.
  intros Hrows Hpaths. unfold delete_snapshot_event, without_rows.
  set (data := get_selected_items selectedItems) in *.
  pose proof (sort_by_row_perm data) as Hperm.
  destruct (delete_entries_sorted (sort_by_row data) files f) as [Ht Hf].
  - by apply sort_by_row_sorted.
  - by rewrite Hperm.
  - split.
    + rewrite Ht. apply rows_from_ext. intros r. by rewrite Hperm.
    + intros path. rewrite Hf.
      destruct (decide (path ∈ file_path <$> sort_by_row data)) as [Hin|Hin].
      * rewrite decide_True; [done|]. by rewrite <-Hperm.
      * rewrite decide_False; [done|]. by rewrite <-Hperm.
Qed.

Lemma delete_snapshot_event_rows_witness :
  snapshots_table
    (@delete_snapshot_event Sample.platform Sample.selection
       (Sample.snapshot_files, Sample.listed_form)).2
  = [("floor2", "Pre", "2024-01-01_11.00")].
Proof.
  refine (eq_trans (proj1 (@delete_snapshot_event_rows Sample.platform
                             Sample.selection Sample.snapshot_files
                             Sample.listed_form _ _)) _).
  - compute_done.
  - compute_done.
  - by vm_compute.
Defined.

(** ** [write_report]: the layout of the sheet *)

Section report_facts.
Import Report.
Implicit Types (compare_data : dict string row) (r : row).

Lemma write_cells_row row_idx r :
  write_cells row_idx
    ((λ '(_, c), (cell_text c, cell_fmt (cellFormat c))) <$> row_cells r) 1
  = (imap (λ j entry, write row_idx (column_of j) (cell_text entry.2)
                        (cell_fmt (cellFormat entry.2))) (row_cells r), 20).
Proof. reflexivity. Qed.

Lemma write_cells_header row_idx r :
  write_cells row_idx
    ((λ key, (Text key.1, header1_fmt)) <$> row_cells r) 1
  = (imap (λ j key, write row_idx (column_of j) (Text key.1) header1_fmt)
       (row_cells r), 20).
Proof. reflexivity. Qed.

Lemma write_rows_from (items : list (nat * row)) calls row_idx col_idx :
  foldl (λ '(calls, row_idx, col_idx) '(row_key, row_values),
           let '(cells, col_idx) :=
             write_cells row_idx
               ((λ '(_, c), (cell_text c, cell_fmt (cellFormat c)))
                  <$> row_cells row_values) 1 in
           (calls ++ write row_idx 0 (Number row_key) base_fmt :: cells,
            row_idx + 1, col_idx))
    (calls, row_idx, col_idx) items
  = (calls ++ mjoin (imap (λ i item, row_calls (row_idx + i) item) items),
     row_idx + length items,
     match items with [] => col_idx | _ => 20 end).
Proof.
  revert calls row_idx col_idx.
  induction items as [|[row_key r] items IH]; intros calls row_idx col_idx.
  - simpl. by rewrite app_nil_r, Nat.add_0_r.
  - cbn [foldl]. rewrite write_cells_row, IH.
    rewrite imap_cons. cbn [mjoin list_join length]. rewrite Nat.add_0_r.
    rewrite <-app_assoc. f_equal; [|by destruct items].
    f_equal; [|lia]. do 3 f_equal.
    apply imap_ext. intros i item _. simpl. f_equal. lia.
Qed.

Lemma report_data compare_data :
  dict_comprehension (λ '(idx, _), idx + 1)
    (λ '(_, (_, val)), val : row)
    (imap (λ idx (item : string * row), (idx, item)) compare_data)
  = imap (λ idx item, (idx + 1, item.2)) compare_data.
Proof.
  rewrite dict_comprehension_NoDup.
  - rewrite fmap_imap. apply imap_ext. by intros i [mac r] _.
  - rewrite fmap_imap.
    rewrite (imap_ext _ (λ j _, j + 1) compare_data) by by intros.
    rewrite imap_seq_0. apply NoDup_fmap_2; [|apply NoDup_seq].
    intros x y. lia.
Qed.

(** The calls of a report with at least one row. *)
Lemma write_report_calls mac r compare_data :
  write_report ((mac, r) :: compare_data)
  = ([add_worksheet "Mac Compare"; write 1 0 (Text "#") header1_fmt]
       ++ imap (λ j key, write 1 (column_of j) (Text key.1) header1_fmt)
            (row_cells r)
       ++ mjoin (imap (λ i item, row_calls (2 + i) (i + 1, item.2))
                    ((mac, r) :: compare_data))
       ++ [autofilter 1 1 (2 + S (length compare_data)) 19]
       ++ write_headers,
     None).
Proof.
  unfold write_report, write_rows, dict_items.
  rewrite report_data.
  set (data := imap (λ idx (item : string * row), (idx + 1, item.2))
                 ((mac, r) :: compare_data)).
  assert (dict_getitem data 1 = Ok r) as -> by done.
  rewrite write_cells_header, (write_rows_from data [] (1 + 1) 20).
  cbv iota beta zeta.
  assert (length data = S (length compare_data)) as ->.
  { unfold data. by rewrite length_imap. }
  assert (imap (λ i item, row_calls (1 + 1 + i) item) data
          = imap (λ i (item : string * row),
                    row_calls (2 + i) (i + 1, item.2))
              ((mac, r) :: compare_data)) as ->.
  { apply list_eq. intros i. unfold data. rewrite !list_lookup_imap.
    by destruct (_ !! i). }
  done.
Qed.

Lemma in_data_column_header row_idx (entries : list (string * cell))
    (f : nat → string * cell → sheet_value * sheet_format) c :
  length entries ≤ 17 →
  c ∈ imap (λ j entry, write row_idx (column_of j) (f j entry).1
                         (f j entry).2) entries →
  in_data_column c = true.
Proof.
  intros Hlen (j & entry & -> & Hj)%elem_of_lookup_imap.
  apply lookup_lt_Some in Hj. simpl.
  assert (j < 17) as Hlt by lia. clear -Hlt.
  do 17 (destruct j as [|j]; [done|]). lia.
Qed.

Lemma write_headers_columns c :
  c ∈ write_headers → in_data_column c = true.
Proof.
  intros Hc.
  assert (forallb in_data_column write_headers = true) as Hall by done.
  rewrite forallb_forall in Hall. apply Hall.
  by apply list_elem_of_In.
Qed.

Lemma compare_snapshots_nil pre post :
  compare_snapshots pre post = [] ↔ pre = [] ∧ post = [].
Proof.
  unfold compare_snapshots, dict_items.
  assert (∀ (d : dict string row) k v, dict_set d k v ≠ []) as Hset.
  { intros [|[k0 v0] d] k v; simpl; [done|]. by destruct (decide _). }
  assert (∀ (items : list (string * Ep.t)) (d : dict string row),
    d ≠ [] →
    foldl (λ compare_data '(mac, post),
             if negb (dict_contains pre mac)
             then dict_set compare_data mac (post_row mac post)
             else compare_data) d items ≠ []) as Hsecond.
  { induction items as [|[mac e] items IH]; intros d Hd; [done|].
    simpl. apply IH. by destruct (negb _). }
  assert (∀ (items : list (string * Ep.t)) (d : dict string row),
    d ≠ [] →
    foldl (λ compare_data '(mac, pre),
             dict_set compare_data mac (pre_row post mac pre)) d items ≠ [])
    as Hfirst.
  { induction items as [|[mac e] items IH]; intros d Hd; [done|].
    simpl. by apply IH. }
  split.
  - intros Hnil. destruct pre as [|[mac e] pre].
    + split; [done|]. destruct post as [|[mac e] post]; [done|].
      exfalso. revert Hnil. simpl. by apply Hsecond.
    + exfalso. revert Hnil. apply Hsecond. simpl. by apply Hfirst.
  - by intros [-> ->].
Qed.
End report_facts.

(** X19. A comparison without any row cannot be reported.  When both
    snapshots are empty, [write_report] fails on [data[1]] with
    [KeyError: 1] after it has written the first header cell, and the
    workbook is never closed; in every other case it raises nothing and
    closes the workbook at the end. *)
Theorem write_report_needs_rows (pre post : dict string Ep.t) :
  (Report.write_report (compare_snapshots pre post)).2
  = (if decide (pre = [] ∧ post = []) then Some (KeyError "1") else None)
  ∧ (last (Report.write_report (compare_snapshots pre post)).1
       = Some Report.close
     ↔ ¬ (pre = [] ∧ post = [])).
Proof.
  destruct (decide (pre = [] ∧ post = [])) as [[-> ->]|Hne].
  - split; [done|]. split; [done|]. by intros [].
  - destruct (compare_snapshots pre post) as [|[mac r] compare_data] eqn:Hc.
    { by apply compare_snapshots_nil in Hc. }
    rewrite write_report_calls. split; [done|]. split; [done|]. intros _.
    cbn [fst]. rewrite !last_app.
    by assert (last Report.write_headers = Some Report.close) as -> by done.
Qed.

(** X20. The layout of the report.  The row of the comparison at
    position [k] is written on sheet row [k + 2]: its number [k + 1] in
    column 0 and its [j]-th cell in column [j + 1] (Address, Observation,
    Vendor), [j + 2] (the seven Pre cells) or [j + 3] (the seven Post
    cells), as text joined by line feeds and in the base format updated
    with the style of the cell.  No call writes into the separator columns
    4 and 12 or right of column 19, and the filter spans the rows from 1
    to the number of rows plus 2, one row below the last written one. *)
Theorem write_report_layout (compare_data : dict string row) (k j : nat)
    (mac key : string) (r : row) (c : cell) :
  compare_data !! k = Some (mac, r) →
  Report.row_cells r !! j = Some (key, c) →
  Report.write (k + 2) 0 (Report.Number (k + 1)) Report.base_fmt
    ∈ (Report.write_report compare_data).1
  ∧ Report.write (k + 2) (Report.column_of j) (Report.cell_text c)
      (Report.cell_fmt (cellFormat c))
    ∈ (Report.write_report compare_data).1
  ∧ Report.autofilter 1 1 (length compare_data + 2) 19
    ∈ (Report.write_report compare_data).1
  ∧ Forall (λ call, Report.in_data_column call = true)
      (Report.write_report compare_data).1.
Proof.
  intros Hk Hj.
  destruct compare_data as [|[mac0 r0] compare_data]; [done|].
  rewrite write_report_calls. cbn [fst].
  assert (Report.row_calls (2 + k) (k + 1, r)
          ∈ imap (λ i item, Report.row_calls (2 + i) (i + 1, item.2))
              ((mac0, r0) :: compare_data)) as Hrow.
  { apply elem_of_lookup_imap. by exists k, (mac, r). }
  split_and!.
  - rewrite !elem_of_app. right. right. left.
    apply list_elem_of_join. eexists. split; [|exact Hrow].
    rewrite Nat.add_comm. left.
  - rewrite !elem_of_app. right. right. left.
    apply list_elem_of_join. eexists. split; [|exact Hrow].
    rewrite (Nat.add_comm k 2). right.
    apply elem_of_lookup_imap. by exists j, (key, c).
  - rewrite !elem_of_app. right. right. right. left.
    cbn [length]. replace (S (length compare_data) + 2)
      with (2 + S (length compare_data)) by lia.
    apply list_elem_of_singleton. done.
  - apply Forall_forall. intros call.
    rewrite !elem_of_app.
    intros [Hin|[Hin|[Hin|[Hin|Hin]]]].
    + apply elem_of_cons in Hin as [->|Hin]; [done|].
      by apply list_elem_of_singleton in Hin as ->.
    + by apply (in_data_column_header 1 (Report.row_cells r0)
                  (λ _ entry, (Report.Text entry.1, Report.header1_fmt))).
    + apply list_elem_of_join in Hin as (calls & Hcall & Hcalls).
      apply elem_of_lookup_imap in Hcalls as (i & item & -> & _).
      apply elem_of_cons in Hcall as [->|Hcall]; [done|].
      by apply (in_data_column_header (2 + i) (Report.row_cells item.2)
                  (λ _ entry, (Report.cell_text entry.2,
                               Report.cell_fmt (cellFormat entry.2)))).
    + by apply list_elem_of_singleton in Hin as ->.
    + by apply write_headers_columns.
Qed.

Lemma write_report_layout_witness :
  Report.write 2 7
    (Report.Text (Report.join Report.line_feed
                    (Ep.Speed (Sample.endpoint Sample.mac1 "SW1" "Gi1/0/1"
                                 "1G" "10.0.0.1"))))
    (Report.cell_fmt ftNormal)
  ∈ (Report.write_report
       (compare_snapshots Sample.pre_snapshot Sample.post_snapshot)).1.
Proof.
  exact (proj1 (proj2 (write_report_layout
    (compare_snapshots Sample.pre_snapshot Sample.post_snapshot) 0 5
    Sample.mac1 "Pre-Speed"
    (pre_row Sample.post_snapshot Sample.mac1
       (Sample.endpoint Sample.mac1 "SW1" "Gi1/0/1" "1G" "10.0.0.1"))
    (normal (Strs (Ep.Speed (Sample.endpoint Sample.mac1 "SW1" "Gi1/0/1"
                               "1G" "10.0.0.1"))))
    eq_refl eq_refl))).
Defined.
